(** * RICE: the ICE-detection sweep and the AST similarity matcher

  A shallow embedding of [scripts/detect.py], [scripts/run_coverage.py],
  [src/tools/compiler.py] and [src/tools/ast.py].

  Python [str] values are modelled by [string]; a character stands for
  the code point with the same number, so the development covers text
  whose code points lie below 256.  Python [int] is [Z], a Python [set]
  of strings is a [gset string], and a [dict] that is iterated in
  insertion order is an association list. *)

From Stdlib Require Import ZArith List Bool Ascii String Reals Lra Lia Permutation.
From stdpp Require Import base gmap strings list.

Local Open Scope string_scope.
Local Open Scope list_scope.

(** ** Python string primitives *)

Module PyStr.

(** Code point of a character. *)
Definition ord (c : ascii) : N := N_of_ascii c.

(** [str.isspace] on one character: TAB..CR, FS..US, SPACE, NEL, NBSP. *)
Definition is_space (c : ascii) : bool :=
  let n := ord c in
  ((9 <=? n) && (n <=? 13) || (28 <=? n) && (n <=? 31) ||
   (n =? 32) || (n =? 133) || (n =? 160))%N.

(** Line boundaries of [str.splitlines]: LF, VT, FF, CR, FS, GS, RS, NEL
    (CR LF counts as one boundary). *)
Definition is_linebreak (c : ascii) : bool :=
  let n := ord c in
  ((10 <=? n) && (n <=? 13) || (28 <=? n) && (n <=? 30) || (n =? 133))%N.

(** [str.lower] on one character: A..Z and the Latin-1 capitals
    (0xC0..0xDE without the multiplication sign 0xD7) move up by 32. *)
Definition lower_char (c : ascii) : ascii :=
  let n := ord c in
  if ((65 <=? n) && (n <=? 90) ||
      (192 <=? n) && (n <=? 222) && negb (n =? 215))%N
  then ascii_of_N (n + 32) else c.

Fixpoint lower (s : string) : string :=
  match s with
  | EmptyString => EmptyString
  | String c s' => String (lower_char c) (lower s')
  end.

(** [s.startswith(p)]. *)
Fixpoint startswith (p s : string) : bool :=
  match p, s with
  | EmptyString, _ => true
  | String _ _, EmptyString => false
  | String a p', String b s' => Ascii.eqb a b && startswith p' s'
  end.

(** [sub in s]. *)
Fixpoint contains (sub s : string) : bool :=
  startswith sub s ||
  match s with
  | EmptyString => false
  | String _ s' => contains sub s'
  end.

(** [s.lstrip()], [s.rstrip()], [s.strip()]. *)
Fixpoint lstrip (s : string) : string :=
  match s with
  | EmptyString => EmptyString
  | String c s' => if is_space c then lstrip s' else s
  end.

Fixpoint rstrip (s : string) : string :=
  match s with
  | EmptyString => EmptyString
  | String c s' =>
      match rstrip s' with
      | EmptyString => if is_space c then EmptyString else String c EmptyString
      | r => String c r
      end
  end.

Definition strip (s : string) : string := rstrip (lstrip s).

(** [s.splitlines()]: [cur] is the line read so far. *)
Fixpoint splitlines_from (cur s : string) : list string :=
  match s with
  | EmptyString =>
      match cur with EmptyString => [] | _ => [cur] end
  | String c s' =>
      if is_linebreak c then
        cur ::
        (if Ascii.eqb c "013" then
           match s' with
           | String "010" s'' => splitlines_from EmptyString s''
           | _ => splitlines_from EmptyString s'
           end
         else splitlines_from EmptyString s')
      else splitlines_from (cur +:+ String c EmptyString) s'
  end.

Definition splitlines (s : string) : list string :=
  splitlines_from EmptyString s.

(** [s.endswith(suf)]. *)
Definition endswith (suf s : string) : bool :=
  let n := String.length s in
  let k := String.length suf in
  (k <=? n)%nat && String.eqb (substring (n - k) k s) suf.

(** The lines a text-mode file object yields when iterated ([for line in
    f], universal newlines): CR LF and CR are read as LF, and a line keeps
    its terminator. *)
Fixpoint readlines_from (cur s : string) : list string :=
  match s with
  | EmptyString =>
      match cur with EmptyString => [] | _ => [cur] end
  | String c s' =>
      if Ascii.eqb c "010" then
        (cur +:+ String "010" EmptyString) :: readlines_from EmptyString s'
      else if Ascii.eqb c "013" then
        (cur +:+ String "010" EmptyString) ::
        match s' with
        | String "010" s'' => readlines_from EmptyString s''
        | _ => readlines_from EmptyString s'
        end
      else readlines_from (cur +:+ String c EmptyString) s'
  end.

Definition readlines (s : string) : list string :=
  readlines_from EmptyString s.

(** A string that does not begin with white space. *)
Definition starts_clean (s : string) : Prop :=
  match s with
  | EmptyString => True
  | String c _ => is_space c = false
  end.

(** Truthiness of a string: [if s]. *)
Definition truthy (s : string) : bool :=
  match s with EmptyString => false | _ => true end.

(** [x or EMPTY] where [x] is a string or [None] and EMPTY the empty
    string. *)
Definition or_empty (x : option string) : string :=
  match x with
  | Some s => s
  | None => EmptyString
  end.

End PyStr.

(** ** The compiler runner: [check_ice] of scripts/detect.py and
  [check_is_ice] of src/tools/compiler.py *)

Module Runner.
Import PyStr.

(** What [subprocess.run(cmd, capture_output=True, text=True,
    timeout=TIMEOUT_SEC, cwd=tmpdir)] inside the [with
    tempfile.TemporaryDirectory()] block can do: return a completed
    process, raise [subprocess.TimeoutExpired], or raise another
    [Exception] (the binary is missing, the scratch directory cannot be
    created, ...); [msg] is [str(e)]. *)
Inductive run_result :=
| Completed (returncode : Z) (stdout stderr : option string)
| TimeoutExpired
| Raised (msg : string).

(** The external toolchain: what running it on a source file does. *)
Definition toolchain := string -> run_result.

(** The signature test of [check_ice], in the order of the [or] chain. *)
Definition ICE_SIGNATURES : list string :=
  [ "internal compiler error";
    "thread 'rustc' panicked at";
    "Box<Any>";
    "delay_span_bug";
    "query stack during panic" ].

Definition is_ice_output (output : string) : bool :=
  contains "internal compiler error" output ||
  contains "thread 'rustc' panicked at" output ||
  contains "Box<Any>" output ||
  contains "delay_span_bug" output ||
  contains "query stack during panic" output.

(** The body of [check_ice] once the subprocess call has been made. *)
Definition check_ice_result (r : run_result) : bool * string :=
  match r with
  | Completed _ stdout stderr =>
      let output := or_empty stderr +:+ or_empty stdout in
      (is_ice_output output, output)
  | TimeoutExpired => (false, "Timeout")
  | Raised e => (false, "Script Error: " +:+ e)
  end.

Definition check_ice (rustc : toolchain) (rs_file : string) : bool * string :=
  check_ice_result (rustc rs_file).

(** The text [check_ice] looks at. *)
Definition output_of (r : run_result) : string :=
  match r with
  | Completed _ stdout stderr => or_empty stderr +:+ or_empty stdout
  | TimeoutExpired => "Timeout"
  | Raised e => "Script Error: " +:+ e
  end.

(** src/tools/compiler.py *)
Definition keywords : list string :=
  [ "thread 'rustc' panicked";
    "internal compiler error";
    "unexpectedly panicked";
    "query stack during panic" ].

Definition check_is_ice (compiler_output : string) : bool :=
  let lower_output := lower compiler_output in
  existsb (fun k => contains (lower k) lower_output) keywords.

(** The four classifications of the specification's data model. *)
Inductive classification :=
| Success
| CompileError
| Timeout
| InternalCompilerError.

Definition is_ice_class (c : classification) : bool :=
  match c with
  | InternalCompilerError => true
  | _ => false
  end.

(** The classification policy in the words of section 4.1 of the
    specification, kept apart from [check_ice] to compare the two:
    timeout first, then a signature in any letter case, then the exit
    code; a spawn failure has no classification. *)
Definition spec_compile (signatures : list string) (r : run_result)
  : option classification :=
  match r with
  | TimeoutExpired => Some Timeout
  | Raised _ => None
  | Completed rc stdout stderr =>
      let output := or_empty stderr +:+ or_empty stdout in
      if existsb (fun k => contains (lower k) (lower output)) signatures
      then Some InternalCompilerError
      else if (rc =? 0)%Z then Some Success else Some CompileError
  end.

End Runner.

(** ** Paths: [os.path] and [pathlib] on relative POSIX paths *)

Module PyPath.
Import PyStr.

Definition is_slash (c : ascii) : bool := Ascii.eqb c "/".

(** [p[:p.rfind(SLASH) + 1]]: the path up to its last slash, the slash
    included. *)
Fixpoint head_part (p : string) : string :=
  match p with
  | EmptyString => EmptyString
  | String c s' =>
      if contains "/" s' then String c (head_part s')
      else if is_slash c then "/" else EmptyString
  end.

(** [p[p.rfind(SLASH) + 1:]]: the last component, [Path.name]. *)
Fixpoint name_part (p : string) : string :=
  match p with
  | EmptyString => EmptyString
  | String c s' =>
      if contains "/" s' then name_part s'
      else if is_slash c then s' else p
  end.

Fixpoint all_slash (s : string) : bool :=
  match s with
  | EmptyString => true
  | String c s' => is_slash c && all_slash s'
  end.

Fixpoint rstrip_slash (s : string) : string :=
  match s with
  | EmptyString => EmptyString
  | String c s' =>
      match rstrip_slash s' with
      | EmptyString => if is_slash c then EmptyString else String c EmptyString
      | r => String c r
      end
  end.

(** [os.path.dirname] of posixpath. *)
Definition dirname (p : string) : string :=
  let head := head_part p in
  if truthy head && negb (all_slash head) then rstrip_slash head else head.

(** The name cut at its last dot: what stands before and after it. *)
Fixpoint split_last_dot (name : string) : option (string * string) :=
  match name with
  | EmptyString => None
  | String c s' =>
      match split_last_dot s' with
      | Some (before, after) => Some (String c before, after)
      | None => if Ascii.eqb c "." then Some (EmptyString, s') else None
      end
  end.

(** [Path.stem]: the name without its suffix; a dot at the head or at the
    end of the name starts no suffix. *)
Definition stem (name : string) : string :=
  match split_last_dot name with
  | Some (before, after) =>
      if truthy before && truthy after then before else name
  | None => name
  end.

End PyPath.

(** ** The resumable sweep: scripts/detect.py *)

Module Sweep.
Import PyStr PyPath Runner.

Definition BATCH_SIZE : Z := 50.

(** The line terminator that [log_f.write(rel_path_str + NEWLINE)] adds. *)
Definition NL : string := String "010" EmptyString.

(** A file on disk: absent, or present with its text. *)
Inductive disk_file :=
| Absent
| Present (text : string).

Definition text_of (f : disk_file) : string :=
  match f with
  | Absent => EmptyString
  | Present t => t
  end.

(** The lines the script prints, without their wording. *)
Inductive event :=
| WarnReadFailed (e : string)
| HistoryCount (n : Z)
| TotalFiles (n : Z)
| Checking (idx total : Z) (rel_path : string)
| IceDetected (rel_path : string)
| SaveFailed (e : string)
| Summary (processed skipped ice_found : Z).

(** Where saving a report can raise: before the source is copied, or
    after the copy and before the log is written. *)
Inductive save_stage :=
| BeforeCopy
| BeforeLog.

(** What the script cannot control: the toolchain, whether reading the
    ledger raises ([read_error] is the exception's text), whether and
    where saving a report raises, and the text of each source file. *)
Record env := {
  rustc : toolchain;
  read_error : option string;
  save_error : string -> option (save_stage * string);
  source : string -> string
}.

(** [load_checked_files]: the set comprehension over
    [LOG_FILE.read_text(...).splitlines()], inside [try]. *)
Definition load_checked_files (log_file : disk_file) (read_error : option string)
  : gset string * list event :=
  match log_file with
  | Absent => (∅, [])
  | Present text =>
      match read_error with
      | Some e => (∅, [WarnReadFailed e])
      | None =>
          (list_to_set
             (List.filter truthy (List.map strip (splitlines text))), [])
      end
  end.

(** The variables of [main].  [log_f] is the text of LOG_FILE (the file is
    opened for appending with line buffering, so every written line has
    reached the file when [write] returns); [ice_dir] holds the files
    under ICE_DIR by their paths relative to it; [checked_units] lists the
    units handed to [check_ice], in order. *)
Record state := {
  log_f : string;
  flushes : Z;
  processed_count : Z;
  skipped_count : Z;
  ice_found_count : Z;
  ice_dir : gmap string string;
  checked_units : list string;
  stdout : list event
}.

(** Where the diagnostic text of a unit goes: beside the copy of the
    source, named by the stem of the file. *)
Definition log_path (rel_path : string) : string :=
  head_part rel_path +:+ stem (name_part rel_path) +:+ ".err.log".

(** [save_ice_report]: the source copied under the same relative path,
    the log written beside it, and [True]; or the exception caught and
    printed, and [False]. *)
Definition save_ice_report (e : env) (rel_path error_log : string)
  (dir : gmap string string) : bool * gmap string string * list event :=
  match save_error e rel_path with
  | None =>
      (true,
       <[ log_path rel_path := error_log ]>
         (<[ rel_path := source e rel_path ]> dir),
       [])
  | Some (BeforeCopy, err) => (false, dir, [SaveFailed err])
  | Some (BeforeLog, err) =>
      (false, <[ rel_path := source e rel_path ]> dir, [SaveFailed err])
  end.

(** Loop body up to the ICE handling (lines 155-174). *)
Definition iteration_check (e : env) (total idx : Z) (rel_path_str : string)
  (st : state) : state :=
  let '(is_ice, error_msg) := check_ice (rustc e) rel_path_str in
  let out1 := stdout st ++ [Checking idx total rel_path_str] in
  if is_ice then
    let '(saved, dir, out2) := save_ice_report e rel_path_str error_msg (ice_dir st) in
    {| log_f := log_f st;
       flushes := flushes st;
       processed_count := processed_count st;
       skipped_count := skipped_count st;
       ice_found_count := if saved then ice_found_count st + 1 else ice_found_count st;
       ice_dir := dir;
       checked_units := checked_units st ++ [rel_path_str];
       stdout := out1 ++ [IceDetected rel_path_str] ++ out2 |}
  else
    {| log_f := log_f st;
       flushes := flushes st;
       processed_count := processed_count st;
       skipped_count := skipped_count st;
       ice_found_count := ice_found_count st;
       ice_dir := ice_dir st;
       checked_units := checked_units st ++ [rel_path_str];
       stdout := out1 |}.

(** Loop body from the ledger write on (lines 176-184). *)
Definition iteration_record (rel_path_str : string) (st : state) : state :=
  let processed := (processed_count st + 1)%Z in
  {| log_f := log_f st +:+ rel_path_str +:+ NL;
     flushes := if (processed mod BATCH_SIZE =? 0)%Z
                then (flushes st + 1)%Z else flushes st;
     processed_count := processed;
     skipped_count := skipped_count st;
     ice_found_count := ice_found_count st;
     ice_dir := ice_dir st;
     checked_units := checked_units st;
     stdout := stdout st |}.

Definition skip (st : state) : state :=
  {| log_f := log_f st;
     flushes := flushes st;
     processed_count := processed_count st;
     skipped_count := (skipped_count st + 1)%Z;
     ice_found_count := ice_found_count st;
     ice_dir := ice_dir st;
     checked_units := checked_units st;
     stdout := stdout st |}.

(** One pass of the [for] loop. *)
Definition iteration (e : env) (checked_files : gset string) (total idx : Z)
  (rel_path_str : string) (st : state) : state :=
  if decide (rel_path_str ∈ checked_files) then skip st
  else iteration_record rel_path_str (iteration_check e total idx rel_path_str st).

Fixpoint loop (e : env) (checked_files : gset string) (total idx : Z)
  (files : list string) (st : state) : state :=
  match files with
  | [] => st
  | rs_file :: rest =>
      loop e checked_files total (idx + 1) rest
           (iteration e checked_files total idx rs_file st)
  end.

(** Where a run stops: at the end of the list, or killed (a signal,
    [KeyboardInterrupt]) after [k] passes of the loop, or killed inside
    pass [k+1] after the compile and before the ledger write. *)
Inductive interruption :=
| Uninterrupted
| KilledAfter (k : nat)
| KilledInUnit (k : nat).

Definition print (ev : event) (st : state) : state :=
  {| log_f := log_f st;
     flushes := flushes st;
     processed_count := processed_count st;
     skipped_count := skipped_count st;
     ice_found_count := ice_found_count st;
     ice_dir := ice_dir st;
     checked_units := checked_units st;
     stdout := stdout st ++ [ev] |}.

(** [main] on a tree whose [*.rs] files have the relative paths
    [all_files] (in [rglob] order); the source directory exists, and
    [open(LOG_FILE, a)] of line 150 returns the file.  [SweepOpen.main]
    below adds the run on which that call raises. *)
Definition main (e : env) (log_file : disk_file) (all_files : list string)
  (stop : interruption) : state :=
  let '(checked_files, warnings) := load_checked_files log_file (read_error e) in
  let total_files := Z.of_nat (length all_files) in
  let st0 :=
    {| log_f := text_of log_file;
       flushes := 0;
       processed_count := 0;
       skipped_count := 0;
       ice_found_count := 0;
       ice_dir := ∅;
       checked_units := [];
       stdout := warnings ++ [HistoryCount (Z.of_nat (size checked_files));
                              TotalFiles total_files] |} in
  match stop with
  | Uninterrupted =>
      let st := loop e checked_files total_files 1 all_files st0 in
      print (Summary (processed_count st) (skipped_count st) (ice_found_count st)) st
  | KilledAfter k =>
      loop e checked_files total_files 1 (take k all_files) st0
  | KilledInUnit k =>
      let st := loop e checked_files total_files 1 (take k all_files) st0 in
      match all_files !! k with
      | Some rs_file =>
          if decide (rs_file ∈ checked_files) then st
          else iteration_check e total_files (Z.of_nat k + 1) rs_file st
      | None => st
      end
  end.

(** The part of the list whose passes through the loop a run completes. *)
Definition attempted (stop : interruption) (all_files : list string) : list string :=
  match stop with
  | Uninterrupted => all_files
  | KilledAfter k | KilledInUnit k => take k all_files
  end.

(** The ledger a later run finds on disk. *)
Definition ledger_after (st : state) : disk_file := Present (log_f st).

(** The text that writing the paths [ps] one after the other leaves. *)
Fixpoint ledger_text (ps : list string) : string :=
  match ps with
  | [] => EmptyString
  | p :: ps' => p +:+ NL +:+ ledger_text ps'
  end.

(** The units of [files] that a run with the loaded set [checked_files]
    hands to the runner. *)
Definition unprocessed (checked_files : gset string) (files : list string)
  : list string :=
  List.filter (fun f => negb (bool_decide (f ∈ checked_files))) files.

(** A path that reading the ledger gives back as it was written: not
    empty, no white space at either end, no line boundary inside. *)
Definition no_linebreak (p : string) : Prop :=
  forallb (fun c => negb (is_linebreak c)) (list_ascii_of_string p) = true.

Definition ledger_safe (p : string) : Prop :=
  p <> EmptyString /\ strip p = p /\ no_linebreak p.

End Sweep.

(** ** [main] of scripts/detect.py, the opening of the ledger included *)

Module SweepOpen.
Import PyStr Sweep.

(** [main] returns, or an exception leaves it; both carry the state
    reached. *)
Inductive outcome :=
| Returns (st : state)
| Raises (e : string) (st : state).

Definition state_of (o : outcome) : state :=
  match o with
  | Returns st => st
  | Raises _ st => st
  end.

(** [main] from its first line.  The ledger is read inside the [try] of
    [load_checked_files] (lines 50-59) and opened for appending at line
    150, outside any [try]: when [open] raises, [open_error] being the
    text of the exception, the exception leaves [main] after the two
    counts were printed, before the loop is entered, and nothing has been
    compiled or written.  The two calls fail independently of each other.
    A ledger that is not valid UTF-8, or that may be written and not
    read, fails the read only; a ledger that is a directory, or that may
    be neither read nor written, fails both; a ledger that may be read
    and not written fails the open only. *)
Definition main (e : env) (open_error : option string) (log_file : disk_file)
  (all_files : list string) (stop : interruption) : outcome :=
  match open_error with
  | None => Returns (Sweep.main e log_file all_files stop)
  | Some err =>
      let '(checked_files, warnings) := load_checked_files log_file (read_error e) in
      Raises err
        {| log_f := text_of log_file;
           flushes := 0;
           processed_count := 0;
           skipped_count := 0;
           ice_found_count := 0;
           ice_dir := ∅;
           checked_units := [];
           stdout := warnings ++ [HistoryCount (Z.of_nat (size checked_files));
                                  TotalFiles (Z.of_nat (length all_files))] |}
  end.

End SweepOpen.

(** ** The coverage sweep and its fragment merger: scripts/run_coverage.py *)

Module Coverage.
Import PyStr Runner.

Definition PROFDATA_TOOL : string :=
  "/home/lulan/MyProjects/rustc-fuzz/rust/build/host/ci-llvm/bin/llvm-profdata".
Definition FINAL_PROFDATA : string := "fuzzing_total.profdata".
Definition BATCH_SIZE : Z := 20.
Definition NL : string := String "010" EmptyString.

(** What [subprocess.run(cmd, check=True, capture_output=True)] can do
    with the merge tool: exit with 0 having written [index] to the output
    path, exit with another code ([CalledProcessError]), or fail to start
    (another exception). *)
Inductive tool_result :=
| ToolOk (index : string)
| ToolFailed (returncode : Z)
| ToolRaised (e : string).

(** A call either returns or lets an exception escape; both carry the
    state reached. *)
Inductive outcome (A : Type) :=
| Returns (a : A)
| Raises (e : string) (a : A).
Arguments Returns {A} a.
Arguments Raises {A} e a.

Definition state_of {A} (o : outcome A) : A :=
  match o with
  | Returns a => a
  | Raises _ a => a
  end.

Inductive event :=
| WarnReadFailed (e : string)
| Merging (n : Z)
| MergeOk (size_bytes : Z)
| MergeFailed (returncode : Z)
| Run (rel_path : string)
| Ok (rel_path : string)
| Fail (rel_path : string) (returncode : Z)
| Time (rel_path : string)
| Err (rel_path e : string)
| Finalizing
| Summary (new_processed ok fail timeout skipped : Z).

(** What the merger works on and leaves behind: [incoming] is what
    [glob.glob(COVERAGE_INCOMING_DIR/*.profraw)] returns, [profdata] the
    text of FINAL_PROFDATA when it exists, and [merged] is the log of the
    calls [subprocess.run(cmd, check=True, ...)] of line 80 that returned:
    the list [cmd] of each, oldest first. *)
Record store := {
  incoming : list string;
  profdata : option string;
  merged : list (list string)
}.


(** What the script cannot control. *)
Record env := {
  rustc : toolchain;
  profraws : string -> list string;
  tool : list string -> tool_result;
  remove_error : string -> bool;
  read_error : option (nat * string)
}.

(** [os.remove(f)] for each fragment, [OSError] passed over: the
    fragments that are still there afterwards. *)
Definition clean (e : env) (profraw_files : list string) : list string :=
  List.filter (remove_error e) profraw_files.

(** The command line of the merge: the tool, the index when there is
    one, the fragments, the output path. *)
Definition merge_command (d : store) : list string :=
  [PROFDATA_TOOL; "merge"; "-sparse"] ++
  (match profdata d with Some _ => [FINAL_PROFDATA] | None => [] end) ++
  incoming d ++ ["-o"; FINAL_PROFDATA].

(** [perform_merge_and_clean]. *)
Definition perform_merge_and_clean (e : env) (d : store)
  : outcome (store * list event) :=
  let profraw_files := incoming d in
  match profraw_files with
  | [] => Returns (d, [])
  | _ :: _ =>
      let out := [Merging (Z.of_nat (length profraw_files))] in
      let cmd := merge_command d in
      match tool e cmd with
      | ToolOk index =>
          Returns
            ({| incoming := clean e profraw_files;
                profdata := Some index;
                merged := merged d ++ [cmd] |},
             out ++ [MergeOk (Z.of_nat (String.length index))])
      | ToolFailed rc => Returns (d, out ++ [MergeFailed rc])
      | ToolRaised err => Raises err (d, out)
      end
  end.

(** [load_processed_files]: every line read before the exception, if any,
    has been added. *)
Definition load_processed_files (record_file : Sweep.disk_file)
  (read_error : option (nat * string)) : gset string * list event :=
  match record_file with
  | Sweep.Absent => (∅, [])
  | Sweep.Present text =>
      let lines := readlines text in
      match read_error with
      | Some (n, err) =>
          (list_to_set (List.map strip (take n lines)), [WarnReadFailed err])
      | None => (list_to_set (List.map strip lines), [])
      end
  end.

Record state := {
  record_f : string;
  processed_set : gset string;
  count_new_processed : Z;
  count_skipped : Z;
  stat_ok : Z;
  stat_fail : Z;
  stat_timeout : Z;
  disk : store;
  stdout : list event
}.

(** [record_f.write(...)], [processed_set.add(...)],
    [count_new_processed += 1]. *)
Definition record (rel_path : string) (st : state) : state :=
  {| record_f := record_f st +:+ rel_path +:+ NL;
     processed_set := {[ rel_path ]} ∪ processed_set st;
     count_new_processed := (count_new_processed st + 1)%Z;
     count_skipped := count_skipped st;
     stat_ok := stat_ok st;
     stat_fail := stat_fail st;
     stat_timeout := stat_timeout st;
     disk := disk st;
     stdout := stdout st |}.

Definition print (evs : list event) (st : state) : state :=
  {| record_f := record_f st;
     processed_set := processed_set st;
     count_new_processed := count_new_processed st;
     count_skipped := count_skipped st;
     stat_ok := stat_ok st;
     stat_fail := stat_fail st;
     stat_timeout := stat_timeout st;
     disk := disk st;
     stdout := stdout st ++ evs |}.

Definition bump (ok fail timeout skipped : Z) (st : state) : state :=
  {| record_f := record_f st;
     processed_set := processed_set st;
     count_new_processed := count_new_processed st;
     count_skipped := (count_skipped st + skipped)%Z;
     stat_ok := (stat_ok st + ok)%Z;
     stat_fail := (stat_fail st + fail)%Z;
     stat_timeout := (stat_timeout st + timeout)%Z;
     disk := disk st;
     stdout := stdout st |}.

Definition set_disk (d : store) (st : state) : state :=
  {| record_f := record_f st;
     processed_set := processed_set st;
     count_new_processed := count_new_processed st;
     count_skipped := count_skipped st;
     stat_ok := stat_ok st;
     stat_fail := stat_fail st;
     stat_timeout := stat_timeout st;
     disk := d;
     stdout := stdout st |}.

(** The fragments a compiler run leaves in COVERAGE_INCOMING_DIR. *)
Definition emit (new : list string) (d : store) : store :=
  {| incoming := incoming d ++
                 List.filter (fun f => negb (existsb (String.eqb f) (incoming d)))
                             (List.nodup string_dec new);
     profdata := profdata d;
     merged := merged d |}.

(** The [try] block around [subprocess.run] (lines 151-185). *)
Definition compile_unit (e : env) (rel_path : string) (st : state) : state :=
  let st := print [Run rel_path] st in
  let st := set_disk (emit (profraws e rel_path) (disk st)) st in
  match rustc e rel_path with
  | Completed rc _ _ =>
      let st := record rel_path st in
      if (rc =? 0)%Z then bump 1 0 0 0 (print [Ok rel_path] st)
      else bump 0 1 0 0 (print [Fail rel_path rc] st)
  | TimeoutExpired =>
      record rel_path (bump 0 0 1 0 (print [Time rel_path] st))
  | Raised err => print [Err rel_path err] st
  end.

(** The batch check after a unit (lines 189-195): an exception that
    escapes the merge is passed over. *)
Definition maybe_merge (e : env) (st : state) : state :=
  if (BATCH_SIZE <=? Z.of_nat (length (incoming (disk st))))%Z then
    let '(d, out) := state_of (perform_merge_and_clean e (disk st)) in
    print out (set_disk d st)
  else st.

Definition iteration (e : env) (file rel_path : string) (st : state) : state :=
  if endswith ".rs" file then
    if decide (rel_path ∈ processed_set st) then bump 0 0 0 1 st
    else maybe_merge e (compile_unit e rel_path st)
  else st.

(** [walked] lists the files [os.walk(SOURCE_DIR)] visits, each with its
    name and its path relative to the working directory. *)
Fixpoint loop (e : env) (walked : list (string * string)) (st : state) : state :=
  match walked with
  | [] => st
  | (file, rel_path) :: rest => loop e rest (iteration e file rel_path st)
  end.

(** [main], the start-up checks passed and the record file opened. *)
Definition main (e : env) (record_file : Sweep.disk_file) (d : store)
  (walked : list (string * string)) : outcome state :=
  let '(processed, warnings) := load_processed_files record_file (read_error e) in
  let st0 :=
    {| record_f := Sweep.text_of record_file;
       processed_set := processed;
       count_new_processed := 0;
       count_skipped := 0;
       stat_ok := 0;
       stat_fail := 0;
       stat_timeout := 0;
       disk := d;
       stdout := warnings |} in
  let st := print [Finalizing] (loop e walked st0) in
  match perform_merge_and_clean e (disk st) with
  | Returns (d', out) =>
      let st := print out (set_disk d' st) in
      Returns
        (print [Summary (count_new_processed st) (stat_ok st) (stat_fail st)
                        (stat_timeout st) (count_skipped st)] st)
  | Raises err (d', out) => Raises err (print out (set_disk d' st))
  end.

End Coverage.

(** ** The file system seen by [os.makedirs] and [open(path, w)] *)

Module Fs.
Import PyStr PyPath.

(** Regular files with their text, and directories.  In a file system
    that is consistent every ancestor of an entry is a directory. *)
Record filesystem := {
  files : gmap string string;
  dirs : gset string
}.

(** The directories on the way to [name], shortest first. *)
Fixpoint prefixes_at_slash (pre s : string) : list string :=
  match s with
  | EmptyString => []
  | String c s' =>
      (if is_slash c && truthy pre then [pre] else []) ++
      prefixes_at_slash (pre +:+ String c EmptyString) s'
  end.

Definition ancestors (name : string) : list string :=
  prefixes_at_slash EmptyString name ++ [name].

(** [os.makedirs(name, exist_ok=True)]: an error for the empty name and
    when a regular file is in the way (nothing is created then, the
    directories above that file being there already); otherwise every
    missing directory of the chain is created. *)
Definition makedirs (name : string) (fs : filesystem) : string + filesystem :=
  if negb (truthy name) then inl "FileNotFoundError"
  else if existsb (fun d => bool_decide (d ∈ dom (files fs))) (ancestors name)
  then inl "FileExistsError"
  else inr {| files := files fs;
              dirs := list_to_set (ancestors name) ∪ dirs fs |}.

(** [with open(path, w) as f: f.write(text)]. *)
Definition write_file (path text : string) (fs : filesystem) : string + filesystem :=
  if negb (truthy path) then inl "FileNotFoundError"
  else if bool_decide (path ∈ dirs fs) then inl "IsADirectoryError"
  else if truthy (dirname path) && negb (bool_decide (dirname path ∈ dirs fs))
  then inl "FileNotFoundError"
  else inr {| files := <[ path := text ]> (files fs);
              dirs := dirs fs |}.

End Fs.

(** ** scikit-learn's [TfidfVectorizer] and [cosine_similarity], over the
  real numbers *)

Module Sklearn.
Import PyStr.
Local Open Scope R_scope.

(** The analyzer of [TfidfVectorizer(token_pattern=NOT-SPACE+)]: the
    document in lower case, cut into its maximal runs of characters that
    are not white space. *)
Fixpoint words_from (cur s : string) : list string :=
  match s with
  | EmptyString =>
      match cur with EmptyString => [] | _ => [cur] end
  | String c s' =>
      if is_space c then
        match cur with
        | EmptyString => words_from EmptyString s'
        | _ => cur :: words_from EmptyString s'
        end
      else words_from (cur +:+ String c EmptyString) s'
  end.

Definition analyze (doc : string) : list string :=
  words_from EmptyString (lower doc).

(** The terms of the corpus, each once (scikit-learn sorts them; no
    result below depends on their order). *)
Definition vocabulary (docs : list (list string)) : list string :=
  List.nodup string_dec (List.concat docs).

Definition tf (t : string) (d : list string) : R :=
  INR (count_occ string_dec d t).

Definition df (t : string) (docs : list (list string)) : nat :=
  length (List.filter (fun d => existsb (String.eqb t) d) docs).

(** [smooth_idf=True]: ln((1 + n) / (1 + df)) + 1. *)
Definition idf (n d : nat) : R :=
  ln ((1 + INR n) / (1 + INR d)) + 1.

Definition tfidf_row (vocab : list string) (docs : list (list string))
  (d : list string) : list R :=
  List.map (fun t => tf t d * idf (length docs) (df t docs)) vocab.

Fixpoint dot (v w : list R) : R :=
  match v, w with
  | a :: v', b :: w' => a * b + dot v' w'
  | _, _ => 0
  end.

Definition l2_norm (v : list R) : R := sqrt (dot v v).

(** [normalize(X, norm=l2)] on one row: a row of norm 0 is left as it
    is. *)
Definition normalize (v : list R) : list R :=
  let n := l2_norm v in
  if Req_EM_T n 0 then v else List.map (fun x => x / n) v.

(** [vectorizer.fit_transform(docs)], the rows of the matrix; [None]
    stands for the [ValueError] raised on an empty vocabulary. *)
Definition fit_transform (docs : list string) : option (list (list R)) :=
  let toks := List.map analyze docs in
  let vocab := vocabulary toks in
  match vocab with
  | [] => None
  | _ => Some (List.map (fun d => normalize (tfidf_row vocab toks d)) toks)
  end.

(** [cosine_similarity(x, Y)[0]]: both sides are normalized again. *)
Definition cosine_similarity (x : list R) (Y : list (list R)) : list R :=
  let xn := normalize x in
  List.map (fun y => dot xn (normalize y)) Y.

End Sklearn.

(** ** The AST similarity matcher: src/tools/ast.py *)

Module Ast.
Import PyStr.

(** A tree-sitter node: its type, whether it is named, its children. *)
#[local] Unset Elimination Schemes.
Inductive node :=
| Node (type : string) (is_named : bool) (children : list node).
#[local] Set Elimination Schemes.

(** Induction on a node with the property at hand for every child. *)
Fixpoint node_ind' (P : node -> Prop)
  (step : forall t b cs, Forall P cs -> P (Node t b cs)) (n : node) : P n :=
  match n with
  | Node t b cs =>
      step t b cs
        ((fix go (cs : list node) : Forall P cs :=
            match cs with
            | [] => @List.Forall_nil node P
            | c :: cs' => @List.Forall_cons node P c cs' (node_ind' P step c) (go cs')
            end) cs)
  end.

Definition type (n : node) : string :=
  match n with Node t _ _ => t end.
Definition is_named (n : node) : bool :=
  match n with Node _ b _ => b end.
Definition children (n : node) : list node :=
  match n with Node _ _ cs => cs end.

Definition named_children (n : node) : list node :=
  List.filter is_named (children n).

Definition is_source_file (t : string) : bool := String.eqb t "source_file".

(** [max(l)] for a list that is not empty. *)
Definition py_max (l : list Z) : Z :=
  match l with
  | [] => 0%Z
  | x :: xs => fold_left Z.max xs x
  end.

(** [ast_depth]. *)
Fixpoint ast_depth (n : node) : Z :=
  match n with
  | Node t _ cs =>
      let depths :=
        (fix go (cs : list node) : list Z :=
           match cs with
           | [] => []
           | c :: cs' => if is_named c then ast_depth c :: go cs' else go cs'
           end) cs in
      if is_source_file t then
        match depths with [] => 0%Z | _ => py_max depths end
      else
        match depths with [] => 1%Z | _ => (1 + py_max depths)%Z end
  end.

(** [collect_candidate_roots]: the [while stack] loop, one pass per unit
    of [fuel]. *)
Fixpoint collect_loop (fuel : nat) (stack result : list node) : list node :=
  match fuel with
  | O => result
  | S fuel' =>
      match rev stack with
      | [] => result
      | current :: below =>
          let result' :=
            if is_source_file (type current) then result
            else result ++ [current] in
          collect_loop fuel' (rev below ++ named_children current) result'
      end
  end.

(** Number of nodes of a tree: the loop pops every node at most once. *)
Fixpoint size (n : node) : nat :=
  match n with
  | Node _ _ cs =>
      S ((fix go (cs : list node) : nat :=
            match cs with
            | [] => O
            | c :: cs' => (size c + go cs')%nat
            end) cs)
  end.

Definition collect_candidate_roots (n : node) (result : list node) : list node :=
  collect_loop (size n) [n] result.

(** [d] is [n] itself or lies below [n] on a path of named nodes. *)
Inductive named_descendant : node -> node -> Prop :=
| nd_self (n : node) : named_descendant n n
| nd_child (n c d : node) :
    In c (named_children n) -> named_descendant c d -> named_descendant n d.

(** A [collections.Counter] keyed by pairs of node types, in insertion
    order. *)
Definition token : Type := string * string.
Definition Counter : Type := list (token * Z).

Definition token_eqb (a b : token) : bool :=
  String.eqb (fst a) (fst b) && String.eqb (snd a) (snd b).

(** [counter[k]]. *)
Fixpoint count (k : token) (counter : Counter) : Z :=
  match counter with
  | [] => 0%Z
  | (k', v) :: rest => if token_eqb k k' then v else count k rest
  end.

(** [counter[k] += 1]. *)
Fixpoint incr (k : token) (counter : Counter) : Counter :=
  match counter with
  | [] => [(k, 1%Z)]
  | (k', v) :: rest =>
      if token_eqb k k' then (k', (v + 1)%Z) :: rest
      else (k', v) :: incr k rest
  end.

(** [ast_2gram_limited(node, counter, max_depth, cur_depth)]; the
    counter that the source updates in place is returned. *)
Fixpoint ast_2gram_limited (n : node) (counter : Counter)
  (max_depth cur_depth : Z) : Counter :=
  match n with
  | Node t _ cs =>
      if is_source_file t then
        (fix go (cs : list node) (counter : Counter) : Counter :=
           match cs with
           | [] => counter
           | c :: cs' =>
               go cs' (if is_named c
                       then ast_2gram_limited c counter max_depth cur_depth
                       else counter)
           end) cs counter
      else if (max_depth <=? cur_depth)%Z then counter
      else
        (fix go (cs : list node) (counter : Counter) : Counter :=
           match cs with
           | [] => counter
           | c :: cs' =>
               go cs' (if is_named c
                       then ast_2gram_limited c (incr (t, type c) counter)
                              max_depth (cur_depth + 1)
                       else counter)
           end) cs counter
  end.

(** The bigram extraction in the words of section 4.5 (step 3) of the
    specification, kept apart from [ast_2gram_limited] to compare the
    two: from [depth] on, a node at a depth below [D] gives one token per
    named child and the child is visited one level deeper. *)
Fixpoint spec_bigrams_from (D depth : Z) (n : node) : list token :=
  match n with
  | Node t _ cs =>
      if (depth <? D)%Z then
        (fix go (cs : list node) : list token :=
           match cs with
           | [] => []
           | c :: cs' =>
               if is_named c
               then (t, type c) :: spec_bigrams_from D (depth + 1) c ++ go cs'
               else go cs'
           end) cs
      else []
  end.

(** The extraction started at depth [start] at the given root, or at the
    wrapper's named children for a whole file. *)
Definition spec_extract (start D : Z) (root : node) : list token :=
  if is_source_file (type root)
  then flat_map (spec_bigrams_from D start) (named_children root)
  else spec_bigrams_from D start root.

(** [counter[k] += 1] for each token of a list in turn. *)
Definition incr_all (tokens : list token) (counter : Counter) : Counter :=
  fold_left (fun c k => incr k c) tokens counter.

(** No node of the tree is a wrapper. *)
Fixpoint wrapper_free (n : node) : bool :=
  match n with
  | Node t _ cs =>
      negb (is_source_file t) &&
      (fix go (cs : list node) : bool :=
         match cs with
         | [] => true
         | c :: cs' => wrapper_free c && go cs'
         end) cs
  end.

(** A tree as the parser builds it: no wrapper below the root. *)
Definition proper_tree (root : node) : bool :=
  forallb wrapper_free (children root).

Definition token_dec (a b : token) : {a = b} + {a <> b}.
Proof. decide equality; apply string_dec. Defined.

(** Every count of the counter is at least 1. *)
Definition positive (counter : Counter) : Prop :=
  Forall (fun kv => (1 <= snd kv)%Z) counter.

(** [counter_to_doc]. *)
Definition join_tokens (tokens : list string) : string :=
  match tokens with
  | [] => EmptyString
  | t :: ts => fold_left (fun acc x => acc +:+ " " +:+ x) ts t
  end.

Definition counter_to_doc (counter : Counter) : string :=
  join_tokens
    (flat_map (fun '((p, c), cnt) => repeat (p +:+ "__" +:+ c) (Z.to_nat cnt))
              counter).

(** What a call of [match_and_save] does: return a boolean or let an
    exception escape. *)
Inductive result :=
| Returned (b : bool)
| Raised (e : string).

Definition nonempty (c : Counter) : bool :=
  match c with [] => false | _ => true end.

(** [any(s >= threshold for s in sims)]. *)
Definition any_ge (threshold : R) (sims : list R) : bool :=
  existsb (fun s => if Rge_dec s threshold then true else false) sims.

(** The documents of the query: the snippet's first, then one per
    candidate root whose counter is not empty. *)
Definition candidate_counters (full_tree : node) (snippet_depth : Z) : list Counter :=
  List.filter nonempty
    (List.map (fun r => ast_2gram_limited r [] snippet_depth 1)
              (collect_candidate_roots full_tree [])).

(** [sims], when the vectorizer does not raise. *)
Definition similarities (snippet_doc : string) (counters : list Counter)
  : option (list R) :=
  let docs := snippet_doc :: List.map counter_to_doc counters in
  match Sklearn.fit_transform docs with
  | Some (snippet_vec :: candidate_vecs) =>
      Some (Sklearn.cosine_similarity snippet_vec candidate_vecs)
  | _ => None
  end.

(** [match_and_save]; [parse] is the tree-sitter parser, which returns
    the root node of the tree. *)
Definition match_and_save (parse : string -> node)
  (snippet_code full_code save_path : string) (threshold : R)
  (fs : Fs.filesystem) : result * Fs.filesystem :=
  let snippet_tree := parse snippet_code in
  let full_tree := parse full_code in
  let snippet_depth := ast_depth snippet_tree in
  if (snippet_depth <=? 1)%Z then (Returned false, fs)
  else
    let snippet_counter := ast_2gram_limited snippet_tree [] snippet_depth 1 in
    let snippet_doc := counter_to_doc snippet_counter in
    let counters := candidate_counters full_tree snippet_depth in
    match counters with
    | [] => (Returned false, fs)
    | _ :: _ =>
        match similarities snippet_doc counters with
        | None => (Raised "ValueError", fs)
        | Some sims =>
            if any_ge threshold sims then
              match Fs.makedirs (PyPath.dirname save_path) fs with
              | inl err => (Raised err, fs)
              | inr fs1 =>
                  match Fs.write_file save_path full_code fs1 with
                  | inl err => (Raised err, fs1)
                  | inr fs2 => (Returned true, fs2)
                  end
              end
            else (Returned false, fs)
        end
    end.

(** A snippet of four top-level items, each a named node over one named
    leaf: the shape of the four lines [use a; mod b; struct S; a;]. *)
Definition four_items : node :=
  Node "source_file" true
    [ Node "use_declaration" true
        [Node "use" false []; Node "identifier" true []; Node ";" false []];
      Node "mod_item" true
        [Node "mod" false []; Node "identifier" true []; Node ";" false []];
      Node "struct_item" true
        [Node "struct" false []; Node "type_identifier" true []; Node ";" false []];
      Node "expression_statement" true
        [Node "identifier" true []; Node ";" false []] ].

(** The statement [if a > b { g(); }], the snippet made of it alone, and
    a file with a function that holds it. *)
Definition if_statement : node :=
  Node "expression_statement" true
    [ Node "if_expression" true
        [ Node "if" false [];
          Node "binary_expression" true
            [Node "identifier" true []; Node ">" false []; Node "identifier" true []];
          Node "block" true
            [ Node "{" false [];
              Node "expression_statement" true
                [ Node "call_expression" true
                    [Node "identifier" true []; Node "arguments" true []];
                  Node ";" false [] ];
              Node "}" false [] ] ] ].

Definition if_snippet : node := Node "source_file" true [if_statement].

Definition holder : node :=
  Node "source_file" true
    [ Node "function_item" true
        [ Node "fn" false [];
          Node "identifier" true [];
          Node "parameters" true [];
          Node "block" true
            [ Node "{" false [];
              Node "let_declaration" true
                [Node "identifier" true []; Node "integer_literal" true []];
              if_statement;
              Node "}" false [] ] ] ].

(** A parser for the two texts above. *)
Definition sample_parse (code : string) : node :=
  if String.eqb code "if a > b { g(); }" then if_snippet else holder.

End Ast.

(** ** Paths that the record file of the coverage sweep gives back *)

Module Record.
Import PyStr.

(** No LF and no CR: the characters at which a text-mode file object
    ends a line. *)
Definition no_newline (p : string) : Prop :=
  forallb (fun c => negb (Ascii.eqb c "010" || Ascii.eqb c "013"))
          (list_ascii_of_string p) = true.

(** A path that [line.strip()] gives back as [record_f.write] took it. *)
Definition record_safe (p : string) : Prop :=
  strip p = p /\ no_newline p.

End Record.

(** ** Node types as the grammar has them *)

Module Grammar.
Import PyStr.

(** A text without white space: the type names of a tree-sitter grammar
    are such. *)
Definition spaceless (s : string) : Prop :=
  forallb (fun a => negb (is_space a)) (list_ascii_of_string s) = true.

End Grammar.

(** ** The directory check: src/tools/detect.py *)

Module Detect.
Import PyStr PyPath Runner.

Definition BATCH_SIZE : Z := 50.

(** The lines the function prints, without their wording. *)
Inductive event :=
| DirMissing
| Checking (idx total : Z) (rel_path : string)
| IceDetected (rel_path : string)
| SaveFailed (e : string)
| Summary (processed ice_found : Z).

(** What the function cannot control: the toolchain, whether and where
    saving a report raises, and the text of each source file. *)
Record env := {
  rustc : toolchain;
  save_error : string -> option (Sweep.save_stage * string);
  source : string -> string
}.

(** [compile_and_check], the inner function. *)
Definition compile_and_check (rustc : toolchain) (rs_file : string) : bool * string :=
  match rustc rs_file with
  | Completed _ stdout stderr =>
      let output := or_empty stderr +:+ or_empty stdout in
      (contains "internal compiler error" output ||
       contains "thread 'rustc' panicked at" output ||
       contains "Box<Any>" output ||
       contains "delay_span_bug" output ||
       contains "query stack during panic" output,
       output)
  | TimeoutExpired => (false, "Timeout")
  | Raised e => (false, "Script Error: " +:+ e)
  end.

(** [save_ice], the inner function: the source copied under its relative
    path, the log written beside it under the stem of the name. *)
Definition save_ice (e : env) (rel_path error_log : string)
  (dir : gmap string string) : bool * gmap string string * list event :=
  match save_error e rel_path with
  | None =>
      (true,
       <[ head_part rel_path +:+ stem (name_part rel_path) +:+ ".err.log"
          := error_log ]>
         (<[ rel_path := source e rel_path ]> dir),
       [])
  | Some (Sweep.BeforeCopy, err) => (false, dir, [SaveFailed err])
  | Some (Sweep.BeforeLog, err) =>
      (false, <[ rel_path := source e rel_path ]> dir, [SaveFailed err])
  end.

(** The variables of the loop; [ice_dir] holds the files under the
    output directory by their paths relative to it, and [flushes] counts
    the calls of [sys.stdout.flush]. *)
Record state := {
  ice_found_count : Z;
  processed_count : Z;
  flushes : Z;
  ice_dir : gmap string string;
  stdout : list event
}.

(** One pass of the [for] loop (lines 93-104). *)
Definition iteration (e : env) (total idx : Z) (rs_file : string) (st : state)
  : state :=
  let out1 := stdout st ++ [Checking idx total rs_file] in
  let '(is_ice, error_msg) := compile_and_check (rustc e) rs_file in
  let '(found, dir, out2) :=
    if is_ice then
      let '(saved, dir, out) := save_ice e rs_file error_msg (ice_dir st) in
      (if saved then (ice_found_count st + 1)%Z else ice_found_count st,
       dir, out1 ++ [IceDetected rs_file] ++ out)
    else (ice_found_count st, ice_dir st, out1) in
  let processed := (processed_count st + 1)%Z in
  {| ice_found_count := found;
     processed_count := processed;
     flushes := if (processed mod BATCH_SIZE =? 0)%Z
                then (flushes st + 1)%Z else flushes st;
     ice_dir := dir;
     stdout := out2 |}.

Fixpoint loop (e : env) (total idx : Z) (files : list string) (st : state)
  : state :=
  match files with
  | [] => st
  | rs_file :: rest => loop e total (idx + 1) rest (iteration e total idx rs_file st)
  end.



End Detect.

(** ** The minimisation cycle of the agent: src/agent/graph.py and
  src/agent/nodes.py *)

Module Agent.
Import PyStr Runner.

(** The entries of [logs] and of [failed_attempts], without their
    wording. *)
Inductive log :=
| Initialized (commit : string)
| Iter (n : Z) (summary : string)
| VerificationPassed (reduction_count : Z) (success_diff : string)
| SimplificationFailed (diff : string)
| VerificationNoDiff.

(** The keys of [AgentState] that the cycle reads or writes.  [status]
    is absent until a verification sets it. *)
Record AgentState := {
  original_code : string;
  current_code : string;
  best_code : string;
  failed_attempts : list log;
  iteration : Z;
  consecutive_failure_count : Z;
  status : option string;
  logs : list log
}.

(** What [subprocess.run(cmd, capture_output=True, text=True)] does in
    [run_compiler]: the process exits, or it cannot be started. *)
Inductive process :=
| Exited (stdout stderr : string)
| SpawnFailed (e : string).

(** What the nodes cannot control: the answer of the model to the call
    with the given number ([inl] for an exception), the compiler on the
    text written to [output/tmp.rs], and the text that
    [difflib.unified_diff] makes of two codes, headers removed
    ([get_concise_diff] of src/tools/diff.py). *)
Record env := {
  llm : nat -> string + string;
  rustc : string -> process;
  get_concise_diff : string -> string -> string
}.

(** [run_compiler] of src/tools/compiler.py. *)
Definition run_compiler (e : env) (code : string) : string + string :=
  match rustc e code with
  | Exited stdout stderr => inr (stderr +:+ stdout)
  | SpawnFailed err => inl err
  end.

(** [s.partition(sub)]: what stands before and after the first
    occurrence of [sub], when there is one. *)
Fixpoint partition (sub s : string) : option (string * string) :=
  if startswith sub s
  then Some (EmptyString, substring (String.length sub)
                                    (String.length s - String.length sub) s)
  else match s with
       | EmptyString => None
       | String c s' =>
           match partition sub s' with
           | Some (before, after) => Some (String c before, after)
           | None => None
           end
       end.

(** [re.search(FENCE rust (.*?) FENCE, content, re.DOTALL)], group 1:
    the text between the first opening fence and the first fence behind
    it. *)
Definition rust_block (content : string) : option string :=
  match partition "```rust" content with
  | Some (_, rest) =>
      match partition "```" rest with
      | Some (body, _) => Some body
      | None => None
      end
  | None => None
  end.

(** [content.split(NEWLINE)[0]]. *)
Fixpoint first_line (s : string) : string :=
  match s with
  | EmptyString => EmptyString
  | String c s' => if Ascii.eqb c "010" then EmptyString else String c (first_line s')
  end.

(** [minifier_node], its update merged into the state: [logs] is
    extended, the other keys are overwritten. *)
Definition minifier_node (e : env) (call : nat) (state : AgentState)
  : string + AgentState :=
  let current_best := best_code state in
  match llm e call with
  | inl err => inl err
  | inr content =>
      let new_code :=
        match rust_block content with
        | Some body => strip body
        | None => current_best
        end in
      let summary := strip (first_line content) in
      inr {| original_code := original_code state;
             current_code := new_code;
             best_code := best_code state;
             failed_attempts := failed_attempts state;
             iteration := (iteration state + 1)%Z;
             consecutive_failure_count := consecutive_failure_count state;
             status := status state;
             logs := logs state ++ [Iter (iteration state + 1) summary] |}
  end.

(** [verification_node], its update merged into the state:
    [failed_attempts] and [logs] are extended. *)
Definition verification_node (e : env) (state : AgentState)
  : string + AgentState :=
  let code := current_code state in
  match run_compiler e code with
  | inl err => inl err
  | inr output =>
      if check_is_ice output then
        let reduction_count :=
          (Z.of_nat (String.length (best_code state))
           - Z.of_nat (String.length code))%Z in
        let success_diff := get_concise_diff e (best_code state) code in
        inr {| original_code := original_code state;
               current_code := current_code state;
               best_code := code;
               failed_attempts := failed_attempts state;
               iteration := iteration state;
               consecutive_failure_count := 0;
               status := Some "success";
               logs := logs state ++ [VerificationPassed reduction_count success_diff] |}
      else
        let diff := get_concise_diff e (best_code state) code in
        if truthy (strip diff) then
          inr {| original_code := original_code state;
                 current_code := current_code state;
                 best_code := best_code state;
                 failed_attempts := failed_attempts state ++ [SimplificationFailed diff];
                 iteration := iteration state;
                 consecutive_failure_count := (consecutive_failure_count state + 1)%Z;
                 status := Some "failure";
                 logs := logs state ++ [SimplificationFailed diff] |}
        else
          inr {| original_code := original_code state;
                 current_code := current_code state;
                 best_code := best_code state;
                 failed_attempts := failed_attempts state;
                 iteration := iteration state;
                 consecutive_failure_count := consecutive_failure_count state;
                 status := Some "failed";
                 logs := logs state ++ [VerificationNoDiff] |}
  end.

(** [router] of src/agent/graph.py. *)
Definition router (state : AgentState) : string :=
  if (10 <=? consecutive_failure_count state)%Z || (20 <=? iteration state)%Z
  then "reasoner" else "minify".

(** The state that [parse_input_node] leaves for the trigger code and the
    commit of the input document. *)
Definition parsed (code commit : string) : AgentState :=
  {| original_code := code;
     current_code := code;
     best_code := code;
     failed_attempts := [];
     iteration := 0;
     consecutive_failure_count := 0;
     status := None;
     logs := [Initialized commit] |}.

(** Where the cycle of the graph (minify, verify, and back to minify as
    long as the router says so) ends: at the reasoner, with an exception
    of a node, or not within the rounds given. *)
Inductive outcome :=
| Reasoner (state : AgentState)
| Aborted (e : string) (state : AgentState)
| Unfinished (state : AgentState).

Fixpoint cycle (e : env) (rounds : nat) (call : nat) (state : AgentState)
  : outcome :=
  match rounds with
  | O => Unfinished state
  | S rounds' =>
      match minifier_node e call state with
      | inl err => Aborted err state
      | inr state1 =>
          match verification_node e state1 with
          | inl err => Aborted err state1
          | inr state2 =>
              if String.eqb (router state2) "reasoner" then Reasoner state2
              else cycle e rounds' (S call) state2
          end
      end
  end.

Definition state_of (o : outcome) : AgentState :=
  match o with
  | Reasoner s | Aborted _ s | Unfinished s => s
  end.

End Agent.

(** ** The filter and the detector of the agent: src/agent/nodes.py *)

Module Nodes.
Import PyStr PyPath Runner.
Local Open Scope R_scope.

(** [os.path.join(a, b)] of posixpath. *)
Definition path_join (a b : string) : string :=
  if startswith "/" b then b
  else if negb (truthy a) || endswith "/" a then a +:+ b
  else a +:+ "/" +:+ b.

Definition INPUT_DIR : string := "../rust/tests/ui".

(** [os.path.join(OUTPUT, state[ISSUE_ID], name)]. *)
Definition issue_dir (issue_id name : string) : string :=
  path_join (path_join "output" issue_id) name.

(** A call either returns or lets an exception escape; both carry what
    was reached. *)
Inductive outcome (A : Type) :=
| Returns (a : A)
| Raises (e : string) (a : A).
Arguments Returns {A} a.
Arguments Raises {A} e a.

Definition reached {A} (o : outcome A) : A :=
  match o with
  | Returns a => a
  | Raises _ a => a
  end.

(** *** [filter_node] *)

Inductive filter_event :=
| ReadFailed (file_path e : string)
| Matched (file_path save_path : string)
| NoMatch (file_path : string).

(** What the node cannot control: the parser, and the text of each test
    file ([inl] when opening or decoding it raises). *)
Record filter_env := {
  parse : string -> Ast.node;
  read : string -> string + string
}.

(** The snippet taken from the answer of the reasoner: the text of its
    first fenced Rust block, or the empty text. *)
Definition defect_code_of (defect_prone : option string) : string :=
  let defect_prone_info :=
    match defect_prone with
    | Some info => info
    | None => "No defect-prone pattern identified."
    end in
  match Agent.rust_block defect_prone_info with
  | Some body => strip body
  | None => EmptyString
  end.

(** The walk over the test files; [walked] lists the files that
    [os.walk(input_dir)] visits, each with its name and its path relative
    to [input_dir]. *)
Fixpoint filter_loop (e : filter_env) (defect_code output_dir : string)
  (walked : list (string * string)) (fs : Fs.filesystem)
  (out : list filter_event) : outcome (Fs.filesystem * list filter_event) :=
  match walked with
  | [] => Returns (fs, out)
  | (file_name, rel_path) :: rest =>
      if endswith ".rs" file_name then
        let file_path := path_join INPUT_DIR rel_path in
        match read e file_path with
        | inl err =>
            filter_loop e defect_code output_dir rest fs
                        (out ++ [ReadFailed file_path err])
        | inr code =>
            let save_path := path_join output_dir rel_path in
            match Ast.match_and_save (parse e) defect_code code save_path (6 / 10) fs with
            | (Ast.Returned true, fs') =>
                filter_loop e defect_code output_dir rest fs'
                            (out ++ [Matched file_path save_path])
            | (Ast.Returned false, fs') =>
                filter_loop e defect_code output_dir rest fs'
                            (out ++ [NoMatch file_path])
            | (Ast.Raised err, fs') => Raises err (fs', out)
            end
        end
      else filter_loop e defect_code output_dir rest fs out
  end.

Definition filter_node (e : filter_env) (defect_prone : option string)
  (issue_id : string) (walked : list (string * string)) (fs : Fs.filesystem)
  : outcome (Fs.filesystem * list filter_event) :=
  filter_loop e (defect_code_of defect_prone)
              (issue_dir issue_id "matched_cases") walked fs [].

(** *** [detector_node] *)

Inductive detector_event :=
| Compiling (file_path : string)
| IceDetected (file output_dir : string).

(** What the node cannot control: the compiler on each file, whether
    copying a file raises, and the text of each file. *)
Record detector_env := {
  rustc : string -> Agent.process;
  copy_error : string -> option string;
  source : string -> string
}.

(** [compile_rust_file], the inner function. *)
Definition compile_rust_file (e : detector_env) (file_path : string) : string :=
  match rustc e file_path with
  | Agent.Exited stdout stderr => stdout +:+ String "010" EmptyString +:+ stderr
  | Agent.SpawnFailed err => err
  end.

(** The walk over the mutated cases; [ice] holds the files of the output
    directory by their names ([shutil.copy(file_path, output_dir)] puts
    the copy under the name of the file).  [walked] lists each file with
    its name and the directory that holds it. *)
Fixpoint detector_loop (e : detector_env) (output_dir : string)
  (walked : list (string * string)) (ice : gmap string string)
  (out : list detector_event) : outcome (gmap string string * list detector_event) :=
  match walked with
  | [] => Returns (ice, out)
  | (file, root) :: rest =>
      if endswith ".rs" file then
        let file_path := path_join root file in
        let out := out ++ [Compiling file_path] in
        let output := compile_rust_file e file_path in
        if check_is_ice output then
          let out := out ++ [IceDetected file output_dir] in
          match copy_error e file_path with
          | Some err => Raises err (ice, out)
          | None =>
              detector_loop e output_dir rest
                            (<[ file := source e file_path ]> ice) out
          end
        else detector_loop e output_dir rest ice out
      else detector_loop e output_dir rest ice out
  end.

Definition detector_node (e : detector_env) (walked : list (string * string))
  (ice : gmap string string)
  : outcome (gmap string string * list detector_event) :=
  detector_loop e (path_join "pending_review" "ice") walked ice [].

End Nodes.
(** * Properties *)

(** ** Python string primitives *)

Example splitlines_ex1 :
PyStr.splitlines ("a.rs" +:+ String "010" (String "010" ("b.rs" +:+ String "013" (String "010" "c"))))
= ["a.rs"; EmptyString; "b.rs"; "c"].
Proof. reflexivity. Qed.

Example splitlines_ex2 : PyStr.splitlines (String "010" EmptyString) = [EmptyString].
Proof. reflexivity. Qed.

Example strip_ex : PyStr.strip "  a b.rs  " = "a b.rs".
Proof. reflexivity. Qed.

Example lower_ex : PyStr.lower "Box<Any> ICE" = "box<any> ice".
Proof. reflexivity. Qed.

Example contains_ex : PyStr.contains "panicked" "thread 'rustc' panicked at" = true.
Proof. reflexivity. Qed.


Section PyStrFacts.
Import PyStr.

Lemma startswith_lower (p s : string) :
  startswith p s = true -> startswith (lower p) (lower s) = true.
Proof.
  revert s. induction p as [|a p IH]; intros [|b s]; simpl; try done.
  intros H. apply andb_prop in H as [Hab Hps].
  apply Ascii.eqb_eq in Hab. subst b.
  rewrite Ascii.eqb_refl. simpl. by apply IH.
Qed.

Lemma contains_lower (sub s : string) :
  contains sub s = true -> contains (lower sub) (lower s) = true.
Proof.
  induction s as [|c s IH]; cbn [contains lower]; intros H;
    apply orb_prop in H as [H|H]; try done.
  - apply (startswith_lower sub EmptyString) in H. cbn [lower] in H.
    by rewrite H.
  - apply (startswith_lower sub (String c s)) in H. cbn [lower] in H.
    by rewrite H.
  - rewrite (IH H). apply orb_true_r.
Qed.

Lemma append_nil (s : string) : EmptyString +:+ s = s.
Proof. reflexivity. Qed.

Lemma append_cons (c : ascii) (a s : string) :
  String c a +:+ s = String c (a +:+ s).
Proof. reflexivity. Qed.

Lemma append_nil_r (s : string) : s +:+ EmptyString = s.
Proof. induction s as [|c s IH]; [done|]. by rewrite append_cons, IH. Qed.

Lemma append_assoc (a b c : string) : (a +:+ b) +:+ c = a +:+ b +:+ c.
Proof.
  induction a as [|x a IH]; [done|]. by rewrite !append_cons, IH.
Qed.

Lemma startswith_app (p s : string) : startswith p (p +:+ s) = true.
Proof.
  induction p as [|a p IH]; [done|].
  rewrite append_cons. cbn [startswith]. by rewrite Ascii.eqb_refl.
Qed.

Lemma contains_startswith (sub s : string) :
  startswith sub s = true -> contains sub s = true.
Proof. intros H. destruct s; cbn [contains]; by rewrite H. Qed.

Lemma contains_app (sub a b : string) : contains sub (a +:+ sub +:+ b) = true.
Proof.
  induction a as [|c a IH].
  - rewrite append_nil. apply contains_startswith, startswith_app.
  - rewrite append_cons. cbn [contains]. rewrite IH. apply orb_true_r.
Qed.

Lemma lower_app (a b : string) : lower (a +:+ b) = lower a +:+ lower b.
Proof.
  induction a as [|c a IH]; [done|].
  rewrite append_cons. cbn [lower]. by rewrite append_cons, IH.
Qed.

End PyStrFacts.

(** ** The runner *)

Section RunnerFacts.
Import PyStr Runner.

(** The [or] chain of [check_ice] is a search through the signatures. *)
Lemma is_ice_output_signatures (output : string) :
  is_ice_output output = existsb (fun k => contains k output) ICE_SIGNATURES.
Proof.
  unfold is_ice_output, ICE_SIGNATURES. simpl.
  repeat match goal with |- context [contains ?k output] =>
    destruct (contains k output); simpl; try reflexivity end.
Qed.

Lemma check_ice_result_text (r : run_result) :
  snd (check_ice_result r) = output_of r.
Proof. by destruct r. Qed.

(** The exit code plays no part in the result. *)
Lemma check_ice_ignores_returncode (rc rc' : Z) (stdout stderr : option string) :
  check_ice_result (Completed rc stdout stderr)
  = check_ice_result (Completed rc' stdout stderr).
Proof. reflexivity. Qed.

(** [check_is_ice] of compiler.py finds a keyword written in any letter
    case. *)
Lemma check_is_ice_any_case (output variant k : string) :
  In k keywords -> lower variant = lower k ->
  contains variant output = true -> check_is_ice output = true.
Proof.
  intros Hk Hv Hc. unfold check_is_ice.
  apply existsb_exists. exists k. split; [done|].
  rewrite <- Hv. by apply contains_lower.
Qed.

Lemma no_signature_any_case (output : string) :
  existsb (fun k => contains (lower k) (lower output)) ICE_SIGNATURES = false ->
  is_ice_output output = false.
Proof.
  intros H. rewrite is_ice_output_signatures.
  apply not_true_is_false. intros Hex.
  apply existsb_exists in Hex as (k & Hk & Hc).
  apply contains_lower in Hc.
  assert (existsb (fun k => contains (lower k) (lower output)) ICE_SIGNATURES = true)
    as Habs by (apply existsb_exists; eauto).
  congruence.
Qed.

(** C2, as the code has it: [check_ice] answers with the pair
    (is_ice, text).  For a run that the policy of section 4.1 puts in
    class [c], where for the class InternalCompilerError a signature
    stands in the output exactly as the list spells it, is_ice is [True]
    when [c] is InternalCompilerError and [False] for Success,
    CompileError and Timeout alike; the text is the combined output, or
    the word Timeout.  The exit code plays no part. *)
Theorem check_ice_classification (r : run_result) (c : classification) :
  spec_compile ICE_SIGNATURES r = Some c ->
  (c = InternalCompilerError ->
   exists k, In k ICE_SIGNATURES /\ contains k (output_of r) = true) ->
  check_ice_result r = (is_ice_class c, output_of r) /\
  (forall rc rc' stdout stderr,
      r = Completed rc stdout stderr ->
      check_ice_result (Completed rc' stdout stderr) = check_ice_result r).
Proof.
  intros Hspec Hsig. split; [|by intros; subst].
  destruct r as [rc stdout stderr| |e];
    unfold spec_compile in Hspec; unfold check_ice_result, output_of in *;
    cbv beta iota zeta in *.
  - destruct (existsb _ ICE_SIGNATURES) eqn:Hci.
    + injection Hspec as <-. destruct (Hsig eq_refl) as (k & Hk & Hc).
      unfold is_ice_class. f_equal. rewrite is_ice_output_signatures.
      apply existsb_exists. eauto.
    + rewrite (no_signature_any_case _ Hci).
      by destruct (rc =? 0)%Z; injection Hspec as <-.
  - by injection Hspec as <-.
  - done.
Qed.

Lemma check_ice_classification_witness :
  check_ice_result
    (Completed 101 None (Some "error: internal compiler error: unexpected panic"))
  = (true, "error: internal compiler error: unexpected panic").
Proof.
  apply (check_ice_classification
           (Completed 101 None (Some "error: internal compiler error: unexpected panic"))
           InternalCompilerError).
  - reflexivity.
  - intros _. exists "internal compiler error". split; [by left | reflexivity].
Defined.

(** C2, as stated, asks for a result that tells Success from
    CompileError.  No reading of what [check_ice] returns can do that: a
    run that exits with 0 and a run that exits with 1, both silent, give
    the same pair. *)
Lemma check_ice_result_has_no_exit_class :
  ~ exists decode : bool * string -> classification,
      forall r c, spec_compile ICE_SIGNATURES r = Some c ->
                  decode (check_ice_result r) = c.
Proof.
  intros [decode H].
  pose proof (H (Completed 0 None None) Success eq_refl) as H0.
  pose proof (H (Completed 1 None None) CompileError eq_refl) as H1.
  cbn in H0, H1. congruence.
Qed.

(** C3: an output that spells a signature in capitals is not reported by
    [check_ice], whose tests compare the text as it is, while
    [check_is_ice] of compiler.py, which lowers the text first, reports
    it. *)
Theorem check_ice_misses_capitals :
  let output := "error: INTERNAL COMPILER ERROR: unexpected panic" in
  contains (lower "internal compiler error") (lower output) = true /\
  check_ice_result (Completed 101 None (Some output)) = (false, output) /\
  check_is_ice output = true.
Proof. cbv zeta. repeat split; reflexivity. Qed.

(** C8, as stated, wants a spawn failure kept apart from every normal
    result.  [check_ice] turns it into the pair a completed run with the
    same text on its output gives. *)
Lemma spawn_failure_not_distinct :
  ~ (forall e r, (forall m, r <> Raised m) ->
                 check_ice_result (Raised e) <> check_ice_result r).
Proof.
  intros H.
  apply (H "No such file" (Completed 0 (Some "Script Error: No such file") None));
    [done | reflexivity].
Qed.

End RunnerFacts.

(** ** Reading the ledger back *)

Section StripFacts.
Import PyStr.

Lemma lstrip_starts_clean (s : string) : starts_clean (lstrip s).
Proof.
  induction s as [|c s IH]; cbn [lstrip]; [done|].
  destruct (is_space c) eqn:E; [done|]. exact E.
Qed.

Lemma lstrip_clean (s : string) : starts_clean s -> lstrip s = s.
Proof. destruct s as [|c s]; cbn; [done|]. by intros ->. Qed.

Lemma rstrip_starts_clean (s : string) :
  starts_clean s -> starts_clean (rstrip s).
Proof.
  destruct s as [|c s]; cbn [rstrip starts_clean]; [done|].
  intros E. destruct (rstrip s); [by rewrite E|done].
Qed.

Lemma rstrip_idem (s : string) : rstrip (rstrip s) = rstrip s.
Proof.
  induction s as [|c s IH]; [done|].
  cbn [rstrip]. destruct (rstrip s) as [|d r] eqn:E.
  - destruct (is_space c) eqn:Ec; [done|]. cbn [rstrip]. by rewrite Ec.
  - cbn [rstrip]. cbn [rstrip] in IH. by rewrite IH.
Qed.

Lemma strip_idem (s : string) : strip (strip s) = strip s.
Proof.
  unfold strip.
  rewrite (lstrip_clean (rstrip (lstrip s))).
  - apply rstrip_idem.
  - apply rstrip_starts_clean, lstrip_starts_clean.
Qed.

Lemma truthy_true (s : string) : truthy s = true <-> s <> EmptyString.
Proof. by destruct s. Qed.

End StripFacts.

Section LedgerFacts.
Import PyStr Runner Sweep.

Lemma splitlines_from_line (cur p rest : string) :
  no_linebreak p ->
  splitlines_from cur (p +:+ NL +:+ rest)
  = (cur +:+ p) :: splitlines_from EmptyString rest.
Proof.
  unfold no_linebreak. revert cur.
  induction p as [|c p IH]; intros cur H.
  - rewrite append_nil, append_nil_r. unfold NL.
    rewrite append_cons, append_nil. reflexivity.
  - cbn [list_ascii_of_string forallb] in H.
    apply andb_prop in H as [Hc Hp]. apply negb_true_iff in Hc.
    rewrite append_cons. cbn [splitlines_from]. rewrite Hc.
    rewrite (IH _ Hp), append_assoc. reflexivity.
Qed.

Lemma splitlines_ledger_text (ps : list string) :
  Forall no_linebreak ps -> splitlines (ledger_text ps) = ps.
Proof.
  unfold splitlines. induction 1 as [|p ps Hp _ IH]; [done|].
  cbn [ledger_text]. by rewrite splitlines_from_line, append_nil, IH.
Qed.

Lemma ledger_text_app (a b : list string) :
  ledger_text (a ++ b) = ledger_text a +:+ ledger_text b.
Proof.
  induction a as [|p a IH]; [done|].
  cbn [ledger_text app]. by rewrite IH, !append_assoc.
Qed.

Lemma ledger_safe_no_linebreak (p : string) : ledger_safe p -> no_linebreak p.
Proof. by intros (_ & _ & H). Qed.

Lemma filter_strip_safe (ps : list string) :
  Forall ledger_safe ps -> List.filter truthy (List.map strip ps) = ps.
Proof.
  induction 1 as [|p ps (Hne & Hs & _) _ IH]; [done|].
  cbn [List.map List.filter]. rewrite Hs, IH.
  by apply truthy_true in Hne as ->.
Qed.

(** A ledger that holds safe paths is read back as the set of them. *)
Lemma load_ledger_text (ps : list string) :
  Forall ledger_safe ps ->
  fst (load_checked_files (Present (ledger_text ps)) None) = list_to_set ps.
Proof.
  intros H. cbn [load_checked_files fst].
  rewrite splitlines_ledger_text, filter_strip_safe; [done..|].
  eapply Forall_impl; [exact H|]. apply ledger_safe_no_linebreak.
Qed.

End LedgerFacts.

(** ** The sweep of detect.py *)

Section SweepFacts.
Import PyStr Runner Sweep.

Ltac open_check e rel :=
  unfold iteration_check;
  destruct (check_ice (rustc e) rel) as [[|] ?];
  [unfold save_ice_report; destruct (save_error e rel) as [[[|] ?]|]|];
  try reflexivity.

Lemma iteration_check_frame (e : env) (total idx : Z) (rel : string) (st : state) :
  let st' := iteration_check e total idx rel st in
  log_f st' = log_f st /\ processed_count st' = processed_count st /\
  skipped_count st' = skipped_count st /\ flushes st' = flushes st /\
  checked_units st' = checked_units st ++ [rel].
Proof. cbv zeta. open_check e rel; done. Qed.

(** A unit that is not in the loaded set is written to the ledger and
    counted, whatever the runner made of it. *)
Lemma iteration_records (e : env) (checked : gset string) (total idx : Z)
  (rel : string) (st : state) :
  rel ∉ checked ->
  let st' := iteration e checked total idx rel st in
  log_f st' = log_f st +:+ rel +:+ NL /\
  processed_count st' = (processed_count st + 1)%Z /\
  skipped_count st' = skipped_count st /\
  checked_units st' = checked_units st ++ [rel].
Proof.
  intros Hnot. cbv zeta. unfold iteration.
  destruct (decide (rel ∈ checked)) as [|_]; [done|].
  destruct (iteration_check_frame e total idx rel st) as (Hl & Hp & Hs & _ & Hc).
  unfold iteration_record. cbn. by rewrite Hl, Hp, Hs, Hc.
Qed.

(** A unit that is in the loaded set is passed over. *)
Lemma iteration_skips (e : env) (checked : gset string) (total idx : Z)
  (rel : string) (st : state) :
  rel ∈ checked ->
  let st' := iteration e checked total idx rel st in
  log_f st' = log_f st /\
  processed_count st' = processed_count st /\
  skipped_count st' = (skipped_count st + 1)%Z /\
  checked_units st' = checked_units st /\ ice_dir st' = ice_dir st.
Proof.
  intros Hin. cbv zeta. unfold iteration.
  by destruct (decide (rel ∈ checked)).
Qed.

Lemma unprocessed_cons (checked : gset string) (f : string) (files : list string) :
  unprocessed checked (f :: files)
  = if decide (f ∈ checked) then unprocessed checked files
    else f :: unprocessed checked files.
Proof.
  unfold unprocessed. cbn [List.filter].
  destruct (decide (f ∈ checked)) as [Hin|Hnot].
  - by rewrite (bool_decide_eq_true_2 _ Hin).
  - by rewrite (bool_decide_eq_false_2 _ Hnot).
Qed.

Lemma loop_effect (e : env) (checked : gset string) (total : Z)
  (files : list string) (idx : Z) (st : state) :
  let st' := loop e checked total idx files st in
  log_f st' = log_f st +:+ ledger_text (unprocessed checked files) /\
  checked_units st' = checked_units st ++ unprocessed checked files /\
  processed_count st'
  = (processed_count st + Z.of_nat (length (unprocessed checked files)))%Z /\
  skipped_count st'
  = (skipped_count st + Z.of_nat (length files)
     - Z.of_nat (length (unprocessed checked files)))%Z.
Proof.
  cbv zeta. revert idx st.
  induction files as [|f files IH]; intros idx st.
  - cbn. rewrite append_nil_r, app_nil_r. repeat split; lia.
  - cbn [loop]. destruct (IH (idx + 1)%Z (iteration e checked total idx f st))
      as (Hl & Hc & Hp & Hs).
    rewrite Hl, Hc, Hp, Hs, unprocessed_cons.
    destruct (decide (f ∈ checked)) as [Hin|Hnot].
    + destruct (iteration_skips e checked total idx f st Hin)
        as (-> & -> & -> & -> & _).
      cbn [length]. repeat split; lia.
    + destruct (iteration_records e checked total idx f st Hnot)
        as (-> & -> & -> & ->).
      cbn [ledger_text length]. rewrite <- !app_assoc, !append_assoc.
      repeat split; try done; lia.
Qed.

Ltac use_loop_effect :=
  match goal with |- context [loop ?e ?c ?t ?i ?f ?s] =>
    let H := fresh "Hloop" in
    pose proof (loop_effect e c t f i s) as H; cbv zeta in H;
    rewrite ?(proj1 H), ?(proj1 (proj2 H)), ?(proj1 (proj2 (proj2 H))),
            ?(proj2 (proj2 (proj2 H)));
    clear H end.

Lemma main_log (e : env) (log_file : disk_file) (all_files : list string)
  (stop : interruption) :
  log_f (main e log_file all_files stop)
  = text_of log_file +:+
    ledger_text (unprocessed (fst (load_checked_files log_file (read_error e)))
                             (attempted stop all_files)).
Proof.
  unfold main. destruct (load_checked_files log_file (read_error e)) as [chk w].
  cbn [fst]. destruct stop as [|k|k]; cbn [attempted].
  - unfold print; cbn [log_f]. by use_loop_effect.
  - by use_loop_effect.
  - destruct (all_files !! k) as [f|]; [destruct (decide (f ∈ chk))|];
      try (match goal with |- context [iteration_check ?e ?t ?i ?f ?s] =>
             destruct (iteration_check_frame e t i f s) as (-> & _) end);
      by use_loop_effect.
Qed.

Lemma loop_stdout_mono (e : env) (chk : gset string) (total : Z)
  (files : list string) (idx : Z) (st : state) (x : event) :
  In x (stdout st) -> In x (stdout (loop e chk total idx files st)).
Proof.
  revert idx st. induction files as [|f fs IH]; intros i s0 H0; [done|].
  cbn [loop]. apply IH. unfold iteration.
  destruct (decide (f ∈ chk)); [done|].
  unfold iteration_record. cbn [stdout].
  unfold iteration_check.
  destruct (check_ice (rustc e) f) as [[|] ?];
    [unfold save_ice_report; destruct (save_error e f) as [[[|] ?]|]|];
    cbn [stdout]; repeat (apply in_or_app; left); done.
Qed.

Lemma main_uninterrupted (e : env) (log_file : disk_file) (all_files : list string) :
  let chk := fst (load_checked_files log_file (read_error e)) in
  let st := main e log_file all_files Uninterrupted in
  checked_units st = unprocessed chk all_files /\
  processed_count st = Z.of_nat (length (unprocessed chk all_files)) /\
  skipped_count st
  = (Z.of_nat (length all_files) - Z.of_nat (length (unprocessed chk all_files)))%Z /\
  stdout st <> [] /\
  (forall w, In w (snd (load_checked_files log_file (read_error e))) ->
             In w (stdout st)).
Proof.
  cbv zeta. unfold main.
  destruct (load_checked_files log_file (read_error e)) as [chk w].
  cbn [fst snd]. unfold print.
  cbn [checked_units processed_count skipped_count stdout].
  repeat split.
  - by use_loop_effect.
  - use_loop_effect. cbn. lia.
  - use_loop_effect. cbn. lia.
  - intros H. by apply app_eq_nil in H as [_ ?].
  - intros x Hx. apply in_or_app. left.
    apply loop_stdout_mono. cbn [stdout]. apply in_or_app. by left.
Qed.

Lemma unprocessed_empty (files : list string) : unprocessed ∅ files = files.
Proof.
  unfold unprocessed. induction files as [|f files IH]; [done|].
  cbn [List.filter]. rewrite bool_decide_eq_false_2 by set_solver.
  cbn. by rewrite IH.
Qed.

Lemma in_unprocessed (chk : gset string) (files : list string) (p : string) :
  In p (unprocessed chk files) <-> In p files /\ p ∉ chk.
Proof.
  unfold unprocessed. rewrite filter_In, negb_true_iff, bool_decide_eq_false.
  done.
Qed.

Lemma loaded_entries (text entry : string) :
  entry ∈ fst (load_checked_files (Present text) None) <->
  exists line, In line (splitlines text) /\ strip line = entry /\
               entry <> EmptyString.
Proof.
  cbn [load_checked_files fst].
  rewrite elem_of_list_to_set, list_elem_of_In, filter_In, in_map_iff, truthy_true.
  split.
  - intros [(line & Hs & Hl) Hne]. by exists line.
  - intros (line & Hl & Hs & Hne). split; [by exists line | done].
Qed.

(** C10, as the code has it.  When the ledger file is there and reading
    it raises, the set loaded is empty and a warning is printed.  When
    the ledger can then be opened for appending, the run goes on, hands
    every unit of the tree to the runner, skips none and writes each to
    the ledger.  When opening it for appending raises as well, that
    exception leaves [main] once the warning and the two counts are
    printed: no unit was handed to the runner and the ledger is as it
    was.  What a readable ledger gives is never empty and has no white
    space at either end. *)
Theorem ledger_read_failure_reprocesses (e : env) (text err : string)
  (all_files : list string) :
  read_error e = Some err ->
  load_checked_files (Present text) (read_error e) = (∅, [WarnReadFailed err]) /\
  (exists st,
      SweepOpen.main e None (Present text) all_files Uninterrupted
      = SweepOpen.Returns st /\
      In (WarnReadFailed err) (stdout st) /\
      checked_units st = all_files /\
      skipped_count st = 0%Z /\
      processed_count st = Z.of_nat (length all_files) /\
      log_f st = text +:+ ledger_text all_files) /\
  (forall open_err stop,
      SweepOpen.main e (Some open_err) (Present text) all_files stop
      = SweepOpen.Raises open_err
          {| log_f := text;
             flushes := 0;
             processed_count := 0;
             skipped_count := 0;
             ice_found_count := 0;
             ice_dir := ∅;
             checked_units := [];
             stdout := [WarnReadFailed err; HistoryCount 0;
                        TotalFiles (Z.of_nat (length all_files))] |}) /\
  (forall text' entry,
      entry ∈ fst (load_checked_files (Present text') None) ->
      entry <> EmptyString /\ strip entry = entry /\
      exists line, In line (splitlines text') /\ strip line = entry).
Proof.
  intros Herr.
  assert (load_checked_files (Present text) (read_error e)
          = (∅, [WarnReadFailed err])) as Hload by (by rewrite Herr).
  destruct (main_uninterrupted e (Present text) all_files)
    as (Hu & Hp & Hs & _ & Hw).
  rewrite Hload in Hu, Hp, Hs, Hw. cbn [fst snd] in Hu, Hp, Hs, Hw.
  rewrite unprocessed_empty in Hu, Hp, Hs.
  split; [done|]. split; [|split].
  - exists (main e (Present text) all_files Uninterrupted).
    repeat split; try done.
    + apply Hw. by left.
    + lia.
    + rewrite main_log, Hload. cbn [fst attempted text_of].
      by rewrite unprocessed_empty.
  - intros open_err stop. unfold SweepOpen.main. by rewrite Hload.
  - intros text' entry H. repeat split.
    + by apply loaded_entries in H as (line & _ & _ & Hne).
    + apply loaded_entries in H as (line & _ & <- & _). apply strip_idem.
    + apply loaded_entries in H as (line & Hline & Hstrip & _). by exists line.
Qed.

(** A ledger whose last byte is no UTF-8: reading it raises, appending
    to it works. *)
Lemma ledger_read_failure_reprocesses_witness :
  let e := {| rustc := fun _ => TimeoutExpired;
              read_error := Some "invalid start byte";
              save_error := fun _ => None;
              source := fun _ => EmptyString |} in
  let text := "a.rs" +:+ NL +:+ String "255" EmptyString in
  exists st,
    SweepOpen.main e None (Present text) ["a.rs"; "b.rs"] Uninterrupted
    = SweepOpen.Returns st /\
    In (WarnReadFailed "invalid start byte") (stdout st) /\
    checked_units st = ["a.rs"; "b.rs"] /\
    skipped_count st = 0%Z /\
    processed_count st = 2%Z /\
    log_f st = text +:+ ledger_text ["a.rs"; "b.rs"].
Proof.
  cbv zeta.
  exact (proj1 (proj2 (ledger_read_failure_reprocesses
           {| rustc := fun _ => TimeoutExpired;
              read_error := Some "invalid start byte";
              save_error := fun _ => None;
              source := fun _ => EmptyString |}
           ("a.rs" +:+ NL +:+ String "255" EmptyString)
           "invalid start byte" ["a.rs"; "b.rs"] eq_refl))).
Defined.

(** C10, as stated, has the sweep go on after any failure to read the
    ledger.  A ledger that is a directory fails the read, which is
    caught, and then the opening for appending, which is not: the
    exception leaves [main] and no unit is compiled. *)
Lemma unopenable_ledger_aborts_sweep :
  ~ (forall (e : env) (open_error : option string) (text err : string)
            (all_files : list string),
        read_error e = Some err ->
        exists st,
          SweepOpen.main e open_error (Present text) all_files Uninterrupted
          = SweepOpen.Returns st /\
          checked_units st = all_files).
Proof.
  intros H.
  destruct (H {| rustc := fun _ => TimeoutExpired;
                 read_error := Some "Is a directory";
                 save_error := fun _ => None;
                 source := fun _ => EmptyString |}
              (Some "Is a directory") EmptyString "Is a directory" ["a.rs"]
              eq_refl) as (st & Hst & _).
  discriminate Hst.
Qed.

Lemma Forall_unprocessed (P : string -> Prop) (chk : gset string)
  (files : list string) :
  Forall P files -> Forall P (unprocessed chk files).
Proof.
  intros H. apply List.Forall_forall. intros p Hp.
  apply in_unprocessed in Hp as [Hp _].
  by apply (proj1 (List.Forall_forall P files) H).
Qed.

Lemma Forall_attempted (P : string -> Prop) (stop : interruption)
  (files : list string) :
  Forall P files -> Forall P (attempted stop files).
Proof. destruct stop; cbn [attempted]; [done|apply Forall_take..]. Qed.

Lemma in_attempted (stop : interruption) (files : list string) (p : string) :
  In p (attempted stop files) -> In p files.
Proof.
  destruct stop as [|k|k]; cbn [attempted]; [done|..];
    rewrite <- !list_elem_of_In; intros H;
    exact (elem_of_sublist _ _ _ H (sublist_take _ _)).
Qed.

Lemma NoDup_attempted (stop : interruption) (files : list string) :
  List.NoDup files -> List.NoDup (attempted stop files).
Proof.
  rewrite <- !NoDup_ListNoDup.
  destruct stop as [|k|k]; cbn [attempted]; [done|..];
    intros H; exact (sublist_NoDup _ _ H (sublist_take _ _)).
Qed.

Lemma NoDup_unprocessed (chk : gset string) (files : list string) :
  List.NoDup files -> List.NoDup (unprocessed chk files).
Proof. apply List.NoDup_filter. Qed.

(** One run appends to a ledger of safe paths the safe paths it
    processes; the ledger stays a ledger of safe paths. *)
Lemma main_ledger_text (e : env) (ps files : list string) (stop : interruption) :
  read_error e = None -> Forall ledger_safe ps ->
  log_f (main e (Present (ledger_text ps)) files stop)
  = ledger_text (ps ++ unprocessed (list_to_set ps) (attempted stop files)).
Proof.
  intros He Hps. rewrite main_log, He, load_ledger_text by done.
  cbn [text_of]. by rewrite ledger_text_app.
Qed.

(** Within the paths that reading the ledger gives back unchanged, the
    sweep resumes as the specification asks: whatever the point at which
    the first run stops and whatever the order in which the second run
    walks the tree, every unit has one line in the ledger, no unit of the
    loaded set is compiled again, and the ledger holds the set that one
    run to the end gives. *)
Lemma resume_safe_paths (e1 e2 e3 : env) (ps0 files files' : list string)
  (stop : interruption) :
  read_error e1 = None -> read_error e2 = None -> read_error e3 = None ->
  Forall ledger_safe ps0 -> Forall ledger_safe files ->
  List.NoDup ps0 -> List.NoDup files -> Permutation files files' ->
  let st1 := main e1 (Present (ledger_text ps0)) files stop in
  let st2 := main e2 (ledger_after st1) files' Uninterrupted in
  let st := main e3 (Present (ledger_text ps0)) files Uninterrupted in
  (forall p, In p files ->
             count_occ string_dec (splitlines (log_f st2)) p = 1%nat) /\
  (forall p, p ∈ fst (load_checked_files (ledger_after st1) None) ->
             ~ In p (checked_units st2)) /\
  fst (load_checked_files (ledger_after st2) None)
  = fst (load_checked_files (ledger_after st) None).
Proof.
  intros He1 He2 He3 Hs0 Hsf Hn0 Hnf Hperm. cbv zeta.
  set (new1 := unprocessed (list_to_set ps0) (attempted stop files)).
  assert (Forall ledger_safe files') as Hsf'
    by (eapply Permutation_Forall; eauto).
  assert (List.NoDup files') as Hnf' by (eapply Permutation_NoDup; eauto).
  assert (Forall ledger_safe (ps0 ++ new1)) as Hs1.
  { apply Forall_app. split; [done|].
    by apply Forall_unprocessed, Forall_attempted. }
  unfold ledger_after.
  rewrite (main_ledger_text e1 ps0 files stop He1 Hs0). fold new1.
  rewrite (main_ledger_text e2 (ps0 ++ new1) files' Uninterrupted He2 Hs1).
  rewrite (main_ledger_text e3 ps0 files Uninterrupted He3 Hs0).
  cbn [attempted].
  set (chk1 := list_to_set (ps0 ++ new1) : gset string).
  set (new2 := unprocessed chk1 files').
  assert (forall p, p ∈ chk1 <-> In p ps0 \/ In p new1) as Hchk1.
  { intros p. unfold chk1.
    by rewrite elem_of_list_to_set, list_elem_of_In, in_app_iff. }
  assert (Forall ledger_safe ((ps0 ++ new1) ++ new2)) as Hs2.
  { apply Forall_app. split; [done|]. by apply Forall_unprocessed. }
  assert (Forall ledger_safe (ps0 ++ unprocessed (list_to_set ps0) files)) as Hs3.
  { apply Forall_app. split; [done|]. by apply Forall_unprocessed. }
  split; [|split].
  - intros p Hp.
    rewrite splitlines_ledger_text
      by (eapply Forall_impl; [exact Hs2 | apply ledger_safe_no_linebreak]).
    apply NoDup_count_occ'.
    + apply List.NoDup_app; [apply List.NoDup_app|..].
      * done.
      * by apply NoDup_unprocessed, NoDup_attempted.
      * intros x Hx Hx'. apply in_unprocessed in Hx' as [_ Hnot].
        apply Hnot. by rewrite elem_of_list_to_set, list_elem_of_In.
      * by apply NoDup_unprocessed.
      * intros x Hx Hx'. apply in_unprocessed in Hx' as [_ Hnot].
        apply Hnot, Hchk1. by apply in_app_iff.
    + apply in_app_iff.
      destruct (decide (p ∈ chk1)) as [Hin|Hnot].
      * left. apply in_app_iff. by apply Hchk1.
      * right. apply in_unprocessed. split; [|done].
        eapply Permutation_in; eauto.
  - intros p Hp. rewrite load_ledger_text in Hp by done.
    destruct (main_uninterrupted e2 (Present (ledger_text (ps0 ++ new1))) files')
      as (Hu & _).
    rewrite He2, load_ledger_text in Hu by done.
    rewrite Hu. intros Hin. by apply in_unprocessed in Hin as [_ Hnot].
  - rewrite !load_ledger_text by done.
    apply set_eq. intros x.
    rewrite !elem_of_list_to_set, !list_elem_of_In, !in_app_iff.
    fold new1. fold chk1. fold new2.
    unfold new2, new1. rewrite !in_unprocessed, Hchk1.
    unfold new1. rewrite in_unprocessed.
    rewrite elem_of_list_to_set, list_elem_of_In.
    split.
    + intros [[H|[H _]]|[H _]]; [by left| |].
      * destruct (in_dec string_dec x ps0); [by left|].
        right. split; [by eapply in_attempted|done].
      * destruct (in_dec string_dec x ps0); [by left|].
        right. split; [|done]. eapply Permutation_in; [|exact H].
        by apply Permutation_sym.
    + intros [H|[H Hnot]]; [by left; left|].
      destruct (in_dec string_dec x (attempted stop files)) as [Ha|Ha].
      * left. right. done.
      * right. split; [by eapply Permutation_in; eauto|].
        intros [?|[? _]]; done.
Qed.

(** C1: a unit whose relative path begins with a blank.  The run that
    is killed right after the unit wrote its line, and the run that
    resumes, both compile it and both write it: the ledger ends with two
    lines for the one unit, where a single run to the end leaves one.
    The set read back holds the path without its blank, which no unit of
    the tree has. *)
Theorem resume_relogs_padded_path (rustc1 rustc2 rustc3 : toolchain)
  (save : string -> option (Sweep.save_stage * string)) (src : string -> string) :
  let e1 := {| rustc := rustc1; read_error := None; save_error := save; source := src |} in
  let e2 := {| rustc := rustc2; read_error := None; save_error := save; source := src |} in
  let e3 := {| rustc := rustc3; read_error := None; save_error := save; source := src |} in
  let files := [" a.rs"] in
  let st1 := main e1 Absent files (KilledAfter 1) in
  let st2 := main e2 (ledger_after st1) files Uninterrupted in
  let st := main e3 Absent files Uninterrupted in
  splitlines (log_f st) = [" a.rs"] /\
  splitlines (log_f st2) = [" a.rs"; " a.rs"] /\
  count_occ string_dec (splitlines (log_f st2)) " a.rs" = 2%nat /\
  checked_units st2 = [" a.rs"] /\
  fst (load_checked_files (ledger_after st1) None) = {[ "a.rs" ]}.
Proof.
  cbv zeta.
  assert (forall r, log_f (main {| rustc := r; read_error := None; save_error := save; source := src |}
                           Absent [" a.rs"] (KilledAfter 1))
                    = " a.rs" +:+ NL) as Hk.
  { intros r. rewrite main_log. cbn [read_error load_checked_files fst text_of attempted].
    cbn [take]. by rewrite unprocessed_empty. }
  assert (forall r, log_f (main {| rustc := r; read_error := None; save_error := save; source := src |}
                           Absent [" a.rs"] Uninterrupted)
                    = " a.rs" +:+ NL) as Hu.
  { intros r. rewrite main_log. cbn [read_error load_checked_files fst text_of attempted].
    by rewrite unprocessed_empty. }
  assert (fst (load_checked_files (Present (" a.rs" +:+ NL)) None)
          = ({[ "a.rs" ]} : gset string)) as Hload.
  { cbn [load_checked_files fst].
    replace (List.filter truthy (List.map strip (splitlines (" a.rs" +:+ NL))))
      with ["a.rs"] by reflexivity.
    apply set_eq. intros x.
    by rewrite elem_of_list_to_set, list_elem_of_singleton, elem_of_singleton. }
  assert (unprocessed ({[ "a.rs" ]} : gset string) [" a.rs"] = [" a.rs"]) as Hun.
  { rewrite unprocessed_cons. destruct (decide (" a.rs" ∈ ({[ "a.rs" ]} : gset string)))
      as [Hin|_]; [|done]. by apply elem_of_singleton in Hin. }
  unfold ledger_after. rewrite Hu, Hk, Hload.
  assert (log_f (main {| rustc := rustc2; read_error := None; save_error := save; source := src |}
                   (Present (" a.rs" +:+ NL)) [" a.rs"] Uninterrupted)
          = " a.rs" +:+ NL +:+ " a.rs" +:+ NL) as H2.
  { rewrite main_log. cbn [read_error attempted text_of]. rewrite Hload, Hun.
    cbn [ledger_text]. by rewrite append_nil_r, append_assoc. }
  rewrite H2. repeat split; try reflexivity.
  destruct (main_uninterrupted
              {| rustc := rustc2; read_error := None; save_error := save; source := src |}
              (Present (" a.rs" +:+ NL)) [" a.rs"]) as (Hc & _).
  cbn [read_error] in Hc. by rewrite Hload, Hun in Hc.
Qed.

(** C4: the unit with a blank at the head of its path.  Its line is
    written whatever the runner returns, a timeout included, yet the set
    a later run loads does not hold its path, and that run hands it to
    the runner once more. *)
Theorem padded_path_is_selected_again (rustc1 rustc2 : toolchain)
  (save : string -> option (Sweep.save_stage * string)) (src : string -> string) :
  let e1 := {| rustc := rustc1; read_error := None; save_error := save; source := src |} in
  let e2 := {| rustc := rustc2; read_error := None; save_error := save; source := src |} in
  let files := [" gen/a.rs"] in
  let st1 := main e1 Absent files Uninterrupted in
  let st2 := main e2 (ledger_after st1) files Uninterrupted in
  log_f st1 = " gen/a.rs" +:+ NL /\
  (" gen/a.rs" ∉ fst (load_checked_files (ledger_after st1) None)) /\
  checked_units st2 = [" gen/a.rs"] /\
  skipped_count st2 = 0%Z.
Proof.
  cbv zeta.
  assert (log_f (main {| rustc := rustc1; read_error := None; save_error := save; source := src |}
                   Absent [" gen/a.rs"] Uninterrupted)
          = " gen/a.rs" +:+ NL) as Hu.
  { rewrite main_log. cbn [read_error load_checked_files fst text_of attempted].
    by rewrite unprocessed_empty. }
  assert (fst (load_checked_files (Present (" gen/a.rs" +:+ NL)) None)
          = ({[ "gen/a.rs" ]} : gset string)) as Hload.
  { cbn [load_checked_files fst].
    replace (List.filter truthy (List.map strip (splitlines (" gen/a.rs" +:+ NL))))
      with ["gen/a.rs"] by reflexivity.
    apply set_eq. intros x.
    by rewrite elem_of_list_to_set, list_elem_of_singleton, elem_of_singleton. }
  assert (" gen/a.rs" ∉ ({[ "gen/a.rs" ]} : gset string)) as Hnot.
  { intros Hin. by apply elem_of_singleton in Hin. }
  assert (unprocessed ({[ "gen/a.rs" ]} : gset string) [" gen/a.rs"] = [" gen/a.rs"])
    as Hun.
  { rewrite unprocessed_cons.
    by destruct (decide (" gen/a.rs" ∈ ({[ "gen/a.rs" ]} : gset string))). }
  unfold ledger_after. rewrite Hu, Hload.
  destruct (main_uninterrupted
              {| rustc := rustc2; read_error := None; save_error := save; source := src |}
              (Present (" gen/a.rs" +:+ NL)) [" gen/a.rs"]) as (Hc & _ & Hs & _).
  cbn [read_error] in Hc, Hs. rewrite Hload, Hun in Hc, Hs.
  repeat split; done.
Qed.

(** Within the paths that reading the ledger gives back unchanged, a
    unit that has been through the loop is in the set the next run
    loads. *)
Lemma recorded_unit_is_loaded (e : env) (ps files : list string) (p : string) :
  read_error e = None -> Forall ledger_safe ps -> Forall ledger_safe files ->
  In p files ->
  p ∈ fst (load_checked_files
             (ledger_after (main e (Present (ledger_text ps)) files Uninterrupted))
             None).
Proof.
  intros He Hps Hf Hp. unfold ledger_after.
  rewrite main_ledger_text by done. cbn [attempted].
  rewrite load_ledger_text
    by (apply Forall_app; split; [done | by apply Forall_unprocessed]).
  rewrite elem_of_list_to_set, list_elem_of_In, in_app_iff.
  destruct (in_dec string_dec p ps) as [|Hnot]; [by left|].
  right. apply in_unprocessed. split; [done|].
  by rewrite elem_of_list_to_set, list_elem_of_In.
Qed.

(** C8, as the code has it: when the toolchain cannot be started,
    [check_ice] answers with is_ice [False] and the text Script Error
    followed by the message, and the loop treats the unit as any other
    that is not an ICE: it saves nothing, writes the unit's line to the
    ledger and counts it as processed. *)
Theorem spawn_failure_is_ledgered (e : env) (checked : gset string)
  (total idx : Z) (rel msg : string) (st : state) :
  rustc e rel = Raised msg -> rel ∉ checked ->
  let st' := iteration e checked total idx rel st in
  check_ice (rustc e) rel = (false, "Script Error: " +:+ msg) /\
  log_f st' = log_f st +:+ rel +:+ NL /\
  processed_count st' = (processed_count st + 1)%Z /\
  ice_dir st' = ice_dir st /\
  ice_found_count st' = ice_found_count st.
Proof.
  intros Hr Hnot. cbv zeta.
  destruct (iteration_records e checked total idx rel st Hnot) as (Hl & Hp & _).
  repeat split; try done.
  - unfold check_ice. by rewrite Hr.
  - unfold iteration. destruct (decide (rel ∈ checked)); [done|].
    unfold iteration_record, iteration_check, check_ice. by rewrite Hr.
  - unfold iteration. destruct (decide (rel ∈ checked)); [done|].
    unfold iteration_record, iteration_check, check_ice. by rewrite Hr.
Qed.

Lemma spawn_failure_is_ledgered_witness :
  let e := {| rustc := fun _ => Raised "No such file or directory: rustc";
              read_error := None;
              save_error := fun _ => None;
              source := fun _ => EmptyString |} in
  let st0 := {| log_f := EmptyString; flushes := 0; processed_count := 0;
                skipped_count := 0; ice_found_count := 0; ice_dir := ∅;
                checked_units := []; stdout := [] |} in
  log_f (iteration e ∅ 1 1 "a.rs" st0) = "a.rs" +:+ NL.
Proof.
  cbv zeta.
  refine (proj1 (proj2 (spawn_failure_is_ledgered
           {| rustc := fun _ => Raised "No such file or directory: rustc";
              read_error := None;
              save_error := fun _ => None;
              source := fun _ => EmptyString |}
           ∅ 1 1 "a.rs" "No such file or directory: rustc" _ _ _))).
  - reflexivity.
  - apply not_elem_of_empty.
Defined.

End SweepFacts.

(** ** The coverage sweep of run_coverage.py *)

Section CoverageFacts.
Import PyStr Runner Coverage.






Lemma kept_fragment_is_merged_twice :
  let e := {| rustc := fun _ => Completed 0 None None;
              profraws := fun _ => [];
              tool := fun _ => ToolOk "profdata";
              remove_error := fun _ => true;
              read_error := None |} in
  let d0 := {| incoming := ["coverage_incoming/cov_7_1.profraw"];
               profdata := None; merged := [] |} in
  let d1 := fst (state_of (perform_merge_and_clean e d0)) in
  let d2 := fst (state_of (perform_merge_and_clean e d1)) in
  merged d2
  = [[PROFDATA_TOOL; "merge"; "-sparse";
      "coverage_incoming/cov_7_1.profraw"; "-o"; FINAL_PROFDATA];
     [PROFDATA_TOOL; "merge"; "-sparse"; FINAL_PROFDATA;
      "coverage_incoming/cov_7_1.profraw"; "-o"; FINAL_PROFDATA]].
Proof. reflexivity. Qed.

(** The coverage sweep writes the unit to its record file when the
    compiler run completes, with any exit code, and when it times out;
    it does not when the run raises another exception. *)
Lemma compile_unit_records (e : env) (rel : string) (st : state) :
  record_f (compile_unit e rel st)
  = match rustc e rel with
    | Completed _ _ _ | TimeoutExpired => record_f st +:+ rel +:+ NL
    | Raised _ => record_f st
    end.
Proof.
  unfold compile_unit.
  destruct (rustc e rel) as [rc ? ?| |msg]; [destruct (rc =? 0)%Z|..]; reflexivity.
Qed.

(** A merge that fails does not stop the sweep: the loop goes on, and
    [main] returns when the tool can be started for the last merge. *)
Lemma main_returns (e : env) (record_file : Sweep.disk_file) (d : store)
  (walked : list (string * string)) :
  (forall cmd err, tool e cmd <> ToolRaised err) ->
  exists st, main e record_file d walked = Returns st.
Proof.
  intros Htool. unfold main.
  destruct (load_processed_files record_file (read_error e)) as [processed warnings].
  match goal with |- context [perform_merge_and_clean e ?x] =>
    generalize x; intros d0 end.
  match goal with |- context [print [Finalizing] ?x] =>
    generalize (print [Finalizing] x); intros st0 end.
  unfold perform_merge_and_clean.
  destruct (incoming d0) as [|f fs]; [by eexists|].
  destruct (tool e (merge_command d0)) as [index|rc|err] eqn:Ht;
    [by eexists..|].
  by destruct (Htool _ _ Ht).
Qed.

End CoverageFacts.

(** ** The bigram extraction of ast.py *)

Section AstFacts.
Import PyStr Ast.

Lemma token_eqb_eq (a b : token) : token_eqb a b = true <-> a = b.
Proof.
  destruct a as [a1 a2], b as [b1 b2]. unfold token_eqb. cbn [fst snd].
  rewrite andb_true_iff, !String.eqb_eq. split; [by intros [-> ->]|].
  by intros [= -> ->].
Qed.

Lemma token_eqb_refl (a : token) : token_eqb a a = true.
Proof. by apply token_eqb_eq. Qed.

Lemma token_eqb_neq (a b : token) : a <> b -> token_eqb a b = false.
Proof.
  intros H. apply not_true_is_false. intros E. by apply token_eqb_eq in E.
Qed.

(** What [counter[k] += 1] does to what [counter[k']] reads. *)
Lemma count_incr (k k' : token) (counter : Counter) :
  count k' (incr k counter)
  = (count k' counter + if token_dec k k' then 1 else 0)%Z.
Proof.
  induction counter as [|[k0 v] rest IH]; cbn [incr count].
  - destruct (token_dec k k') as [->|Hne].
    + by rewrite token_eqb_refl.
    + rewrite token_eqb_neq by congruence. lia.
  - destruct (token_eqb k k0) eqn:E0; cbn [count].
    + apply token_eqb_eq in E0 as ->.
      destruct (token_eqb k' k0) eqn:E1.
      * apply token_eqb_eq in E1 as ->. by destruct (token_dec k0 k0).
      * destruct (token_dec k0 k') as [->|_]; [|lia].
        by rewrite token_eqb_refl in E1.
    + destruct (token_eqb k' k0) eqn:E1; [|done].
      apply token_eqb_eq in E1 as ->.
      destruct (token_dec k k0) as [->|_]; [|lia].
      by rewrite token_eqb_refl in E0.
Qed.

Lemma count_incr_all (tokens : list token) (k : token) (counter : Counter) :
  count k (incr_all tokens counter)
  = (count k counter + Z.of_nat (count_occ token_dec tokens k))%Z.
Proof.
  unfold incr_all. revert counter.
  induction tokens as [|t tokens IH]; intros counter; cbn [fold_left count_occ].
  - lia.
  - rewrite IH, count_incr. destruct (token_dec t k); lia.
Qed.

Lemma incr_all_app (a b : list token) (counter : Counter) :
  incr_all (a ++ b) counter = incr_all b (incr_all a counter).
Proof. apply fold_left_app. Qed.

Lemma wrapper_free_inv (t : string) (b : bool) (cs : list node) :
  wrapper_free (Node t b cs) = true ->
  is_source_file t = false /\ Forall (fun c => wrapper_free c = true) cs.
Proof.
  cbn [wrapper_free]. intros H. apply andb_prop in H as [Ht Hcs].
  apply negb_true_iff in Ht. split; [done|].
  induction cs as [|c cs IH]; [by constructor|].
  apply andb_prop in Hcs as [Hc Hcs]. constructor; [done|by apply IH].
Qed.

(** Below a wrapper the function does what the extraction of the
    specification does when both count depth from the same number. *)
Lemma ast_2gram_limited_from (n : node) :
  wrapper_free n = true ->
  forall (counter : Counter) (D d : Z),
    ast_2gram_limited n counter D d
    = incr_all (spec_bigrams_from D d n) counter.
Proof.
  induction n as [t b cs IH] using node_ind'. intros Hwf counter D d.
  apply wrapper_free_inv in Hwf as [Ht Hcs].
  cbn [ast_2gram_limited spec_bigrams_from]. rewrite Ht.
  destruct (Z.leb_spec D d) as [Hle|Hlt].
  - by rewrite (proj2 (Z.ltb_ge d D) Hle).
  - rewrite (proj2 (Z.ltb_lt d D) Hlt).
    clear Ht. revert counter.
    induction cs as [|c cs IHcs]; intros counter; [done|].
    apply Forall_cons_1 in IH as [IHc IH].
    apply Forall_cons_1 in Hcs as [Hc Hcs].
    destruct (is_named c).
    + rewrite (IHc Hc), (IHcs IH Hcs).
      change ((t, type c) :: ?x ++ ?y) with ([(t, type c)] ++ x ++ y).
      by rewrite !incr_all_app.
    + by rewrite (IHcs IH Hcs).
Qed.

(** C5, as the code has it: the root is visited at depth 1.  On a tree
    with no wrapper below its root, the counter that
    [ast_2gram_limited(root, counter, D)] leaves is the one the
    extraction of the specification gives when it starts at depth 1 at
    the root (at each named child of the wrapper for a whole file): one
    token per named child of every node reached at a depth below [D],
    none for the children of a node reached at depth [D]. *)
Theorem ast_2gram_limited_starts_at_one (root : node) (counter : Counter) (D : Z) :
  proper_tree root = true ->
  ast_2gram_limited root counter D 1
  = incr_all (spec_extract 1 D root) counter /\
  (forall k, count k (ast_2gram_limited root counter D 1)
             = (count k counter
                + Z.of_nat (count_occ token_dec (spec_extract 1 D root) k))%Z) /\
  (forall n, spec_bigrams_from D D n = []).
Proof.
  intros Hp.
  assert (ast_2gram_limited root counter D 1
          = incr_all (spec_extract 1 D root) counter) as Heq.
  { destruct root as [t b cs]. unfold proper_tree in Hp. cbn [children] in Hp.
    unfold spec_extract. cbn [type].
    destruct (is_source_file t) eqn:Ht.
    - cbn [ast_2gram_limited]. rewrite Ht. unfold named_children. cbn [children].
      revert counter. induction cs as [|c cs IH]; intros counter; [done|].
      cbn [forallb] in Hp. apply andb_prop in Hp as [Hc Hcs].
      cbn [List.filter]. destruct (is_named c).
      + cbn [flat_map]. rewrite incr_all_app, (IH Hcs).
        by rewrite (ast_2gram_limited_from c Hc).
      + by rewrite (IH Hcs).
    - apply ast_2gram_limited_from. cbn [wrapper_free]. rewrite Ht. cbn [negb andb].
      induction cs as [|c cs IH]; [done|].
      cbn [forallb] in Hp. apply andb_prop in Hp as [Hc Hcs].
      by rewrite Hc, (IH Hcs). }
  split; [done|]. split.
  - intros k. by rewrite Heq, count_incr_all.
  - intros [t b cs]. cbn [spec_bigrams_from]. by rewrite Z.ltb_irrefl.
Qed.

Lemma ast_2gram_limited_starts_at_one_witness :
  ast_2gram_limited
    (Node "source_file" true
       [Node "if_expression" true
          [Node "if" false []; Node "block" true [Node "identifier" true []]]])
    [] 2 1
  = [(("if_expression", "block"), 1%Z)].
Proof.
  refine (proj1 (ast_2gram_limited_starts_at_one
    (Node "source_file" true
       [Node "if_expression" true
          [Node "if" false []; Node "block" true [Node "identifier" true []]]])
    [] 2 _)).
  reflexivity.
Defined.

(** C5, as stated, starts the extraction at depth 0.  For a node with
    one named child and the bound 1 that gives one token; the function
    gives none. *)
Lemma extraction_does_not_start_at_zero :
  ~ (forall (root : node) (D : Z),
        ast_2gram_limited root [] D 1 = incr_all (spec_extract 0 D root) []).
Proof.
  intros H.
  specialize (H (Node "if_expression" true [Node "block" true []]) 1%Z).
  discriminate H.
Qed.

End AstFacts.

(** ** What [match_and_save] does to the files *)

Section MatcherFrame.
Import PyStr PyPath Ast Fs.

Lemma makedirs_files (name : string) (fs fs' : filesystem) :
  makedirs name fs = inr fs' -> files fs' = files fs.
Proof.
  unfold makedirs. destruct (negb (truthy name)); [done|].
  destruct (existsb _ _); [done|]. by intros [= <-].
Qed.

Lemma write_file_files (path text : string) (fs fs' : filesystem) :
  write_file path text fs = inr fs' ->
  files fs' = <[ path := text ]> (files fs).
Proof.
  unfold write_file. destruct (negb (truthy path)); [done|].
  destruct (bool_decide _); [done|].
  destruct (_ && _); [done|]. by intros [= <-].
Qed.

(** C9: a call that returns [True] has written the candidate's source,
    as it is, under the save path and has touched no other file; a call
    that returns [False] leaves the file system as it was; a call that
    ends in an exception has created or changed no file either. *)
Theorem match_and_save_frame (parse : string -> node)
  (snippet_code full_code save_path : string) (threshold : R) (fs : filesystem) :
  let r := fst (match_and_save parse snippet_code full_code save_path threshold fs) in
  let fs' := snd (match_and_save parse snippet_code full_code save_path threshold fs) in
  (r = Returned true ->
   files fs' = <[ save_path := full_code ]> (files fs) /\
   files fs' !! save_path = Some full_code /\
   (forall p, p <> save_path -> files fs' !! p = files fs !! p)) /\
  (r = Returned false -> fs' = fs) /\
  (files fs' <> files fs -> r = Returned true) /\
  (r <> Returned true -> files fs' = files fs).
Proof.
  cbv zeta. unfold match_and_save.
  destruct (ast_depth (parse snippet_code) <=? 1)%Z; [by repeat split|].
  destruct (candidate_counters _ _) as [|c cs]; [by repeat split|].
  destruct (similarities _ _) as [sims|]; [|by repeat split].
  destruct (any_ge threshold sims); [|by repeat split].
  destruct (makedirs (dirname save_path) fs) as [err|fs1] eqn:Hmk;
    [by repeat split|].
  apply makedirs_files in Hmk.
  destruct (write_file save_path full_code fs1) as [err|fs2] eqn:Hwr;
    cbn [fst snd].
  - by repeat split.
  - apply write_file_files in Hwr. rewrite Hmk in Hwr.
    repeat split; intros; try done.
    + rewrite Hwr. apply lookup_insert_eq.
    + rewrite Hwr. by apply lookup_insert_ne.
Qed.

End MatcherFrame.

(** ** Rows and cosines of the vector space *)

Section SklearnFacts.
Import PyStr Sklearn.
Local Open Scope R_scope.

Lemma dot_self_nonneg (v : list R) : 0 <= dot v v.
Proof. induction v as [|a v IH]; cbn [dot]; [lra|nra]. Qed.

Lemma dot_self_pos (v : list R) (x : R) : In x v -> x <> 0 -> 0 < dot v v.
Proof.
  induction v as [|a v IH]; cbn [dot In]; [done|].
  intros [->|Hin] Hx.
  - pose proof (dot_self_nonneg v). nra.
  - specialize (IH Hin Hx). nra.
Qed.

Lemma dot_scale (v w : list R) (a b : R) :
  dot (List.map (fun x => x / a) v) (List.map (fun x => x / b) w)
  = dot v w * (/ a * / b).
Proof.
  revert w. induction v as [|x v IH]; intros [|y w]; cbn [dot List.map]; try lra.
  rewrite IH. unfold Rdiv. ring.
Qed.

Lemma dot_le_squares (u v : list R) :
  2 * dot u v <= dot u u + dot v v.
Proof.
  revert v. induction u as [|a u IH]; intros [|b v]; cbn [dot].
  - lra.
  - pose proof (dot_self_nonneg (b :: v)) as H. cbn [dot] in H. lra.
  - pose proof (dot_self_nonneg (a :: u)) as H. cbn [dot] in H. lra.
  - specialize (IH v).
    pose proof (Rle_0_sqr (a - b)) as Hsq. unfold Rsqr in Hsq.
    assert (2 * (a * b) <= a * a + b * b) by lra. lra.
Qed.

Lemma normalize_pos (v : list R) :
  0 < dot v v -> normalize v = List.map (fun x => x / l2_norm v) v.
Proof.
  intros H. unfold normalize.
  destruct (Req_EM_T (l2_norm v) 0) as [E|_]; [|done].
  unfold l2_norm in E. apply sqrt_eq_0 in E; lra.
Qed.

Lemma normalize_unit (v : list R) :
  0 < dot v v -> dot (normalize v) (normalize v) = 1.
Proof.
  intros H. rewrite (normalize_pos v H), dot_scale.
  pose proof (sqrt_lt_R0 _ H) as Hn. fold (l2_norm v) in Hn.
  assert (l2_norm v * l2_norm v = dot v v) as Hsq
    by (unfold l2_norm; apply sqrt_sqrt; lra).
  rewrite <- Hsq at 1. field. lra.
Qed.

Lemma normalize_fixed (v : list R) :
  dot v v = 1 \/ dot v v = 0 -> normalize v = v.
Proof.
  intros [H|H]; unfold normalize, l2_norm; rewrite H.
  - rewrite sqrt_1. destruct (Req_EM_T 1 0); [lra|].
    induction v as [|a v IH]; [done|]. cbn [List.map].
    f_equal; [field|]. clear. induction v as [|b v IH]; [done|].
    cbn [List.map]. f_equal; [field|done].
  - rewrite sqrt_0. by destruct (Req_EM_T 0 0).
Qed.

Lemma normalize_norm (v : list R) :
  dot (normalize v) (normalize v) = 1 \/ dot (normalize v) (normalize v) = 0.
Proof.
  destruct (Rle_lt_or_eq_dec _ _ (dot_self_nonneg v)) as [Hpos|Hz].
  - left. by apply normalize_unit.
  - right. rewrite normalize_fixed; [done|by right].
Qed.

(** No cosine is above 1. *)
Lemma cosine_le_1 (x y : list R) : dot (normalize x) (normalize y) <= 1.
Proof.
  pose proof (dot_le_squares (normalize x) (normalize y)).
  destruct (normalize_norm x), (normalize_norm y); lra.
Qed.

(** The cosine of a row with itself is 1 when the row is not null. *)
Lemma cosine_self (v : list R) :
  0 < dot v v ->
  dot (normalize (normalize v)) (normalize (normalize v)) = 1.
Proof.
  intros H. rewrite (normalize_fixed (normalize v)); [|left];
    by apply normalize_unit.
Qed.

Lemma idf_ge_1 (n d : nat) : (d <= n)%nat -> 1 <= idf n d.
Proof.
  intros Hle. unfold idf.
  assert (0 < 1 + INR d) as Hd by (pose proof (pos_INR d); lra).
  assert (1 <= (1 + INR n) / (1 + INR d)) as H1.
  { apply le_INR in Hle.
    apply (Rmult_le_reg_r (1 + INR d)); [done|].
    unfold Rdiv. rewrite Rmult_assoc, Rinv_l by lra. lra. }
  destruct H1 as [Hlt|<-].
  - pose proof (ln_increasing 1 _ Rlt_0_1 Hlt) as Hln. rewrite ln_1 in Hln. lra.
  - rewrite ln_1. lra.
Qed.

Lemma df_le (t : string) (docs : list (list string)) :
  (df t docs <= length docs)%nat.
Proof.
  unfold df. induction docs as [|d docs IH]; cbn [List.filter length]; [lia|].
  destruct (existsb _ d); cbn [length]; lia.
Qed.

(** The row of a document that has a term is not null. *)
Lemma tfidf_row_pos (docs : list (list string)) (d : list string) (t : string) :
  In d docs -> In t d ->
  0 < dot (tfidf_row (vocabulary docs) docs d) (tfidf_row (vocabulary docs) docs d).
Proof.
  intros Hd Ht.
  apply (dot_self_pos _ (tf t d * idf (length docs) (df t docs))).
  - unfold tfidf_row. apply in_map_iff. exists t. split; [done|].
    unfold vocabulary. apply nodup_In, in_concat. eauto.
  - pose proof (idf_ge_1 (length docs) (df t docs) (df_le t docs)) as Hi.
    assert (1 <= tf t d) as Htf.
    { unfold tf. apply (count_occ_In string_dec) in Ht.
      change 1 with (INR 1). apply le_INR. lia. }
    nra.
Qed.

End SklearnFacts.

(** ** The candidate roots *)

Section RootsFacts.
Import PyStr Ast.

Lemma size_eq (t : string) (b : bool) (cs : list node) :
  size (Node t b cs) = S (list_sum (List.map size cs)).
Proof.
  cbn [size]. f_equal. induction cs as [|c cs IH]; [done|].
  simpl. by rewrite IH.
Qed.

Lemma size_named_children (n : node) :
  (list_sum (List.map size (named_children n)) < size n)%nat.
Proof.
  destruct n as [t b cs]. rewrite size_eq. unfold named_children. cbn [children].
  apply Nat.lt_succ_r.
  induction cs as [|c cs IH]; simpl; [lia|].
  destruct (is_named c); simpl; lia.
Qed.

Lemma collect_loop_keeps (fuel : nat) (stack result : list node) (x : node) :
  In x result -> In x (collect_loop fuel stack result).
Proof.
  revert stack result. induction fuel as [|fuel IH]; intros stack result Hx; [done|].
  cbn [collect_loop]. destruct (rev stack) as [|current below]; [done|].
  apply IH. destruct (is_source_file (type current)); [done|].
  apply in_or_app. by left.
Qed.

(** With fuel for every node on the stack and below, the loop reaches
    each node that lies under the stack on a path of named nodes and
    keeps those that are not wrappers. *)
Lemma collect_loop_reaches (fuel : nat) (stack result : list node) (r x : node) :
  (list_sum (List.map size stack) <= fuel)%nat ->
  In r stack -> named_descendant r x -> is_source_file (type x) = false ->
  In x (collect_loop fuel stack result).
Proof.
  revert stack result r.
  induction fuel as [|fuel IH]; intros stack result r Hfuel Hr Hd Hx.
  - exfalso. apply in_split in Hr as (s1 & s2 & ->).
    rewrite List.map_app, list_sum_app in Hfuel. simpl in Hfuel.
    destruct r as [t b cs]. rewrite size_eq in Hfuel. lia.
  - cbn [collect_loop].
    destruct (rev stack) as [|current below] eqn:Hrev.
    { apply (f_equal (@rev node)) in Hrev. rewrite rev_involutive in Hrev.
      by subst stack. }
    assert (stack = rev below ++ [current]) as Hstack.
    { apply (f_equal (@rev node)) in Hrev. by rewrite rev_involutive in Hrev. }
    subst stack. rewrite List.map_app, list_sum_app in Hfuel.
    change (list_sum (List.map size [current])) with (size current + 0)%nat in Hfuel.
    pose proof (size_named_children current) as Hlt.
    assert (list_sum (List.map size (rev below ++ named_children current))
            <= fuel)%nat as Hfuel'
      by (rewrite List.map_app, list_sum_app; lia).
    apply in_app_or in Hr as [Hr|[<-|[]]].
    + apply (IH _ _ r); try done. apply in_or_app. by left.
    + inversion Hd as [n|n c d Hc Hcd]; subst.
      * apply collect_loop_keeps. rewrite Hx. apply in_or_app. right. by left.
      * apply (IH _ _ c); try done. apply in_or_app. by right.
Qed.

Lemma collect_candidate_roots_reaches (root x : node) :
  named_descendant root x -> is_source_file (type x) = false ->
  In x (collect_candidate_roots root []).
Proof.
  intros Hd Hx. unfold collect_candidate_roots.
  apply (collect_loop_reaches _ _ _ root); try done.
  - change (list_sum (List.map size [root])) with (size root + 0)%nat. lia.
  - by left.
Qed.

End RootsFacts.

(** ** Counters and their documents *)

Section CounterFacts.
Import PyStr Ast.

Lemma wrapper_unfold (t : string) (b : bool) (cs : list node)
  (counter : Counter) (D d : Z) :
  is_source_file t = true ->
  ast_2gram_limited (Node t b cs) counter D d
  = fold_left (fun c n => ast_2gram_limited n c D d)
              (named_children (Node t b cs)) counter.
Proof.
  intros Ht. cbn [ast_2gram_limited]. rewrite Ht.
  unfold named_children. cbn [children]. revert counter.
  induction cs as [|c cs IH]; intros counter; [done|].
  cbn [List.filter]. destruct (is_named c); cbn [fold_left]; apply IH.
Qed.

Lemma inner_unfold (t : string) (b : bool) (cs : list node)
  (counter : Counter) (D d : Z) :
  is_source_file t = false -> (d < D)%Z ->
  ast_2gram_limited (Node t b cs) counter D d
  = fold_left (fun c n => ast_2gram_limited n (incr (t, type n) c) D (d + 1))
              (named_children (Node t b cs)) counter.
Proof.
  intros Ht Hd. cbn [ast_2gram_limited]. rewrite Ht.
  rewrite (proj2 (Z.leb_gt D d) Hd).
  unfold named_children. cbn [children]. revert counter.
  induction cs as [|c cs IH]; intros counter; [done|].
  cbn [List.filter]. destruct (is_named c); cbn [fold_left]; apply IH.
Qed.

(** What [counter[k] += 1] keeps, the function keeps. *)
Lemma ast_2gram_limited_keeps (P : Counter -> Prop) :
  (forall k c, P c -> P (incr k c)) ->
  forall n counter D d, P counter -> P (ast_2gram_limited n counter D d).
Proof.
  intros Hincr n.
  induction n as [t b cs IH] using node_ind'. intros counter D d Hc.
  cbn [ast_2gram_limited].
  destruct (is_source_file t).
  - revert counter Hc. induction cs as [|c cs IHcs]; intros counter Hc; [done|].
    apply Forall_cons_1 in IH as [IHc IH].
    apply (IHcs IH). destruct (is_named c); [by apply IHc|done].
  - destruct (D <=? d)%Z; [done|].
    revert counter Hc. induction cs as [|c cs IHcs]; intros counter Hc; [done|].
    apply Forall_cons_1 in IH as [IHc IH].
    apply (IHcs IH). destruct (is_named c); [|done].
    by apply IHc, Hincr.
Qed.

Lemma incr_nonempty (k : token) (c : Counter) : incr k c <> [].
Proof. destruct c as [|[k0 v] c]; cbn [incr]; [done|]. by destruct (token_eqb k k0). Qed.

Lemma incr_positive (k : token) (c : Counter) : positive c -> positive (incr k c).
Proof.
  unfold positive. induction 1 as [|[k0 v] c Hv Hc IH]; cbn [incr].
  - by constructor.
  - destruct (token_eqb k k0); constructor; cbn [snd] in *; try done. lia.
Qed.

Lemma ast_2gram_limited_positive (n : node) (D d : Z) :
  positive (ast_2gram_limited n [] D d).
Proof.
  apply (ast_2gram_limited_keeps positive); [apply incr_positive|].
  by constructor.
Qed.

Lemma fold_keeps_nonempty (f : Counter -> node -> Counter) (ns : list node)
  (c : Counter) :
  (forall c n, c <> [] -> f c n <> []) -> c <> [] -> fold_left f ns c <> [].
Proof.
  intros Hf. revert c. induction ns as [|n ns IH]; intros c Hc; [done|].
  cbn [fold_left]. by apply IH, Hf.
Qed.

(** A node that is not a wrapper and has a named child gives a counter
    that is not empty when the bound is above 1. *)
Lemma ast_2gram_limited_nonempty (s : node) (D : Z) :
  is_source_file (type s) = false -> named_children s <> [] -> (1 < D)%Z ->
  ast_2gram_limited s [] D 1 <> [].
Proof.
  destruct s as [t b cs]. cbn [type]. intros Ht Hn HD.
  rewrite inner_unfold by done.
  destruct (named_children (Node t b cs)) as [|c ns]; [done|].
  cbn [fold_left]. apply fold_keeps_nonempty.
  - intros c0 n Hc0.
    apply (ast_2gram_limited_keeps (fun c => c <> [])); intros;
      apply incr_nonempty.
  - apply (ast_2gram_limited_keeps (fun c => c <> []));
      intros; apply incr_nonempty.
Qed.

Lemma depths_unfold (cs : list node) :
  (fix go (cs : list node) : list Z :=
     match cs with
     | [] => []
     | c :: cs' => if is_named c then ast_depth c :: go cs' else go cs'
     end) cs
  = List.map ast_depth (List.filter is_named cs).
Proof.
  induction cs as [|c cs IH]; [done|].
  cbn [List.filter]. destruct (is_named c); cbn [List.map]; by rewrite IH.
Qed.

Lemma ast_depth_unfold (n : node) :
  ast_depth n
  = let depths := List.map ast_depth (named_children n) in
    if is_source_file (type n)
    then match depths with [] => 0%Z | _ => py_max depths end
    else match depths with [] => 1%Z | _ => (1 + py_max depths)%Z end.
Proof.
  destruct n as [t b cs]. cbn [ast_depth type]. rewrite depths_unfold. done.
Qed.

End CounterFacts.

(** ** Documents and their terms *)

Section DocumentFacts.
Import PyStr Ast Sklearn.

Lemma chars_append (x y : string) :
  list_ascii_of_string (x +:+ y)
  = list_ascii_of_string x ++ list_ascii_of_string y.
Proof.
  induction x as [|c x IH]; [done|].
  rewrite append_cons. cbn [list_ascii_of_string]. by rewrite IH.
Qed.

Lemma append_not_empty (x : string) (c : ascii) :
  x +:+ String c EmptyString <> EmptyString.
Proof. by destruct x. Qed.

(** A text with an underscore in it has a term. *)
Lemma words_from_nonempty (doc cur : string) :
  cur <> EmptyString \/ In "_"%char (list_ascii_of_string doc) ->
  words_from cur (lower doc) <> [].
Proof.
  revert cur. induction doc as [|c doc IH]; intros cur H.
  - destruct H as [H|[]]. by destruct cur.
  - cbn [lower words_from].
    destruct (is_space (lower_char c)) eqn:Hsp.
    + destruct cur as [|c0 cur]; [|done].
      apply IH. right. destruct H as [H|[->|H]]; [done| |done].
      vm_compute in Hsp. discriminate Hsp.
    + apply IH. left. apply append_not_empty.
Qed.

Lemma join_tokens_head (tok : string) (ts : list string) (a : ascii) :
  In a (list_ascii_of_string tok) ->
  In a (list_ascii_of_string (join_tokens (tok :: ts))).
Proof.
  cbn [join_tokens]. revert tok.
  induction ts as [|t ts IH]; intros tok H; [done|].
  cbn [fold_left]. apply IH. rewrite chars_append. apply in_or_app. by left.
Qed.

(** The document of a counter that is not empty and holds no count below
    1 has a term. *)
Lemma counter_to_doc_has_term (c : Counter) :
  c <> [] -> positive c -> analyze (counter_to_doc c) <> [].
Proof.
  intros Hne Hpos. unfold analyze. apply words_from_nonempty. right.
  destruct c as [|[[p ch] v] rest]; [done|].
  apply Forall_cons_1 in Hpos as [Hv _]. cbn [snd] in Hv.
  unfold counter_to_doc. cbn [flat_map].
  destruct (Z.to_nat v) as [|m] eqn:Hm; [lia|].
  cbn [repeat app]. apply join_tokens_head.
  rewrite !chars_append. apply in_or_app. right. apply in_or_app. left.
  by left.
Qed.

End DocumentFacts.

(** ** Matching a snippet against a file that holds it *)

Section SelfMatch.
Import PyStr Ast Sklearn.
Local Open Scope R_scope.

Lemma any_ge_intro (threshold s : R) (sims : list R) :
  In s sims -> threshold <= s -> any_ge threshold sims = true.
Proof.
  intros Hin Hle. unfold any_ge. apply existsb_exists. exists s.
  split; [done|]. destruct (Rge_dec s threshold); [done|lra].
Qed.

Lemma fit_transform_rows (docs : list string) :
  vocabulary (List.map analyze docs) <> [] ->
  fit_transform docs
  = Some (List.map
            (fun doc => normalize (tfidf_row (vocabulary (List.map analyze docs))
                                             (List.map analyze docs) (analyze doc)))
            docs).
Proof.
  intros Hv. unfold fit_transform.
  destruct (vocabulary (List.map analyze docs)) as [|v vs] eqn:E; [done|].
  by rewrite List.map_map.
Qed.

(** The scores of a query whose snippet document is also the document
    of a candidate: one of them is 1 and none is above 1. *)
Lemma similarities_self (snippet_doc : string) (counters : list Counter) :
  analyze snippet_doc <> [] ->
  In snippet_doc (List.map counter_to_doc counters) ->
  exists sims,
    similarities snippet_doc counters = Some sims /\
    In 1 sims /\ (forall x, In x sims -> x <= 1).
Proof.
  intros Hterm Hin. unfold similarities.
  set (docs := snippet_doc :: List.map counter_to_doc counters).
  set (toks := List.map analyze docs).
  destruct (analyze snippet_doc) as [|t ts] eqn:Ha; [done|].
  assert (In (analyze snippet_doc) toks) as Hd0 by (by left).
  assert (In t (analyze snippet_doc)) as Ht by (rewrite Ha; by left).
  assert (In t (vocabulary toks)) as Hv.
  { unfold vocabulary. apply nodup_In, in_concat. eauto. }
  rewrite (fit_transform_rows docs) by (fold toks; by destruct (vocabulary toks)).
  fold toks. unfold docs at 1. cbn [List.map].
  eexists. split; [reflexivity|]. unfold cosine_similarity. split.
  - apply in_map_iff.
    exists (normalize (tfidf_row (vocabulary toks) toks (analyze snippet_doc))).
    split.
    + apply cosine_self. by apply (tfidf_row_pos toks _ t).
    + apply in_map_iff. exists snippet_doc. split; [done|]. done.
  - intros x Hx. apply in_map_iff in Hx as (y & <- & _). apply cosine_le_1.
Qed.

(** C6, as the code has it.  The snippet's wrapper has one named node
    [s], of depth above 1, and the candidate's tree holds [s] under its
    root on a path of named nodes.  Then the query does not raise, one of
    its scores is 1 and none is above 1, so the score passes every
    threshold up to 1 (0.6 among them) and the call does not answer
    [False]. *)
Theorem self_match_scores_one (parse : string -> node)
  (snippet_code full_code save_path : string) (threshold : R)
  (fs : Fs.filesystem) (s : node) :
  is_source_file (type (parse snippet_code)) = true ->
  named_children (parse snippet_code) = [s] ->
  (1 < ast_depth (parse snippet_code))%Z ->
  named_descendant (parse full_code) s ->
  is_source_file (type s) = false ->
  threshold <= 1 ->
  let snippet_depth := ast_depth (parse snippet_code) in
  let snippet_doc :=
    counter_to_doc (ast_2gram_limited (parse snippet_code) [] snippet_depth 1) in
  (exists sims,
      similarities snippet_doc (candidate_counters (parse full_code) snippet_depth)
      = Some sims /\
      In 1 sims /\ (forall x, In x sims -> x <= 1) /\
      any_ge threshold sims = true) /\
  fst (match_and_save parse snippet_code full_code save_path threshold fs)
  <> Returned false.
Proof.
  intros Hw Hs Hdepth Hdesc Hns Hthr. cbv zeta.
  set (D := ast_depth (parse snippet_code)) in *.
  destruct (parse snippet_code) as [t b cs] eqn:Hparse. cbn [type] in Hw.
  assert (D = ast_depth s) as HD.
  { unfold D. rewrite ast_depth_unfold. cbn [type]. cbv zeta.
    by rewrite Hw, Hs. }
  assert (ast_2gram_limited (Node t b cs) [] D 1 = ast_2gram_limited s [] D 1)
    as Hsnip by (rewrite wrapper_unfold, Hs by done; done).
  assert (named_children s <> []) as Hkids.
  { intros Hnil. rewrite HD, ast_depth_unfold, Hns, Hnil in Hdepth.
    cbn in Hdepth. lia. }
  pose proof (ast_2gram_limited_nonempty s D Hns Hkids Hdepth) as Hne.
  pose proof (ast_2gram_limited_positive s D 1) as Hpos.
  assert (In (ast_2gram_limited s [] D 1) (candidate_counters (parse full_code) D))
    as Hcand.
  { unfold candidate_counters. apply filter_In. split.
    - apply in_map_iff. exists s. split; [done|].
      by apply collect_candidate_roots_reaches.
    - by destruct (ast_2gram_limited s [] D 1). }
  rewrite Hsnip.
  destruct (similarities_self (counter_to_doc (ast_2gram_limited s [] D 1))
              (candidate_counters (parse full_code) D))
    as (sims & Hsims & H1 & Hle).
  { by apply counter_to_doc_has_term. }
  { by apply in_map. }
  assert (any_ge threshold sims = true) as Hany by (by apply (any_ge_intro _ 1)).
  split; [by exists sims|].
  unfold match_and_save. rewrite Hparse. fold D.
  rewrite (proj2 (Z.leb_gt D 1) Hdepth), Hsnip.
  destruct (candidate_counters (parse full_code) D) as [|c0 cs0] eqn:Hcc; [done|].
  rewrite Hsims, Hany.
  destruct (Fs.makedirs _ fs) as [err|fs1]; [done|].
  by destruct (Fs.write_file _ _ fs1).
Qed.

End SelfMatch.

(** ** A snippet of several items *)

Section SeveralItems.
Import PyStr Ast Sklearn.
Local Open Scope R_scope.

Lemma cosine_formula (x y : list R) :
  0 < dot x x -> 0 < dot y y ->
  dot (normalize (normalize x)) (normalize (normalize y))
  = dot x y / (l2_norm x * l2_norm y).
Proof.
  intros Hx Hy.
  rewrite (normalize_fixed (normalize x)) by (left; by apply normalize_unit).
  rewrite (normalize_fixed (normalize y)) by (left; by apply normalize_unit).
  rewrite (normalize_pos x Hx), (normalize_pos y Hy), dot_scale.
  pose proof (sqrt_lt_R0 _ Hx). pose proof (sqrt_lt_R0 _ Hy).
  unfold l2_norm. field. lra.
Qed.

(** A row of norm [2c] and a row of norm [c] whose product is [c * c]
    have the cosine one half. *)
Lemma cosine_half (c : R) (x y : list R) :
  1 <= c -> dot x x = (2 * c) * (2 * c) -> dot y y = c * c -> dot x y = c * c ->
  dot (normalize (normalize x)) (normalize (normalize y)) = 1 / 2.
Proof.
  intros Hc Hx Hy Hxy.
  assert (0 < dot x x) as Hx0 by (rewrite Hx; nra).
  assert (0 < dot y y) as Hy0 by (rewrite Hy; nra).
  rewrite (cosine_formula x y Hx0 Hy0). unfold l2_norm.
  rewrite Hx, Hy, Hxy, !sqrt_square by lra. field. lra.
Qed.

Ltac eval_nat :=
  repeat match goal with
    | |- context [count_occ string_dec ?d ?t] =>
        let v := eval vm_compute in (count_occ string_dec d t) in
        change (count_occ string_dec d t) with v
    | |- context [df ?t ?docs] =>
        let v := eval vm_compute in (df t docs) in
        change (df t docs) with v
    | |- context [@length (list string) ?l] =>
        let v := eval vm_compute in (@length (list string) l) in
        change (@length (list string) l) with v
    end.

(** The four items against themselves: each candidate document is one
    term of the snippet's four, and each score is one half. *)
Lemma four_items_similarities :
  similarities (counter_to_doc (ast_2gram_limited four_items [] 2 1))
               (candidate_counters four_items 2)
  = Some [1 / 2; 1 / 2; 1 / 2; 1 / 2].
Proof.
  unfold similarities.
  set (docs := counter_to_doc (ast_2gram_limited four_items [] 2 1)
               :: List.map counter_to_doc (candidate_counters four_items 2)).
  assert (List.map analyze docs
          = [["use_declaration__identifier"; "mod_item__identifier";
              "struct_item__type_identifier"; "expression_statement__identifier"];
             ["expression_statement__identifier"];
             ["struct_item__type_identifier"]; ["mod_item__identifier"];
             ["use_declaration__identifier"]]) as Htoks by (vm_compute; reflexivity).
  unfold fit_transform. rewrite Htoks.
  assert (vocabulary
            [["use_declaration__identifier"; "mod_item__identifier";
              "struct_item__type_identifier"; "expression_statement__identifier"];
             ["expression_statement__identifier"];
             ["struct_item__type_identifier"]; ["mod_item__identifier"];
             ["use_declaration__identifier"]]
          = ["expression_statement__identifier"; "struct_item__type_identifier";
             "mod_item__identifier"; "use_declaration__identifier"]) as Hvoc
    by (vm_compute; reflexivity).
  rewrite Hvoc. cbn [List.map]. unfold cosine_similarity. cbn [List.map].
  unfold tfidf_row. cbn [List.map]. unfold tf. eval_nat.
  change (INR 1) with 1. change (INR 0) with 0.
  pose proof (idf_ge_1 5 2 ltac:(lia)) as Hc.
  f_equal.
  repeat (apply f_equal2;
          [apply (cosine_half (idf 5 2)); [exact Hc|cbn [dot]; ring..]|]).
  reflexivity.
Qed.

Lemma four_items_not_matched (code save_path : string) (fs : Fs.filesystem) :
  match_and_save (fun _ => four_items) code code save_path (6 / 10) fs
  = (Returned false, fs).
Proof.
  unfold match_and_save.
  change (ast_depth four_items) with 2%Z. cbn [Z.leb Z.compare Pos.compare Pos.compare_cont].
  destruct (candidate_counters four_items 2) as [|c0 cs0] eqn:Hcc; [done|].
  rewrite <- Hcc, four_items_similarities.
  unfold any_ge. cbn [existsb].
  destruct (Rge_dec (1 / 2) (6 / 10)) as [Hge|_]; [lra|]. reflexivity.
Qed.

(** C6, as stated, has every snippet of depth above 1 score 1.0 against a
    file that holds it, and match at 0.6.  The snippet of four items
    matched against the file that is the snippet itself scores one half
    on each candidate and the call answers [False]. *)
Lemma several_items_do_not_match_themselves :
  ~ (forall (parse : string -> node) (snippet_code full_code save_path : string)
            (fs : Fs.filesystem),
        (1 < ast_depth (parse snippet_code))%Z ->
        named_descendant (parse full_code) (parse snippet_code) ->
        (forall s, In s (named_children (parse snippet_code)) ->
                   named_descendant (parse full_code) s) ->
        fst (match_and_save parse snippet_code full_code save_path (6 / 10) fs)
        <> Returned false).
Proof.
  intros H.
  apply (H (fun _ => four_items) "use a; mod b; struct S; a;"
           "use a; mod b; struct S; a;" "matched/full.rs"
           {| Fs.files := ∅; Fs.dirs := ∅ |}).
  - reflexivity.
  - apply nd_self.
  - intros s Hs. eapply nd_child; [exact Hs|apply nd_self].
  - by rewrite four_items_not_matched.
Qed.

Lemma self_match_scores_one_witness :
  fst (match_and_save sample_parse "if a > b { g(); }"
         "fn f() { let x = 1; if a > b { g(); } }" "matched/f.rs" (6 / 10)
         {| Fs.files := ∅; Fs.dirs := ∅ |})
  <> Returned false.
Proof.
  refine (proj2 (self_match_scores_one sample_parse "if a > b { g(); }"
                   "fn f() { let x = 1; if a > b { g(); } }" "matched/f.rs" (6 / 10)
                   {| Fs.files := ∅; Fs.dirs := ∅ |} if_statement _ _ _ _ _ _)).
  - reflexivity.
  - reflexivity.
  - reflexivity.
  - eapply nd_child; [|eapply nd_child; [|eapply nd_child; [|apply nd_self]]].
    + cbn. left. reflexivity.
    + cbn. right. right. left. reflexivity.
    + cbn. right. left. reflexivity.
  - reflexivity.
  - lra.
Defined.

End SeveralItems.

(** ** A call that saves *)

Section SavedMatch.
Import PyStr PyPath Ast Sklearn Fs.
Local Open Scope R_scope.

Lemma makedirs_ok (name : string) (fs : filesystem) :
  name <> EmptyString ->
  (forall d, In d (ancestors name) -> d ∉ dom (files fs)) ->
  makedirs name fs
  = inr {| files := files fs; dirs := list_to_set (ancestors name) ∪ dirs fs |}.
Proof.
  intros Hname Hfree. unfold makedirs.
  apply truthy_true in Hname. rewrite Hname. cbn [negb].
  destruct (existsb _ (ancestors name)) eqn:Hex; [|done].
  apply existsb_exists in Hex as (d & Hd & Hin).
  apply bool_decide_eq_true in Hin. by destruct (Hfree d Hd).
Qed.

Lemma write_file_ok (path text : string) (fs : filesystem) :
  path <> EmptyString -> path ∉ dirs fs -> dirname path ∈ dirs fs ->
  write_file path text fs
  = inr {| files := <[ path := text ]> (files fs); dirs := dirs fs |}.
Proof.
  intros Hpath Hnd Hparent. unfold write_file.
  apply truthy_true in Hpath. rewrite Hpath. cbn [negb].
  rewrite (bool_decide_eq_false_2 _ Hnd), (bool_decide_eq_true_2 _ Hparent).
  cbn [negb]. by rewrite andb_false_r.
Qed.

(** The statement above, taken as a snippet and matched at 0.6 against
    the file with the function around it, on an empty disk: the call
    answers [True] and the disk then holds the file's source under the
    save path and no other file. *)
Lemma sample_match_is_saved :
  let full := "fn f() { let x = 1; if a > b { g(); } }" in
  let r := match_and_save sample_parse "if a > b { g(); }" full "matched/f.rs" (6 / 10)
             {| files := ∅; dirs := ∅ |} in
  fst r = Returned true /\ files (snd r) = {[ "matched/f.rs" := full ]}.
Proof.
  cbv zeta.
  destruct (similarities_self
              (counter_to_doc
                 (ast_2gram_limited (sample_parse "if a > b { g(); }") []
                    (ast_depth (sample_parse "if a > b { g(); }")) 1))
              (candidate_counters
                 (sample_parse "fn f() { let x = 1; if a > b { g(); } }")
                 (ast_depth (sample_parse "if a > b { g(); }"))))
    as (sims & Hs & Hone & _).
  { apply counter_to_doc_has_term; [|apply ast_2gram_limited_positive].
    vm_compute. discriminate. }
  { apply in_map. vm_compute. tauto. }
  assert (any_ge (6 / 10) sims = true) as Hany
    by (apply (any_ge_intro _ 1); [done|lra]).
  unfold match_and_save.
  destruct (ast_depth (sample_parse "if a > b { g(); }") <=? 1)%Z eqn:Hd;
    [discriminate Hd|].
  destruct (candidate_counters _ _) as [|c0 cs0] eqn:Hcc.
  { vm_compute in Hcc. discriminate Hcc. }
  rewrite Hs, Hany.
  change (dirname "matched/f.rs") with "matched".
  rewrite (makedirs_ok "matched" {| files := ∅; dirs := ∅ |}); [|done|].
  2:{ intros d _. cbn [files]. rewrite dom_empty_L. apply not_elem_of_empty. }
  change (ancestors "matched") with ["matched"]. cbn [files dirs].
  rewrite write_file_ok; cbn [files dirs fst snd].
  - split; [done|]. apply insert_empty.
  - done.
  - rewrite elem_of_union, elem_of_list_to_set, list_elem_of_singleton.
    intros [H|H]; [discriminate H|by apply not_elem_of_empty in H].
  - change (dirname "matched/f.rs") with "matched".
    apply elem_of_union_l, elem_of_list_to_set, list_elem_of_singleton. done.
Qed.

End SavedMatch.

(** ** The sweep on a tree of three files *)

Section ThreeFiles.
Import PyStr PyPath Runner Sweep.

Example log_path_mirrors :
  log_path "b/c.rs" = "b/c.err.log" /\ log_path "c.rs" = "c.err.log".
Proof. split; reflexivity. Qed.

(** One file compiles, one has a type error, one makes the compiler
    panic: three lines in the ledger, three units counted, one ICE found,
    and under ICE_DIR the source of the third file and its log. *)
Example three_files_sweep :
  let e :=
    {| rustc := fun f =>
         if String.eqb f "ok.rs" then Completed 0 (Some EmptyString) (Some EmptyString)
         else if String.eqb f "sub/err.rs"
              then Completed 1 (Some EmptyString) (Some "error[E0308]: mismatched types")
              else Completed 101 (Some EmptyString)
                     (Some "thread 'rustc' panicked at compiler/rustc_middle");
       read_error := None;
       save_error := fun _ => None;
       source := fun f => "// " +:+ f |} in
  let st := main e Absent ["ok.rs"; "sub/err.rs"; "sub/ice.rs"] Uninterrupted in
  splitlines (log_f st) = ["ok.rs"; "sub/err.rs"; "sub/ice.rs"] /\
  processed_count st = 3%Z /\ skipped_count st = 0%Z /\ ice_found_count st = 1%Z /\
  ice_dir st
  = <[ "sub/ice.err.log" := "thread 'rustc' panicked at compiler/rustc_middle" ]>
      (<[ "sub/ice.rs" := "// sub/ice.rs" ]> ∅).
Proof. cbv zeta. repeat split; vm_compute; reflexivity. Qed.

End ThreeFiles.

(** * Further properties of the code *)

(** ** Substrings *)

Section SubstringFacts.
Import PyStr.

Lemma startswith_split (p s : string) :
  startswith p s = true <-> exists y, s = p +:+ y.
Proof.
  split.
  - revert s. induction p as [|a p IH]; intros s H.
    + by exists s.
    + destruct s as [|b s]; [done|]. cbn [startswith] in H.
      apply andb_prop in H as [Hab Hps]. apply Ascii.eqb_eq in Hab as ->.
      destruct (IH s Hps) as [y ->]. by exists y.
  - intros [y ->]. apply startswith_app.
Qed.

(** [sub in s] says that [s] is some text, then [sub], then some text. *)
Lemma contains_split (sub s : string) :
  contains sub s = true <-> exists x y, s = x +:+ sub +:+ y.
Proof.
  split.
  - induction s as [|c s IH]; cbn [contains]; intros H;
      apply orb_prop in H as [H|H]; try done.
    + apply startswith_split in H as [y ->]. by exists EmptyString, y.
    + apply startswith_split in H as [y ->]. by exists EmptyString, y.
    + destruct (IH H) as (x & y & ->). by exists (String c x), y.
  - intros (x & y & ->). apply contains_app.
Qed.

Lemma contains_trans (a b c : string) :
  contains a b = true -> contains b c = true -> contains a c = true.
Proof.
  intros Hab Hbc.
  apply contains_split in Hab as (x & y & ->).
  apply contains_split in Hbc as (u & v & ->).
  apply contains_split. exists (u +:+ x), (y +:+ v).
  by rewrite !append_assoc.
Qed.

Lemma contains_append_l (sub a b : string) :
  contains sub a = true -> contains sub (a +:+ b) = true.
Proof.
  intros H. apply contains_split in H as (x & y & ->).
  apply contains_split. exists x, (y +:+ b). by rewrite !append_assoc.
Qed.

Lemma contains_append_r (sub a b : string) :
  contains sub b = true -> contains sub (a +:+ b) = true.
Proof.
  intros H. apply contains_split in H as (x & y & ->).
  apply contains_split. exists (a +:+ x), y. by rewrite !append_assoc.
Qed.

End SubstringFacts.

(** ** The two ICE detectors *)

Section DetectorFacts.
Import PyStr Runner.

(** X1: a signature of [check_ice] that stands in the error stream or in
    the output stream of a completed run makes the run an ICE, whatever
    the other stream holds and whatever the exit code. *)
Theorem check_ice_either_stream (rc : Z) (stdout stderr : option string) (k : string) :
  In k ICE_SIGNATURES ->
  contains k (or_empty stderr) = true \/ contains k (or_empty stdout) = true ->
  check_ice_result (Completed rc stdout stderr)
  = (true, or_empty stderr +:+ or_empty stdout).
Proof.
  intros Hk Hin. unfold check_ice_result. f_equal.
  rewrite is_ice_output_signatures. apply existsb_exists. exists k.
  split; [done|].
  destruct Hin as [H|H]; [by apply contains_append_l|by apply contains_append_r].
Qed.

Lemma check_ice_either_stream_witness :
  check_ice_result
    (Completed 0 (Some "query stack during panic: end of query stack")
                 (Some "warning: unused variable"))
  = (true, "warning: unused variable" +:+ "query stack during panic: end of query stack").
Proof.
  apply (check_ice_either_stream 0
           (Some "query stack during panic: end of query stack")
           (Some "warning: unused variable") "query stack during panic").
  - cbn. tauto.
  - right. reflexivity.
Defined.

(** X2: [check_is_ice] of compiler.py finds its keywords in any letter
    case: an output that holds a text equal to a keyword up to the case
    of its letters is taken for an ICE. *)
Theorem check_is_ice_ignores_case (output variant k : string) :
  In k keywords -> lower variant = lower k ->
  contains variant output = true -> check_is_ice output = true.
Proof. apply check_is_ice_any_case. Qed.

Lemma check_is_ice_ignores_case_witness :
  check_is_ice "error: Internal Compiler Error: no type for node" = true.
Proof.
  apply (check_is_ice_ignores_case _ "Internal Compiler Error" "internal compiler error").
  - cbn. tauto.
  - reflexivity.
  - reflexivity.
Defined.

(** X3: what [check_ice] of detect.py reports, [check_is_ice] of
    compiler.py reports too, unless the only signatures in the output are
    the two markers that compiler.py does not list. *)
Theorem check_ice_implies_check_is_ice (output : string) :
  is_ice_output output = true ->
  check_is_ice output = true \/
  contains "Box<Any>" output = true \/ contains "delay_span_bug" output = true.
Proof.
  intros H. rewrite is_ice_output_signatures in H.
  apply existsb_exists in H as (k & Hk & Hc).
  assert (forall kw, In kw keywords -> contains kw k = true ->
                     check_is_ice output = true) as Hkw.
  { intros kw Hin Hsub. unfold check_is_ice.
    apply existsb_exists. exists kw. split; [done|].
    by apply contains_lower, (contains_trans kw k output). }
  cbn in Hk. destruct Hk as [<-|[<-|[<-|[<-|[<-|[]]]]]].
  - left. apply (Hkw "internal compiler error"); [cbn; tauto|reflexivity].
  - left. apply (Hkw "thread 'rustc' panicked"); [cbn; tauto|reflexivity].
  - right. by left.
  - right. by right.
  - left. apply (Hkw "query stack during panic"); [cbn; tauto|reflexivity].
Qed.

Lemma check_ice_implies_check_is_ice_witness :
  check_is_ice "thread 'rustc' panicked at compiler/rustc_hir" = true \/
  contains "Box<Any>" "thread 'rustc' panicked at compiler/rustc_hir" = true \/
  contains "delay_span_bug" "thread 'rustc' panicked at compiler/rustc_hir" = true.
Proof.
  apply (check_ice_implies_check_is_ice "thread 'rustc' panicked at compiler/rustc_hir").
  reflexivity.
Defined.

End DetectorFacts.

(** ** The counters and the archive of the sweep *)

Section SweepAccounting.
Import PyStr PyPath Runner Sweep.

Ltac open_unit e rel :=
  unfold iteration_check;
  destruct (check_ice (rustc e) rel) as [[|] ?] eqn:?;
  [unfold save_ice_report; destruct (save_error e rel) as [[[|] ?]|] eqn:?|].

(** The quotient by the batch size moves up exactly at the multiples. *)
Lemma batch_quotient (p : Z) :
  (0 <= p)%Z ->
  ((p + 1) / BATCH_SIZE
   = if (p + 1) mod BATCH_SIZE =? 0 then p / BATCH_SIZE + 1 else p / BATCH_SIZE)%Z.
Proof.
  intros Hp. unfold BATCH_SIZE.
  destruct ((p + 1) mod 50 =? 0)%Z eqn:E.
  - apply Z.eqb_eq in E.
    pose proof (Z.div_mod (p + 1) 50 ltac:(lia)).
    pose proof (Z.div_mod p 50 ltac:(lia)).
    pose proof (Z.mod_pos_bound p 50 ltac:(lia)). lia.
  - apply Z.eqb_neq in E.
    pose proof (Z.div_mod (p + 1) 50 ltac:(lia)).
    pose proof (Z.div_mod p 50 ltac:(lia)).
    pose proof (Z.mod_pos_bound p 50 ltac:(lia)).
    pose proof (Z.mod_pos_bound (p + 1) 50 ltac:(lia)). lia.
Qed.

Lemma iteration_flushes (e : env) (chk : gset string) (total idx : Z)
  (rel : string) (st : state) :
  (0 <= processed_count st)%Z ->
  flushes st = (processed_count st / BATCH_SIZE)%Z ->
  let st' := iteration e chk total idx rel st in
  (0 <= processed_count st')%Z /\
  flushes st' = (processed_count st' / BATCH_SIZE)%Z.
Proof.
  intros Hp Hf. cbv zeta. unfold iteration.
  destruct (decide (rel ∈ chk)); [done|].
  destruct (iteration_check_frame e total idx rel st) as (_ & Hp' & _ & Hf' & _).
  unfold iteration_record. cbn [processed_count flushes].
  rewrite Hp', Hf', Hf. split; [lia|]. by rewrite batch_quotient.
Qed.

Lemma loop_flushes (e : env) (chk : gset string) (total : Z)
  (files : list string) (idx : Z) (st : state) :
  (0 <= processed_count st)%Z ->
  flushes st = (processed_count st / BATCH_SIZE)%Z ->
  flushes (loop e chk total idx files st)
  = (processed_count (loop e chk total idx files st) / BATCH_SIZE)%Z.
Proof.
  revert idx st. induction files as [|f files IH]; intros idx st Hp Hf; [done|].
  cbn [loop].
  destruct (iteration_flushes e chk total idx f st Hp Hf) as [Hp' Hf'].
  by apply IH.
Qed.

(** Whether the unit ends up counted as a new ICE: a signature in its
    output, and no exception while the report is saved. *)
Lemma iteration_ice_count (e : env) (chk : gset string) (total idx : Z)
  (rel : string) (st : state) :
  rel ∉ chk ->
  ice_found_count (iteration e chk total idx rel st)
  = (ice_found_count st +
     if fst (check_ice (rustc e) rel) &&
        match save_error e rel with None => true | Some _ => false end
     then 1 else 0)%Z.
Proof.
  intros Hnot. unfold iteration.
  destruct (decide (rel ∈ chk)); [done|].
  unfold iteration_record. cbn [ice_found_count].
  open_unit e rel; cbn; lia.
Qed.

Lemma loop_ice_count (e : env) (chk : gset string) (total : Z)
  (files : list string) (idx : Z) (st : state) :
  ice_found_count (loop e chk total idx files st)
  = (ice_found_count st +
     Z.of_nat (length (List.filter
       (fun f => fst (check_ice (rustc e) f) &&
                 match save_error e f with None => true | Some _ => false end)
       (unprocessed chk files))))%Z.
Proof.
  revert idx st. induction files as [|f files IH]; intros idx st.
  - cbn. lia.
  - cbn [loop]. rewrite IH, unprocessed_cons.
    destruct (decide (f ∈ chk)) as [Hin|Hnot].
    + by destruct (iteration_skips e chk total idx f st Hin) as (_ & _ & _ & _ & _);
        unfold iteration; destruct (decide (f ∈ chk)).
    + rewrite (iteration_ice_count e chk total idx f st Hnot).
      cbn [List.filter].
      destruct (fst (check_ice (rustc e) f) &&
                match save_error e f with None => true | Some _ => false end);
        cbn [length]; lia.
Qed.

(** X4: the counters of a sweep that runs to its end.  Every file of the
    tree is either checked or skipped; the units handed to the compiler
    are the files that the loaded ledger does not hold, in the order of
    the listing; the ICE counter is the number of those whose output
    carries a signature and whose report was saved; the ledger was
    flushed once for every full batch of checked files; and the summary
    printed last reports these counters. *)
Theorem sweep_accounting (e : env) (log_file : disk_file) (all_files : list string) :
  let chk := fst (load_checked_files log_file (read_error e)) in
  let st := main e log_file all_files Uninterrupted in
  (processed_count st + skipped_count st = Z.of_nat (length all_files))%Z /\
  checked_units st = unprocessed chk all_files /\
  processed_count st = Z.of_nat (length (checked_units st)) /\
  ice_found_count st
  = Z.of_nat (length (List.filter
      (fun f => fst (check_ice (rustc e) f) &&
                match save_error e f with None => true | Some _ => false end)
      (checked_units st))) /\
  (0 <= ice_found_count st <= processed_count st)%Z /\
  flushes st = (processed_count st / BATCH_SIZE)%Z /\
  last (stdout st)
  = Some (Summary (processed_count st) (skipped_count st) (ice_found_count st)).
Proof.
  cbv zeta. unfold main.
  destruct (load_checked_files log_file (read_error e)) as [chk w].
  cbn [fst]. unfold print.
  cbn [checked_units processed_count skipped_count ice_found_count flushes stdout].
  match goal with |- context [loop e chk ?t ?i all_files ?s] =>
    pose proof (loop_effect e chk t all_files i s) as (_ & Hc & Hp & Hs);
    pose proof (loop_ice_count e chk t all_files i s) as Hi;
    pose proof (loop_flushes e chk t all_files i s) as Hf
  end.
  cbn [checked_units processed_count skipped_count ice_found_count flushes
       app] in Hc, Hp, Hs, Hi, Hf.
  rewrite Hc, Hp, Hs, Hi.
  pose proof (List.filter_length_le
    (fun f => fst (check_ice (rustc e) f) &&
              match save_error e f with None => true | Some _ => false end)
    (unprocessed chk all_files)) as Hle.
  repeat split; try lia.
  - rewrite Hf, Hp; [done|lia|done].
  - by rewrite last_snoc.
Qed.

(** The archive holds nothing but reports: the entries of a state. *)
Lemma iteration_archive (e : env) (chk : gset string) (total idx : Z)
  (rel p v : string) (st : state) :
  ice_dir (iteration e chk total idx rel st) !! p = Some v ->
  ice_dir st !! p = Some v \/
  ((rel ∉ chk) /\ fst (check_ice (rustc e) rel) = true /\
   (p = rel /\ v = source e rel \/
    p = log_path rel /\ v = snd (check_ice (rustc e) rel))).
Proof.
  unfold iteration. destruct (decide (rel ∈ chk)) as [|Hnot]; [by left|].
  unfold iteration_record. cbn [ice_dir].
  open_unit e rel; cbn [ice_dir fst snd]; intros H; try (by left).
  - apply lookup_insert_Some in H as [[<- <-]|[_ H]]; [right; tauto|by left].
  - apply lookup_insert_Some in H as [[<- <-]|[_ H]]; [right; tauto|].
    apply lookup_insert_Some in H as [[<- <-]|[_ H]]; [right; tauto|by left].
Qed.

Lemma loop_archive (e : env) (chk : gset string) (total : Z)
  (files : list string) (idx : Z) (st : state) (p v : string) :
  ice_dir (loop e chk total idx files st) !! p = Some v ->
  ice_dir st !! p = Some v \/
  exists f, In f files /\ (f ∉ chk) /\ fst (check_ice (rustc e) f) = true /\
            (p = f /\ v = source e f \/
             p = log_path f /\ v = snd (check_ice (rustc e) f)).
Proof.
  revert idx st. induction files as [|f files IH]; intros idx st H; [by left|].
  cbn [loop] in H. apply IH in H as [H|(g & Hg & H)].
  - apply iteration_archive in H as [H|H]; [by left|].
    right. exists f. split; [by left|done].
  - right. exists g. split; [by right|done].
Qed.

(** X5: the archive of a run holds nothing but reports of ICEs.  Every
    file under the ICE directory is the copy of the source of a unit
    whose output carries a signature, under the unit's own relative path,
    or the output of such a unit, beside it under the stem of the name;
    the unit is a file of the tree that the loaded ledger does not
    hold.  This is so wherever the run stops. *)
Theorem archive_holds_ice_reports (e : env) (log_file : disk_file)
  (all_files : list string) (stop : interruption) (p v : string) :
  ice_dir (main e log_file all_files stop) !! p = Some v ->
  exists f,
    In f all_files /\
    (f ∉ fst (load_checked_files log_file (read_error e))) /\
    fst (check_ice (rustc e) f) = true /\
    (p = f /\ v = source e f \/
     p = log_path f /\ v = snd (check_ice (rustc e) f)).
Proof.
  unfold main.
  destruct (load_checked_files log_file (read_error e)) as [chk w].
  cbn [fst]. destruct stop as [|k|k].
  - unfold print. cbn [ice_dir]. intros H.
    apply loop_archive in H as [H|H]; [done|exact H].
  - intros H. apply loop_archive in H as [H|(f & Hf & H)]; [done|].
    exists f. split; [|done].
    exact (in_attempted (KilledAfter k) all_files f Hf).
  - destruct (all_files !! k) as [g|] eqn:Hk;
      [destruct (decide (g ∈ chk)) as [|Hnot]|].
    + intros H. apply loop_archive in H as [H|(f & Hf & H)]; [done|].
      exists f. split; [|done].
      exact (in_attempted (KilledAfter k) all_files f Hf).
    + intros H.
      assert (ice_dir (loop e chk (Z.of_nat (length all_files)) 1 (take k all_files)
                {| log_f := text_of log_file; flushes := 0; processed_count := 0;
                   skipped_count := 0; ice_found_count := 0; ice_dir := ∅;
                   checked_units := [];
                   stdout := w ++ [HistoryCount (Z.of_nat (size chk));
                                   TotalFiles (Z.of_nat (length all_files))] |})
              !! p = Some v \/
              (fst (check_ice (rustc e) g) = true /\
               (p = g /\ v = source e g \/
                p = log_path g /\ v = snd (check_ice (rustc e) g)))) as [H'|H'].
      { revert H. open_unit e g; cbn [ice_dir fst snd]; intros H; try (by left).
        - apply lookup_insert_Some in H as [[<- <-]|[_ H]]; [right; tauto|by left].
        - apply lookup_insert_Some in H as [[<- <-]|[_ H]]; [right; tauto|].
          apply lookup_insert_Some in H as [[<- <-]|[_ H]]; [right; tauto|by left]. }
      * apply loop_archive in H' as [H'|(f & Hf & H')]; [done|].
        exists f. split; [|done].
        exact (in_attempted (KilledAfter k) all_files f Hf).
      * exists g. split; [|done]. by apply list_elem_of_lookup_2, list_elem_of_In in Hk.
    + intros H. apply loop_archive in H as [H|(f & Hf & H)]; [done|].
      exists f. split; [|done].
      exact (in_attempted (KilledAfter k) all_files f Hf).
Qed.

Lemma archive_holds_ice_reports_witness :
  let e :=
    {| rustc := fun f =>
         if String.eqb f "ok.rs" then Completed 0 (Some EmptyString) (Some EmptyString)
         else Completed 101 (Some EmptyString)
                (Some "thread 'rustc' panicked at compiler/rustc_middle");
       read_error := None;
       save_error := fun _ => None;
       source := fun f => "// " +:+ f |} in
  exists f,
    In f ["ok.rs"; "sub/ice.rs"] /\
    (f ∉ fst (load_checked_files Absent (read_error e))) /\
    fst (check_ice (rustc e) f) = true /\
    ("sub/ice.err.log" = f /\
     "thread 'rustc' panicked at compiler/rustc_middle" = source e f \/
     "sub/ice.err.log" = log_path f /\
     "thread 'rustc' panicked at compiler/rustc_middle" = snd (check_ice (rustc e) f)).
Proof.
  cbv zeta.
  apply (archive_holds_ice_reports _ Absent ["ok.rs"; "sub/ice.rs"] Uninterrupted).
  vm_compute. reflexivity.
Defined.

End SweepAccounting.

(** ** Where a report is put *)

Section ArchivePaths.
Import PyStr PyPath Runner Sweep.

Lemma length_append (a b : string) :
  String.length (a +:+ b) = (String.length a + String.length b)%nat.
Proof.
  induction a as [|c a IH]; [done|].
  rewrite append_cons. cbn [String.length]. by rewrite IH.
Qed.

(** A suffix that is no longer than the second part is looked for in the
    second part alone. *)
Lemma endswith_append (suf a b : string) :
  (String.length suf <= String.length b)%nat ->
  endswith suf (a +:+ b) = endswith suf b.
Proof.
  intros Hle. induction a as [|c a IH]; [done|].
  rewrite append_cons, <- IH. unfold endswith.
  cbn [String.length].
  pose proof (length_append a b) as Hlen.
  replace (S (String.length (a +:+ b)) - String.length suf)%nat
    with (S (String.length (a +:+ b) - String.length suf)) by lia.
  cbn [substring].
  destruct (Nat.leb_spec (String.length suf) (String.length (a +:+ b))) as [_|?];
    [|lia].
  destruct (Nat.leb_spec (String.length suf) (S (String.length (a +:+ b)))) as [_|?];
    [done|lia].
Qed.

Lemma contains_slash_cons (c : ascii) (s : string) :
  contains "/" (String c s) = is_slash c || contains "/" s.
Proof.
  cbn [contains startswith]. unfold is_slash.
  rewrite Ascii.eqb_sym. by rewrite andb_true_r.
Qed.

Lemma contains_slash_append (a b : string) :
  contains "/" (a +:+ b) = contains "/" a || contains "/" b.
Proof.
  induction a as [|c a IH]; [by destruct b|].
  rewrite append_cons, !contains_slash_cons, IH. by rewrite orb_assoc.
Qed.

(** A path without a slash is a bare name. *)
Lemma head_part_bare (n : string) :
  contains "/" n = false -> head_part n = EmptyString /\ name_part n = n.
Proof.
  destruct n as [|c n]; [done|].
  rewrite contains_slash_cons. intros H.
  apply orb_false_elim in H as [Hc Hn].
  cbn [head_part name_part]. by rewrite Hn, Hc.
Qed.

(** A path is cut at its last slash. *)
Lemma head_part_slash (d n : string) :
  contains "/" n = false ->
  head_part (d +:+ String "/" n) = d +:+ "/" /\ name_part (d +:+ String "/" n) = n.
Proof.
  intros Hn. induction d as [|c d [IHh IHn]].
  - rewrite !append_nil. cbn [head_part name_part]. by rewrite Hn.
  - rewrite !append_cons. cbn [head_part name_part].
    rewrite contains_slash_append, contains_slash_cons.
    cbn [is_slash Ascii.eqb]. rewrite orb_true_r.
    by rewrite IHh, IHn.
Qed.

Lemma split_last_dot_rs (n : string) :
  split_last_dot (n +:+ ".rs") = Some (n, "rs").
Proof.
  induction n as [|c n IH]; [done|].
  rewrite append_cons. cbn [split_last_dot]. by rewrite IH.
Qed.

Lemma stem_rs (n : string) : n <> EmptyString -> stem (n +:+ ".rs") = n.
Proof.
  intros Hn. unfold stem. rewrite split_last_dot_rs.
  by destruct n.
Qed.

(** X6: the output of a unit is written beside the copy of its source,
    under the name of the source with [.err.log] in place of [.rs]:
    in the same directory for a unit in a directory, and at the top of
    the archive for a unit at the top of the tree. *)
Theorem log_path_beside_source (d n : string) :
  n <> EmptyString -> contains "/" n = false ->
  log_path (d +:+ "/" +:+ n +:+ ".rs") = d +:+ "/" +:+ n +:+ ".err.log" /\
  log_path (n +:+ ".rs") = n +:+ ".err.log".
Proof.
  intros Hne Hn.
  assert (contains "/" (n +:+ ".rs") = false) as Hn'
    by (by rewrite contains_slash_append, Hn).
  unfold log_path. split.
  - change (d +:+ "/" +:+ n +:+ ".rs") with (d +:+ String "/" (n +:+ ".rs")).
    destruct (head_part_slash d (n +:+ ".rs") Hn') as [-> ->].
    by rewrite stem_rs, !append_assoc.
  - destruct (head_part_bare (n +:+ ".rs") Hn') as [-> ->].
    by rewrite stem_rs, append_nil.
Qed.

Lemma log_path_beside_source_witness :
  log_path ("gen/batch_3" +:+ "/" +:+ "case_17" +:+ ".rs")
  = "gen/batch_3" +:+ "/" +:+ "case_17" +:+ ".err.log" /\
  log_path ("case_17" +:+ ".rs") = "case_17" +:+ ".err.log".
Proof.
  apply (log_path_beside_source "gen/batch_3" "case_17"); [done|reflexivity].
Defined.

(** The name of a log is not the name of a Rust source. *)
Lemma log_path_not_rs (g : string) : endswith ".rs" (log_path g) = false.
Proof.
  unfold log_path. rewrite <- append_assoc.
  rewrite endswith_append; [reflexivity|cbn; lia].
Qed.

Lemma loop_establish (e : env) (chk : gset string) (total : Z)
  (P : state -> Prop) (f : string) (files : list string) :
  In f files ->
  (forall idx st, P (iteration e chk total idx f st)) ->
  (forall idx g st, In g files -> P st -> P (iteration e chk total idx g st)) ->
  forall idx st, P (loop e chk total idx files st).
Proof.
  intros Hin Hf Hkeep.
  assert (forall fs idx st, (forall g, In g fs -> In g files) ->
            P st -> P (loop e chk total idx fs st)) as Hinv.
  { induction fs as [|g fs IH]; intros idx st Hsub Hst; [done|].
    cbn [loop]. apply IH; [intros; apply Hsub; by right|].
    apply Hkeep; [apply Hsub; by left|done]. }
  assert (forall fs idx st, (forall g, In g fs -> In g files) ->
            In f fs -> P (loop e chk total idx fs st)) as Hest.
  { induction fs as [|g fs IH]; intros idx st Hsub Hfs; [done|].
    cbn [loop]. destruct Hfs as [->|Hfs].
    - apply Hinv; [intros; apply Hsub; by right|apply Hf].
    - apply IH; [intros; apply Hsub; by right|done]. }
  intros idx st. by apply Hest.
Qed.

(** X7: a unit whose output carries a signature is in the archive at the
    end of the run.  When the files of the tree are Rust sources, as the
    listing makes sure, the copy of the unit stands under the unit's
    relative path unless copying raised; and when saving raised nothing,
    the log beside it holds the output of a unit with that log path (the
    unit itself when no other file of the tree has the same). *)
Theorem ice_unit_is_archived (e : env) (log_file : disk_file)
  (all_files : list string) (f : string) :
  Forall (fun g => endswith ".rs" g = true) all_files ->
  In f all_files ->
  f ∉ fst (load_checked_files log_file (read_error e)) ->
  fst (check_ice (rustc e) f) = true ->
  (forall err, save_error e f <> Some (BeforeCopy, err)) ->
  let st := main e log_file all_files Uninterrupted in
  ice_dir st !! f = Some (source e f) /\
  (save_error e f = None ->
   exists g, In g all_files /\ log_path g = log_path f /\
             fst (check_ice (rustc e) g) = true /\
             ice_dir st !! log_path f = Some (snd (check_ice (rustc e) g))).
Proof.
  intros Hrs Hin Hnot Hice Hcopy. cbv zeta. unfold main.
  destruct (load_checked_files log_file (read_error e)) as [chk w].
  cbn [fst] in Hnot. unfold print. cbn [ice_dir].
  assert (endswith ".rs" f = true) as Hf
    by (by apply (proj1 (List.Forall_forall _ _) Hrs)).
  assert (forall g, f <> log_path g) as Hflog.
  { intros g Heq. rewrite Heq, log_path_not_rs in Hf. done. }
  split.
  - apply (loop_establish e chk _ (fun st => ice_dir st !! f = Some (source e f))
             f all_files Hin).
    + intros idx st. unfold iteration.
      destruct (decide (f ∈ chk)); [done|].
      unfold iteration_record, iteration_check. cbn [ice_dir].
      destruct (check_ice (rustc e) f) as [b out]. cbn [fst] in Hice. subst b.
      unfold save_ice_report.
      destruct (save_error e f) as [[[|] err]|] eqn:Hsave; cbn [ice_dir].
      * by destruct (Hcopy err).
      * by rewrite lookup_insert_eq.
      * rewrite lookup_insert_ne by (intros Heq; by apply (Hflog f)).
        by rewrite lookup_insert_eq.
    + intros idx g st Hg Hst. unfold iteration.
      destruct (decide (g ∈ chk)); [done|].
      unfold iteration_record, iteration_check. cbn [ice_dir].
      destruct (check_ice (rustc e) g) as [[|] out]; [|done].
      unfold save_ice_report.
      destruct (save_error e g) as [[[|] err]|]; cbn [ice_dir]; [done|..].
      * destruct (decide (g = f)) as [->|Hne];
          [by rewrite lookup_insert_eq|by rewrite lookup_insert_ne].
      * rewrite lookup_insert_ne by (intros Heq; by apply (Hflog g)).
        destruct (decide (g = f)) as [->|Hne];
          [by rewrite lookup_insert_eq|by rewrite lookup_insert_ne].
  - intros Hsave.
    apply (loop_establish e chk _
             (fun st => exists g, In g all_files /\ log_path g = log_path f /\
                          fst (check_ice (rustc e) g) = true /\
                          ice_dir st !! log_path f
                          = Some (snd (check_ice (rustc e) g)))
             f all_files Hin).
    + intros idx st. exists f. repeat split; try done.
      unfold iteration. destruct (decide (f ∈ chk)); [done|].
      unfold iteration_record, iteration_check. cbn [ice_dir].
      destruct (check_ice (rustc e) f) as [b out]. cbn [fst snd] in *. subst b.
      unfold save_ice_report. rewrite Hsave. cbn [ice_dir].
      by rewrite lookup_insert_eq.
    + intros idx g st Hg (h & Hh & Hlog & Hhice & Hst). unfold iteration.
      destruct (decide (g ∈ chk)); [by exists h|].
      unfold iteration_record, iteration_check. cbn [ice_dir].
      assert (endswith ".rs" g = true) as Hgrs
        by (by apply (proj1 (List.Forall_forall _ _) Hrs)).
      assert (g <> log_path f) as Hgl.
      { intros Heq. rewrite Heq, log_path_not_rs in Hgrs. done. }
      destruct (check_ice (rustc e) g) as [[|] out] eqn:Hg_out;
        [|by exists h].
      unfold save_ice_report.
      destruct (save_error e g) as [[[|] err]|]; cbn [ice_dir].
      * by exists h.
      * exists h. repeat split; try done. by rewrite lookup_insert_ne.
      * destruct (decide (log_path g = log_path f)) as [Heq|Hne].
        -- exists g. repeat split; try done; [by rewrite Hg_out|].
           by rewrite Heq, lookup_insert_eq, Hg_out.
        -- exists h. repeat split; try done.
           by rewrite !lookup_insert_ne.
Qed.

Lemma ice_unit_is_archived_witness :
  let e :=
    {| rustc := fun f =>
         if String.eqb f "ok.rs" then Completed 0 (Some EmptyString) (Some EmptyString)
         else Completed 101 (Some EmptyString)
                (Some "thread 'rustc' panicked at compiler/rustc_middle");
       read_error := None;
       save_error := fun _ => None;
       source := fun f => "// " +:+ f |} in
  ice_dir (main e Absent ["ok.rs"; "sub/ice.rs"] Uninterrupted) !! "sub/ice.rs"
  = Some "// sub/ice.rs".
Proof.
  cbv zeta.
  refine (proj1 (ice_unit_is_archived _ Absent ["ok.rs"; "sub/ice.rs"] "sub/ice.rs"
                   _ _ _ _ _)).
  - repeat constructor.
  - cbn. tauto.
  - cbn. apply not_elem_of_empty.
  - reflexivity.
  - intros err. cbn. discriminate.
Defined.

(** X8: the sweep resumes within the paths that reading the ledger
    gives back unchanged (not empty, no white space at either end, no
    line boundary inside).  Wherever the first run stops and in whatever
    order the second run lists the tree, every file has one line in the
    ledger afterwards, no unit of the loaded ledger is compiled again,
    and the ledger holds the set that a single run to the end leaves. *)
Theorem resume_within_safe_paths (e1 e2 e3 : env) (ps0 files files' : list string)
  (stop : interruption) :
  read_error e1 = None -> read_error e2 = None -> read_error e3 = None ->
  Forall ledger_safe ps0 -> Forall ledger_safe files ->
  List.NoDup ps0 -> List.NoDup files -> Permutation files files' ->
  let st1 := main e1 (Present (ledger_text ps0)) files stop in
  let st2 := main e2 (ledger_after st1) files' Uninterrupted in
  let st := main e3 (Present (ledger_text ps0)) files Uninterrupted in
  (forall p, In p files ->
             count_occ string_dec (splitlines (log_f st2)) p = 1%nat) /\
  (forall p, p ∈ fst (load_checked_files (ledger_after st1) None) ->
             ~ In p (checked_units st2)) /\
  fst (load_checked_files (ledger_after st2) None)
  = fst (load_checked_files (ledger_after st) None).
Proof. apply resume_safe_paths. Qed.

Lemma resume_within_safe_paths_witness :
  let e := {| rustc := fun _ => TimeoutExpired;
              read_error := None;
              save_error := fun _ => None;
              source := fun _ => EmptyString |} in
  let st1 := main e (Present (ledger_text [])) ["a.rs"; "b/c.rs"] (KilledAfter 1) in
  let st2 := main e (ledger_after st1) ["b/c.rs"; "a.rs"] Uninterrupted in
  let st := main e (Present (ledger_text [])) ["a.rs"; "b/c.rs"] Uninterrupted in
  (forall p, In p ["a.rs"; "b/c.rs"] ->
             count_occ string_dec (splitlines (log_f st2)) p = 1%nat) /\
  (forall p, p ∈ fst (load_checked_files (ledger_after st1) None) ->
             ~ In p (checked_units st2)) /\
  fst (load_checked_files (ledger_after st2) None)
  = fst (load_checked_files (ledger_after st) None).
Proof.
  cbv zeta.
  apply (resume_within_safe_paths _ _ _ [] ["a.rs"; "b/c.rs"] ["b/c.rs"; "a.rs"]
           (KilledAfter 1)); try reflexivity.
  - constructor.
  - repeat constructor; done.
  - constructor.
  - repeat constructor; cbn; intuition discriminate.
  - apply perm_swap.
Defined.

End ArchivePaths.

(** ** The coverage sweep: record, counters and fragments *)

Section CoverageSweep.
Import PyStr Runner Coverage.

(** The batch check touches the fragment store and the output only. *)
Lemma maybe_merge_frame (e : env) (st : state) :
  let st' := maybe_merge e st in
  record_f st' = record_f st /\ processed_set st' = processed_set st /\
  count_new_processed st' = count_new_processed st /\
  count_skipped st' = count_skipped st /\
  stat_ok st' = stat_ok st /\ stat_fail st' = stat_fail st /\
  stat_timeout st' = stat_timeout st /\
  (forall ev, In ev (stdout st) -> In ev (stdout st')) /\
  (forall rel, In (Run rel) (stdout st') -> In (Run rel) (stdout st)).
Proof.
  cbv zeta. unfold maybe_merge.
  destruct (BATCH_SIZE <=? Z.of_nat (length (incoming (disk st))))%Z; [|done].
  assert (forall r, ~ In (Run r)
            (snd (state_of (perform_merge_and_clean e (disk st))))) as Hout.
  { intros r. unfold perform_merge_and_clean.
    destruct (incoming (disk st)); [by intros []|].
    destruct (tool e (merge_command (disk st))); cbn; intuition discriminate. }
  destruct (state_of (perform_merge_and_clean e (disk st))) as [d out].
  cbn in *. repeat split; try done.
  - intros ev Hev. apply in_or_app. by left.
  - intros rel Hrel. apply in_app_or in Hrel as [|Hrel]; [done|].
    by destruct (Hout rel).
Qed.

(** What one pass of the loop does to the set of processed units. *)
Lemma iteration_processed (e : env) (file rel : string) (st : state) (p : string) :
  p ∈ processed_set (iteration e file rel st) <->
  p ∈ processed_set st \/
  (p = rel /\ endswith ".rs" file = true /\ forall err, rustc e rel <> Raised err).
Proof.
  unfold iteration. destruct (endswith ".rs" file).
  2: { split; [by left|]. by intros [?|(_ & ? & _)]. }
  destruct (decide (rel ∈ processed_set st)) as [Hin|Hnot].
  { cbn. split; [by left|]. by intros [?|(-> & _)]. }
  destruct (maybe_merge_frame e (compile_unit e rel st)) as (_ & -> & _).
  unfold compile_unit.
  destruct (rustc e rel) as [rc out err| |msg] eqn:Hr.
  - destruct (rc =? 0)%Z; cbn; rewrite elem_of_union, elem_of_singleton;
      (split; [intros [H|H]; [right; by repeat split|by left]
              |intros [H|(H & _)]; [by right|by left]]).
  - cbn. rewrite elem_of_union, elem_of_singleton. split.
    + intros [H|H]; [right; by repeat split|by left].
    + intros [H|(H & _)]; [by right|by left].
  - cbn. split; [by left|]. intros [H|(_ & _ & H)]; [done|]. by destruct (H msg).
Qed.

Lemma loop_processed (e : env) (walked : list (string * string)) (st : state)
  (p : string) :
  p ∈ processed_set (loop e walked st) <->
  p ∈ processed_set st \/
  (exists file, In (file, p) walked /\ endswith ".rs" file = true /\
                forall err, rustc e p <> Raised err).
Proof.
  revert st. induction walked as [|[file rel] walked IH]; intros st.
  - cbn. split; [by left|]. by intros [?|(? & [] & _)].
  - cbn [loop]. rewrite IH, iteration_processed. split.
    + intros [[H|(-> & H1 & H2)]|(f & Hf & H)].
      * by left.
      * right. exists file. split; [by left|done].
      * right. exists f. split; [by right|done].
    + intros [H|(f & [Hf|Hf] & H)].
      * left. by left.
      * injection Hf as Hf1 Hf2. subst. destruct H as [H1 H2].
        left. right. by repeat split.
      * right. by exists f.
Qed.

(** X9: the units the coverage sweep holds as processed when it ends
    are those of the record file it loaded and, of the Rust files it
    walked, those whose compiler run completed or timed out.  A unit
    whose run raised another exception is not among the new ones, so a
    later run meets it as new. *)
Theorem coverage_processed_set (e : env) (record_file : Sweep.disk_file)
  (d : store) (walked : list (string * string)) (p : string) :
  p ∈ processed_set (state_of (main e record_file d walked)) <->
  p ∈ fst (load_processed_files record_file (read_error e)) \/
  (exists file, In (file, p) walked /\ endswith ".rs" file = true /\
                forall err, rustc e p <> Raised err).
Proof.
  unfold main.
  destruct (load_processed_files record_file (read_error e)) as [processed warnings].
  cbn [fst].
  match goal with |- context [loop e walked ?s] =>
    pose proof (loop_processed e walked s p) as Hl; cbn [processed_set] in Hl;
    rewrite <- Hl; generalize (loop e walked s); intros l end.
  by destruct (perform_merge_and_clean e (disk (print [Finalizing] l)))
    as [[d' out]|err [d' out]].
Qed.

(** The counters of one pass of the loop. *)
Lemma iteration_counters (e : env) (file rel : string) (st : state) :
  let st' := iteration e file rel st in
  let unit_ := if endswith ".rs" file then 1%Z else 0%Z in
  (count_new_processed st' - count_new_processed st
   = (stat_ok st' - stat_ok st) + (stat_fail st' - stat_fail st)
     + (stat_timeout st' - stat_timeout st))%Z /\
  (stat_ok st <= stat_ok st')%Z /\ (stat_fail st <= stat_fail st')%Z /\
  (stat_timeout st <= stat_timeout st')%Z /\
  (count_skipped st <= count_skipped st')%Z /\
  ((count_new_processed st' + count_skipped st')
   - (count_new_processed st + count_skipped st) <= unit_)%Z /\
  ((forall err, rustc e rel <> Raised err) ->
   ((count_new_processed st' + count_skipped st')
    - (count_new_processed st + count_skipped st) = unit_)%Z).
Proof.
  cbv zeta. unfold iteration. destruct (endswith ".rs" file).
  2: { repeat split; lia. }
  destruct (decide (rel ∈ processed_set st)).
  { cbn. repeat split; lia. }
  destruct (maybe_merge_frame e (compile_unit e rel st))
    as (_ & _ & -> & -> & -> & -> & -> & _).
  unfold compile_unit.
  destruct (rustc e rel) as [rc out err| |msg].
  - destruct (rc =? 0)%Z; cbn; repeat split; lia.
  - cbn. repeat split; lia.
  - cbn. repeat split; try lia. intros H. by destruct (H msg).
Qed.

Lemma loop_counters (e : env) (walked : list (string * string)) (st : state) :
  let st' := loop e walked st in
  let units := Z.of_nat (length (List.filter (fun w => endswith ".rs" (fst w)) walked)) in
  (count_new_processed st' - count_new_processed st
   = (stat_ok st' - stat_ok st) + (stat_fail st' - stat_fail st)
     + (stat_timeout st' - stat_timeout st))%Z /\
  (stat_ok st <= stat_ok st')%Z /\ (stat_fail st <= stat_fail st')%Z /\
  (stat_timeout st <= stat_timeout st')%Z /\
  (count_skipped st <= count_skipped st')%Z /\
  ((count_new_processed st' + count_skipped st')
   - (count_new_processed st + count_skipped st) <= units)%Z /\
  ((forall rel err, rustc e rel <> Raised err) ->
   ((count_new_processed st' + count_skipped st')
    - (count_new_processed st + count_skipped st) = units)%Z).
Proof.
  cbv zeta. revert st. induction walked as [|[file rel] walked IH]; intros st.
  - cbn. repeat split; lia.
  - cbn [loop List.filter fst].
    destruct (IH (iteration e file rel st)) as (H1 & H2 & H3 & H4 & H5 & H6 & H7).
    destruct (iteration_counters e file rel st) as (I1 & I2 & I3 & I4 & I5 & I6 & I7).
    cbv zeta in I1, I2, I3, I4, I5, I6, I7.
    destruct (endswith ".rs" file); cbn [length];
      repeat split; try lia;
      intros Hr; specialize (H7 Hr); specialize (I7 (Hr rel)); lia.
Qed.

(** X10: the counters of the coverage sweep at its end.  The units newly
    processed are the runs that succeeded, failed or timed out; together
    with the units skipped they are at most the Rust files walked, and
    exactly those when no run raised another exception. *)
Theorem coverage_counters (e : env) (record_file : Sweep.disk_file)
  (d : store) (walked : list (string * string)) :
  let st := state_of (main e record_file d walked) in
  let units := Z.of_nat (length (List.filter (fun w => endswith ".rs" (fst w)) walked)) in
  (count_new_processed st = stat_ok st + stat_fail st + stat_timeout st)%Z /\
  (0 <= stat_ok st)%Z /\ (0 <= stat_fail st)%Z /\ (0 <= stat_timeout st)%Z /\
  (0 <= count_skipped st)%Z /\
  (count_new_processed st + count_skipped st <= units)%Z /\
  ((forall rel err, rustc e rel <> Raised err) ->
   (count_new_processed st + count_skipped st = units)%Z).
Proof.
  cbv zeta. unfold main.
  destruct (load_processed_files record_file (read_error e)) as [processed warnings].
  match goal with |- context [loop e walked ?s] =>
    pose proof (loop_counters e walked s) as Hl; cbv zeta in Hl;
    cbn [count_new_processed count_skipped stat_ok stat_fail stat_timeout] in Hl;
    revert Hl; generalize (loop e walked s); intros l Hl end.
  destruct Hl as (H1 & H2 & H3 & H4 & H5 & H6 & H7).
  destruct (perform_merge_and_clean e (disk (print [Finalizing] l)))
    as [[d' out]|err [d' out]]; cbn;
    repeat split; try lia; intros Hr; specialize (H7 Hr); lia.
Qed.

(** A fragment is kept when it is in the incoming directory or stands in
    a command line of the merge log. *)
Lemma merge_keeps (e : env) (d : store) (f : string) :
  (In f (incoming d) \/ exists cmd, In cmd (merged d) /\ In f cmd) ->
  let d' := fst (state_of (perform_merge_and_clean e d)) in
  (In f (incoming d') \/ exists cmd, In cmd (merged d') /\ In f cmd).
Proof.
  cbv zeta. unfold perform_merge_and_clean. intros H.
  destruct (incoming d) as [|f0 fs] eqn:Hin; [cbn; by rewrite Hin|].
  destruct (tool e (merge_command d)) as [index|rc|err]; cbn;
    [|by rewrite Hin..].
  right. destruct H as [H|(cmd & Hc & Hf)].
  - exists (merge_command d). split; [apply in_or_app; right; by left|].
    unfold merge_command. rewrite Hin.
    apply in_or_app. right. apply in_or_app. right. apply in_or_app. by left.
  - exists cmd. split; [apply in_or_app; by left|done].
Qed.

Lemma merge_ran_ok (e : env) (d : store) :
  (forall cmd, In cmd (merged d) -> exists index, tool e cmd = ToolOk index) ->
  let d' := fst (state_of (perform_merge_and_clean e d)) in
  (forall cmd, In cmd (merged d') -> exists index, tool e cmd = ToolOk index).
Proof.
  cbv zeta. unfold perform_merge_and_clean. intros H.
  destruct (incoming d) as [|f0 fs] eqn:Hin; [done|].
  destruct (tool e (merge_command d)) as [index|rc|err] eqn:Ht; cbn; [|done..].
  intros cmd [Hc|[<-|[]]]%in_app_or; [by apply H|by exists index].
Qed.

Lemma emit_keeps (new : list string) (d : store) (f : string) :
  (In f (incoming d) \/ exists cmd, In cmd (merged d) /\ In f cmd) \/ In f new ->
  In f (incoming (emit new d)) \/
  exists cmd, In cmd (merged (emit new d)) /\ In f cmd.
Proof.
  unfold emit. cbn. intros [[H|H]|H]; [left; apply in_or_app; by left|by right|].
  left. apply in_or_app.
  destruct (existsb (String.eqb f) (incoming d)) eqn:E.
  - left. apply existsb_exists in E as (x & Hx & Heq).
    by apply String.eqb_eq in Heq as ->.
  - right. apply filter_In. split; [by apply nodup_In|by rewrite E].
Qed.

Lemma iteration_fragments (e : env) (file rel : string) (st : state)
  (P : string -> Prop) :
  (forall cmd, In cmd (merged (disk st)) ->
               exists index, tool e cmd = ToolOk index) ->
  (forall f, P f -> In f (incoming (disk st)) \/
                    exists cmd, In cmd (merged (disk st)) /\ In f cmd) ->
  (forall r f, In (Run r) (stdout st) -> In f (profraws e r) ->
               In f (incoming (disk st)) \/
               exists cmd, In cmd (merged (disk st)) /\ In f cmd) ->
  let st' := iteration e file rel st in
  (forall cmd, In cmd (merged (disk st')) ->
               exists index, tool e cmd = ToolOk index) /\
  (forall f, P f -> In f (incoming (disk st')) \/
                    exists cmd, In cmd (merged (disk st')) /\ In f cmd) /\
  (forall r f, In (Run r) (stdout st') -> In f (profraws e r) ->
               In f (incoming (disk st')) \/
               exists cmd, In cmd (merged (disk st')) /\ In f cmd).
Proof.
  intros Hok HP Hrun. cbv zeta. unfold iteration.
  destruct (endswith ".rs" file); [|done].
  destruct (decide (rel ∈ processed_set st)); [done|].
  set (st1 := compile_unit e rel st).
  assert (disk st1 = emit (profraws e rel) (disk st)) as Hd.
  { unfold st1, compile_unit.
    destruct (rustc e rel) as [rc ? ?| |msg]; [destruct (rc =? 0)%Z|..]; reflexivity. }
  assert (forall r, In (Run r) (stdout st1) -> r = rel \/ In (Run r) (stdout st)) as Hs.
  { intros r. unfold st1, compile_unit.
    destruct (rustc e rel) as [rc ? ?| |msg]; [destruct (rc =? 0)%Z|..]; cbn;
      rewrite !in_app_iff; cbn; intuition congruence. }
  assert (forall f,
            In f (incoming (disk st1)) \/
            (exists cmd, In cmd (merged (disk st1)) /\ In f cmd) ->
            In f (incoming (disk (maybe_merge e st1))) \/
            exists cmd, In cmd (merged (disk (maybe_merge e st1))) /\ In f cmd) as Hm.
  { intros f Hf. unfold maybe_merge.
    destruct (BATCH_SIZE <=? Z.of_nat (length (incoming (disk st1))))%Z; [|done].
    pose proof (merge_keeps e (disk st1) f Hf) as Hk. cbv zeta in Hk.
    by destruct (state_of (perform_merge_and_clean e (disk st1))) as [d' out]. }
  assert (forall cmd, In cmd (merged (disk (maybe_merge e st1))) ->
                      exists index, tool e cmd = ToolOk index) as Hok'.
  { assert (forall cmd, In cmd (merged (disk st1)) ->
                        exists index, tool e cmd = ToolOk index) as Hok1
      by (by rewrite Hd).
    unfold maybe_merge.
    destruct (BATCH_SIZE <=? Z.of_nat (length (incoming (disk st1))))%Z; [|done].
    pose proof (merge_ran_ok e (disk st1) Hok1) as Hk. cbv zeta in Hk.
    by destruct (state_of (perform_merge_and_clean e (disk st1))) as [d' out]. }
  destruct (maybe_merge_frame e st1) as (_ & _ & _ & _ & _ & _ & _ & _ & Hback).
  split; [done|]. split.
  - intros f Hf. apply Hm. rewrite Hd. apply emit_keeps. left. by apply HP.
  - intros r f Hr Hf. apply Hm. rewrite Hd. apply emit_keeps.
    apply Hback, Hs in Hr as [->|Hr]; [by right|].
    left. by apply (Hrun r f).
Qed.

Lemma loop_fragments (e : env) (walked : list (string * string)) (st : state)
  (P : string -> Prop) :
  (forall cmd, In cmd (merged (disk st)) ->
               exists index, tool e cmd = ToolOk index) ->
  (forall f, P f -> In f (incoming (disk st)) \/
                    exists cmd, In cmd (merged (disk st)) /\ In f cmd) ->
  (forall r f, In (Run r) (stdout st) -> In f (profraws e r) ->
               In f (incoming (disk st)) \/
               exists cmd, In cmd (merged (disk st)) /\ In f cmd) ->
  let st' := loop e walked st in
  (forall cmd, In cmd (merged (disk st')) ->
               exists index, tool e cmd = ToolOk index) /\
  (forall f, P f -> In f (incoming (disk st')) \/
                    exists cmd, In cmd (merged (disk st')) /\ In f cmd) /\
  (forall r f, In (Run r) (stdout st') -> In f (profraws e r) ->
               In f (incoming (disk st')) \/
               exists cmd, In cmd (merged (disk st')) /\ In f cmd).
Proof.
  cbv zeta. revert st.
  induction walked as [|[file rel] walked IH]; intros st Hok HP Hrun.
  - done.
  - cbn [loop].
    destruct (iteration_fragments e file rel st P Hok HP Hrun) as (Hok' & HP' & Hrun').
    by apply IH.
Qed.

(** X11: the coverage sweep loses no fragment.  Every command line of
    the merge log of a run is one on which the merge tool exits with 0.
    A fragment that was in the incoming directory at the start, or that
    a compiler run of the sweep left there, is at the end either still
    in that directory or named in a command line of that log: a fragment
    is removed only after a merge that was run with it and succeeded. *)
Theorem fragments_are_kept_or_merged (e : env) (record_file : Sweep.disk_file)
  (fragments : list string) (index : option string)
  (walked : list (string * string)) :
  let d := {| incoming := fragments; profdata := index; merged := [] |} in
  let st := state_of (main e record_file d walked) in
  (forall cmd, In cmd (merged (disk st)) ->
               exists index', tool e cmd = ToolOk index') /\
  (forall f, In f fragments ->
             In f (incoming (disk st)) \/
             exists cmd, In cmd (merged (disk st)) /\ In f cmd) /\
  (forall rel f, In (Run rel) (stdout st) -> In f (profraws e rel) ->
                 In f (incoming (disk st)) \/
                 exists cmd, In cmd (merged (disk st)) /\ In f cmd).
Proof.
  cbv zeta. unfold main.
  destruct (load_processed_files record_file (read_error e)) as [processed warnings]
    eqn:Hload.
  assert (forall r, ~ In (Run r) warnings) as Hw.
  { intros r. unfold load_processed_files in Hload.
    destruct record_file as [|text]; [injection Hload as _ <-; by intros []|].
    destruct (read_error e) as [[n err]|]; injection Hload as _ <-;
      cbn; intuition discriminate. }
  match goal with |- context [loop e walked ?s] =>
    pose proof (loop_fragments e walked s (fun f => In f fragments)) as Hl;
    cbv zeta in Hl; cbn [disk stdout incoming merged] in Hl;
    destruct Hl as (Hok & HP & Hrun);
    [by intros cmd []|by left|intros r f Hr; by destruct (Hw r)|];
    revert Hok HP Hrun; generalize (loop e walked s); intros l Hok HP Hrun end.
  pose proof (fun f => merge_keeps e (disk (print [Finalizing] l)) f) as Hk.
  pose proof (merge_ran_ok e (disk (print [Finalizing] l))) as Hr.
  cbv zeta in Hk, Hr. change (disk (print [Finalizing] l)) with (disk l) in *.
  specialize (Hr Hok).
  assert (forall r out, In (Run r) (stdout (print [Finalizing] l) ++ out) ->
            (forall r', ~ In (Run r') out) -> In (Run r) (stdout l)) as Hback.
  { intros r out Hin Hout. cbn in Hin. rewrite !in_app_iff in Hin. cbn in Hin.
    destruct Hin as [[Hin|[Hin|[]]]|Hin]; [done|discriminate|by destruct (Hout r)]. }
  destruct (perform_merge_and_clean e (disk l)) as [[d' out]|err [d' out]] eqn:Hpm;
    cbn [state_of fst] in Hk, Hr; cbn [state_of disk print set_disk stdout].
  - assert (forall r', ~ In (Run r') out) as Hout.
    { intros r'. unfold perform_merge_and_clean in Hpm.
      destruct (incoming (disk l)); [injection Hpm as _ <-; by intros []|].
      destruct (tool e _); try discriminate; injection Hpm as _ <-;
        cbn; intuition discriminate. }
    split; [done|]. split.
    + intros f Hf. by apply Hk, HP.
    + intros r f Hin Hf. apply Hk, (Hrun r f); [|done].
      rewrite in_app_iff in Hin. destruct Hin as [Hin|[Hin|[]]]; [|discriminate].
      by apply (Hback r out).
  - assert (forall r', ~ In (Run r') out) as Hout.
    { intros r'. unfold perform_merge_and_clean in Hpm.
      destruct (incoming (disk l)); [discriminate|].
      destruct (tool e _); try discriminate. injection Hpm as _ _ <-.
      cbn; intuition discriminate. }
    split; [done|]. split.
    + intros f Hf. by apply Hk, HP.
    + intros r f Hin Hf. apply Hk, (Hrun r f); [|done].
      by apply (Hback r out).
Qed.

(** X12: the coverage sweep ends normally whenever the merge tool can
    be started.  A merge that fails, in the loop or at the end, does not
    stop it, whatever the compiler runs do: [main] returns, and the
    line it prints last is the summary of its counters. *)
Theorem coverage_main_returns (e : env) (record_file : Sweep.disk_file) (d : store)
  (walked : list (string * string)) :
  (forall cmd err, tool e cmd <> ToolRaised err) ->
  exists st,
    main e record_file d walked = Returns st /\
    last (stdout st)
    = Some (Summary (count_new_processed st) (stat_ok st) (stat_fail st)
                    (stat_timeout st) (count_skipped st)).
Proof.
  intros Htool. unfold main.
  destruct (load_processed_files record_file (read_error e)) as [processed warnings].
  match goal with |- context [print [Finalizing] ?x] =>
    generalize (print [Finalizing] x); intros st0 end.
  unfold perform_merge_and_clean.
  destruct (incoming (disk st0)) as [|f fs].
  { eexists. split; [reflexivity|]. cbn. by rewrite last_snoc. }
  destruct (tool e (merge_command (disk st0))) as [index|rc|err] eqn:Ht.
  - eexists. split; [reflexivity|]. cbn. by rewrite last_snoc.
  - eexists. split; [reflexivity|]. cbn. by rewrite last_snoc.
  - by destruct (Htool _ _ Ht).
Qed.

Lemma coverage_main_returns_witness :
  exists st,
    main {| rustc := fun _ => Completed 1 None None;
            profraws := fun rel => ["coverage_incoming/cov_" +:+ rel +:+ ".profraw"];
            tool := fun _ => ToolFailed 1;
            remove_error := fun _ => false;
            read_error := None |}
         Sweep.Absent
         {| incoming := []; profdata := None; merged := [] |}
         [("a.rs", "code_gen/a.rs"); ("notes.txt", "code_gen/notes.txt")]
    = Returns st /\
    last (stdout st)
    = Some (Summary (count_new_processed st) (stat_ok st) (stat_fail st)
                    (stat_timeout st) (count_skipped st)).
Proof.
  apply coverage_main_returns. intros cmd err. discriminate.
Defined.

End CoverageSweep.

(** ** Resuming the coverage sweep *)

Section CoverageResume.
Import PyStr Runner Coverage Record.

Lemma readlines_from_line (cur p rest : string) :
  no_newline p ->
  readlines_from cur (p +:+ NL +:+ rest)
  = (cur +:+ p +:+ NL) :: readlines_from EmptyString rest.
Proof.
  unfold no_newline. revert cur.
  induction p as [|c p IH]; intros cur Hp.
  - by rewrite !append_nil.
  - cbn [list_ascii_of_string forallb] in Hp.
    apply andb_prop in Hp as [Hc Hp].
    apply negb_true_iff, orb_false_elim in Hc as [Hlf Hcr].
    rewrite append_cons. cbn [readlines_from]. rewrite Hlf, Hcr.
    rewrite (IH _ Hp). by rewrite append_assoc, append_cons, append_nil.
Qed.

Lemma readlines_ledger_text (ps : list string) :
  Forall no_newline ps ->
  readlines (Sweep.ledger_text ps) = List.map (fun p => p +:+ NL) ps.
Proof.
  unfold readlines. induction 1 as [|p ps Hp _ IH]; [done|].
  cbn [Sweep.ledger_text List.map].
  change Sweep.NL with NL.
  by rewrite (readlines_from_line EmptyString p _ Hp), append_nil, IH.
Qed.

Lemma rstrip_snoc_space (a : string) (c : ascii) :
  is_space c = true -> rstrip (a +:+ String c EmptyString) = rstrip a.
Proof.
  intros Hc. induction a as [|x a IH].
  - rewrite append_nil. cbn. by rewrite Hc.
  - rewrite append_cons. cbn [rstrip]. by rewrite IH.
Qed.

Lemma strip_line (p : string) : strip p = p -> strip (p +:+ NL) = p.
Proof.
  intros Hp.
  assert (starts_clean p) as Hclean.
  { rewrite <- Hp. apply rstrip_starts_clean, lstrip_starts_clean. }
  destruct p as [|c p]; [done|].
  unfold strip in *. rewrite (lstrip_clean _ Hclean) in Hp.
  assert (lstrip (String c p +:+ NL) = String c p +:+ NL) as ->.
  { rewrite append_cons. cbn in Hclean. cbn [lstrip]. by rewrite Hclean. }
  unfold NL. by rewrite rstrip_snoc_space.
Qed.

(** What was written line by line is read back as it was. *)
Lemma load_record_text (ps : list string) :
  Forall record_safe ps ->
  fst (load_processed_files (Sweep.Present (Sweep.ledger_text ps)) None)
  = list_to_set ps.
Proof.
  intros Hs. cbn [load_processed_files fst].
  rewrite readlines_ledger_text
    by (eapply Forall_impl; [exact Hs|by intros p [_ ?]]).
  f_equal. rewrite List.map_map.
  induction Hs as [|p ps [Hp _] _ IH]; [done|].
  cbn [List.map]. by rewrite strip_line, IH.
Qed.

Lemma ledger_text_empty (ps : list string) :
  Sweep.ledger_text ps = EmptyString -> ps = [].
Proof.
  destruct ps as [|p ps]; [done|]. cbn [Sweep.ledger_text].
  destruct p; [|by rewrite append_cons]. by rewrite append_nil.
Qed.

(** The record file and the set of processed units go together. *)
Lemma iteration_record_text (e : env) (file rel : string) (st : state)
  (ps : list string) :
  record_f st = Sweep.ledger_text ps -> processed_set st = list_to_set ps ->
  exists ps',
    record_f (iteration e file rel st) = Sweep.ledger_text (ps ++ ps') /\
    processed_set (iteration e file rel st) = list_to_set (ps ++ ps') /\
    (ps' = [] \/ ps' = [rel]).
Proof.
  intros Hr Hp. unfold iteration.
  destruct (endswith ".rs" file);
    [|exists []; rewrite app_nil_r; repeat split; try done; by left].
  destruct (decide (rel ∈ processed_set st));
    [exists []; rewrite app_nil_r; cbn; repeat split; try done; by left|].
  destruct (maybe_merge_frame e (compile_unit e rel st)) as (-> & -> & _).
  assert (Sweep.ledger_text (ps ++ [rel]) = record_f st +:+ rel +:+ NL) as Htext.
  { rewrite ledger_text_app, Hr. cbn [Sweep.ledger_text].
    by rewrite append_nil_r. }
  assert (list_to_set (ps ++ [rel]) = ({[ rel ]} ∪ processed_set st : gset string))
    as Hset.
  { rewrite Hp, list_to_set_app_L. cbn [list_to_set].
    by rewrite union_empty_r_L, union_comm_L. }
  unfold compile_unit.
  destruct (rustc e rel) as [rc out err| |msg].
  - exists [rel]. rewrite Htext, Hset.
    destruct (rc =? 0)%Z; repeat split; try done; by right.
  - exists [rel]. rewrite Htext, Hset. repeat split; try done; by right.
  - exists []. rewrite app_nil_r. repeat split; try done; by left.
Qed.

Lemma loop_record_text (e : env) (walked : list (string * string)) (st : state)
  (ps : list string) :
  Forall record_safe ps -> Forall record_safe (List.map snd walked) ->
  record_f st = Sweep.ledger_text ps -> processed_set st = list_to_set ps ->
  exists ps',
    Forall record_safe ps' /\
    record_f (loop e walked st) = Sweep.ledger_text ps' /\
    processed_set (loop e walked st) = list_to_set ps'.
Proof.
  revert st ps. induction walked as [|[file rel] walked IH];
    intros st ps Hs Hw Hr Hp.
  - by exists ps.
  - cbn [loop]. cbn [List.map snd] in Hw.
    apply List.Forall_cons_iff in Hw as [Hrel Hw].
    destruct (iteration_record_text e file rel st ps Hr Hp)
      as (ps' & Hr' & Hp' & Hps').
    apply (IH _ (ps ++ ps')); try done.
    apply Forall_app. split; [done|].
    destruct Hps' as [->| ->]; [done|].
    constructor; [exact Hrel|constructor].
Qed.

(** A unit of the processed set is not run. *)
Lemma loop_runs (e : env) (walked : list (string * string)) (st : state)
  (p : string) :
  p ∈ processed_set st -> In (Run p) (stdout (loop e walked st)) ->
  In (Run p) (stdout st).
Proof.
  revert st. induction walked as [|[file rel] walked IH]; intros st Hp Hrun;
    [done|].
  cbn [loop] in Hrun. apply IH in Hrun.
  2: { apply iteration_processed. by left. }
  revert Hrun. unfold iteration.
  destruct (endswith ".rs" file); [|done].
  destruct (decide (rel ∈ processed_set st)) as [|Hnot]; [done|].
  intros Hrun.
  destruct (maybe_merge_frame e (compile_unit e rel st))
    as (_ & _ & _ & _ & _ & _ & _ & _ & Hback).
  apply Hback in Hrun. revert Hrun. unfold compile_unit.
  assert (p <> rel) as Hne by (by intros ->).
  destruct (rustc e rel) as [rc ? ?| |msg]; [destruct (rc =? 0)%Z|..]; cbn;
    rewrite !in_app_iff; cbn; intuition congruence.
Qed.

(** X13: the coverage sweep resumes from its record file.  When the
    record file holds lines that the sweep wrote (or is absent) and the
    relative paths of the tree are given back by the reader as written
    (no white space at either end, no LF and no CR inside), the set
    that the next run loads from the record file is the set this run
    ended with, and the next run hands none of these units to the
    compiler. *)
Theorem coverage_resume (e e2 : env) (record_file : Sweep.disk_file)
  (ps0 : list string) (d d2 : store) (walked walked2 : list (string * string)) :
  read_error e = None ->
  Sweep.text_of record_file = Sweep.ledger_text ps0 ->
  Forall record_safe ps0 -> Forall record_safe (List.map snd walked) ->
  let st := state_of (main e record_file d walked) in
  let st2 := state_of (main e2 (Sweep.Present (record_f st)) d2 walked2) in
  fst (load_processed_files (Sweep.Present (record_f st)) None) = processed_set st /\
  (read_error e2 = None -> forall p, p ∈ processed_set st -> ~ In (Run p) (stdout st2)).
Proof.
  intros He Htext Hs0 Hw. cbv zeta.
  assert (exists ps, Forall record_safe ps /\
            record_f (state_of (main e record_file d walked)) = Sweep.ledger_text ps /\
            processed_set (state_of (main e record_file d walked)) = list_to_set ps)
    as (ps & Hs & Hr & Hp).
  { unfold main. rewrite He.
    assert (load_processed_files record_file None = (list_to_set ps0, [])) as ->.
    { destruct record_file as [|text]; cbn [Sweep.text_of] in Htext.
      - symmetry in Htext. by apply ledger_text_empty in Htext as ->.
      - subst text. pose proof (load_record_text ps0 Hs0) as Hl.
        cbn [load_processed_files fst] in *. by rewrite Hl. }
    match goal with |- context [loop e walked ?s] =>
      destruct (loop_record_text e walked s ps0 Hs0 Hw Htext eq_refl)
        as (ps & Hs & Hr & Hp);
      revert Hr Hp; generalize (loop e walked s); intros l Hr Hp end.
    exists ps. split; [done|].
    by destruct (perform_merge_and_clean e (disk (print [Finalizing] l)))
      as [[d' out]|err [d' out]]. }
  rewrite Hr, Hp. split; [by apply load_record_text|].
  intros He2 p Hin. unfold main. rewrite He2.
  pose proof (load_record_text ps Hs) as Hl.
  destruct (load_processed_files (Sweep.Present (Sweep.ledger_text ps)) None)
    as [processed warnings] eqn:Hload.
  cbn [fst] in Hl. subst processed.
  assert (warnings = []) as -> by (cbn in Hload; by injection Hload as _ <-).
  match goal with |- context [loop e2 walked2 ?s] =>
    pose proof (loop_runs e2 walked2 s p Hin) as Hruns; cbn [stdout] in Hruns;
    revert Hruns; generalize (loop e2 walked2 s); intros l Hruns end.
  assert (forall out d', (forall r, ~ In (Run r) out) ->
            ~ In (Run p) (stdout (print out (set_disk d' (print [Finalizing] l)))))
    as Hfin.
  { intros out d' Hout. cbn. rewrite !in_app_iff. cbn.
    intros [[H|[H|[]]]|H]; [by apply Hruns in H|discriminate|by destruct (Hout p)]. }
  unfold perform_merge_and_clean. cbn [disk print].
  destruct (incoming (disk l)) as [|f0 fs].
  { cbn. rewrite !in_app_iff. cbn.
    intros [[[H|[H|[]]]|[]]|[H|[]]]; [by apply Hruns in H|discriminate..]. }
  destruct (tool e2 (merge_command (disk l))) as [index|rc|err]; cbn;
    rewrite !in_app_iff; cbn; rewrite ?in_app_iff; cbn;
    intuition (try discriminate; eauto).
Qed.

Lemma coverage_resume_witness :
  let e := {| rustc := fun _ => TimeoutExpired;
              profraws := fun _ => [];
              tool := fun _ => ToolFailed 1;
              remove_error := fun _ => false;
              read_error := None |} in
  let walked := [("a.rs", "code_gen/a.rs"); ("b.rs", "code_gen/sub/b.rs")] in
  let d := {| incoming := []; profdata := None; merged := [] |} in
  let st := state_of (main e Sweep.Absent d walked) in
  fst (load_processed_files (Sweep.Present (record_f st)) None) = processed_set st.
Proof.
  cbv zeta.
  refine (proj1 (coverage_resume
                   {| rustc := fun _ => TimeoutExpired;
                      profraws := fun _ => [];
                      tool := fun _ => ToolFailed 1;
                      remove_error := fun _ => false;
                      read_error := None |}
                   {| rustc := fun _ => TimeoutExpired;
                      profraws := fun _ => [];
                      tool := fun _ => ToolFailed 1;
                      remove_error := fun _ => false;
                      read_error := None |}
                   Sweep.Absent []
                   {| incoming := []; profdata := None; merged := [] |}
                   {| incoming := []; profdata := None; merged := [] |}
                   [("a.rs", "code_gen/a.rs"); ("b.rs", "code_gen/sub/b.rs")] []
                   _ _ _ _)).
  - reflexivity.
  - reflexivity.
  - constructor.
  - repeat constructor.
Defined.

End CoverageResume.

(** ** The candidate roots and the depth of a tree *)

Section RootsSpec.
Import PyStr Ast.

(** The loop keeps nothing but what it was given and the nodes under its
    stack that are not wrappers. *)
Lemma collect_loop_sound (fuel : nat) (stack result : list node) (x : node) :
  In x (collect_loop fuel stack result) ->
  In x result \/
  (is_source_file (type x) = false /\
   exists r, In r stack /\ named_descendant r x).
Proof.
  revert stack result. induction fuel as [|fuel IH]; intros stack result H;
    [by left|].
  cbn [collect_loop] in H.
  destruct (rev stack) as [|current below] eqn:Hrev; [by left|].
  assert (stack = rev below ++ [current]) as ->.
  { apply (f_equal (@rev node)) in Hrev. by rewrite rev_involutive in Hrev. }
  apply IH in H as [H|(Hx & r & Hr & Hd)].
  - destruct (is_source_file (type current)) eqn:E; [by left|].
    apply in_app_or in H as [H|[<-|[]]]; [by left|].
    right. split; [done|]. exists current. split; [|constructor].
    apply in_or_app. right. by left.
  - right. split; [done|].
    apply in_app_or in Hr as [Hr|Hr].
    + exists r. split; [|done]. apply in_or_app. by left.
    + exists current. split; [apply in_or_app; right; by left|].
      by apply (nd_child current r x).
Qed.

(** X14: the candidate roots collected from a tree are the nodes that
    lie under the root on a path of named nodes, the root included, and
    that are not [source_file] wrappers; the list that is passed in is
    empty, as [match_and_save] passes it. *)
Theorem candidate_roots_spec (root x : node) :
  In x (collect_candidate_roots root []) <->
  named_descendant root x /\ is_source_file (type x) = false.
Proof.
  split.
  - intros H. unfold collect_candidate_roots in H.
    apply collect_loop_sound in H as [[]|(Hx & r & [<-|[]] & Hd)]. done.
  - intros [Hd Hx]. by apply collect_candidate_roots_reaches.
Qed.

Lemma fold_max_ge (xs : list Z) (x0 x : Z) :
  x = x0 \/ In x xs -> (x <= fold_left Z.max xs x0)%Z.
Proof.
  revert x0 x. induction xs as [|y xs IH]; intros x0 x H.
  - destruct H as [->|[]]. cbn. lia.
  - cbn [fold_left].
    pose proof (IH (Z.max x0 y) (Z.max x0 y) (or_introl eq_refl)) as Hm.
    destruct H as [->|[->|H]]; [lia|lia|].
    apply IH. by right.
Qed.

Lemma fold_max_in (xs : list Z) (x0 : Z) :
  fold_left Z.max xs x0 = x0 \/ In (fold_left Z.max xs x0) xs.
Proof.
  revert x0. induction xs as [|y xs IH]; intros x0; [by left|].
  cbn [fold_left]. destruct (IH (Z.max x0 y)) as [H|H].
  - rewrite H. destruct (Z.max_spec x0 y) as [[_ ->]|[_ ->]];
      [right; by left|by left].
  - right. by right.
Qed.

Lemma py_max_ge (l : list Z) (x : Z) : In x l -> (x <= py_max l)%Z.
Proof.
  destruct l as [|x0 xs]; [done|]. cbn [py_max]. intros [->|H].
  - apply fold_max_ge. by left.
  - apply fold_max_ge. by right.
Qed.

Lemma py_max_in (l : list Z) : l <> [] -> In (py_max l) l.
Proof.
  destruct l as [|x0 xs]; [done|]. intros _. cbn [py_max].
  destruct (fold_max_in xs x0) as [->|H]; [by left|by right].
Qed.

(** X15: the depth of a tree.  It is at least 0 and at most the number
    of nodes; a node that is not a wrapper has depth 1 or more; and a
    named child lies one level below its parent, or on the level of its
    parent when the parent is a wrapper. *)
Theorem ast_depth_bounds (n : node) :
  (0 <= ast_depth n <= Z.of_nat (size n))%Z /\
  (is_source_file (type n) = false -> (1 <= ast_depth n)%Z) /\
  (forall c, In c (named_children n) ->
             (ast_depth c + (if is_source_file (type n) then 0 else 1)
              <= ast_depth n)%Z).
Proof.
  assert (forall m c, In c (named_children m) ->
            (ast_depth c + (if is_source_file (type m) then 0 else 1)
             <= ast_depth m)%Z) as Hchild.
  { intros m c Hc. rewrite (ast_depth_unfold m). cbv zeta.
    assert (In (ast_depth c) (List.map ast_depth (named_children m))) as Hin
      by (by apply in_map).
    pose proof (py_max_ge _ _ Hin) as Hle.
    destruct (List.map ast_depth (named_children m)) as [|d0 ds]; [done|].
    destruct (is_source_file (type m)); lia. }
  assert (forall m, (0 <= ast_depth m <= Z.of_nat (size m))%Z /\
                    (is_source_file (type m) = false -> (1 <= ast_depth m)%Z))
    as Hb.
  { induction m as [t b cs IH] using node_ind'.
    rewrite ast_depth_unfold. cbv zeta. cbn [type].
    pose proof (size_named_children (Node t b cs)) as Hsize.
    set (kids := named_children (Node t b cs)) in *.
    assert (Forall (fun c => (0 <= ast_depth c <= Z.of_nat (size c))%Z) kids) as Hk.
    { apply List.Forall_forall. intros c Hc.
      apply filter_In in Hc as [Hc _]. cbn [children] in Hc.
      by apply (proj1 (List.Forall_forall _ _) IH c Hc). }
    destruct (List.map ast_depth kids) as [|d0 ds] eqn:Hd.
    { destruct (is_source_file t); split; try lia; done. }
    assert (In (py_max (d0 :: ds)) (List.map ast_depth kids)) as Hin
      by (rewrite Hd; by apply py_max_in).
    apply in_map_iff in Hin as (c & Hc & Hin).
    pose proof (proj1 (List.Forall_forall _ _) Hk c Hin) as Hcb.
    assert (size c <= list_sum (List.map size kids))%nat as Hsum.
    { clear -Hin. induction kids as [|k kids IH]; [done|].
      simpl. destruct Hin as [->|Hin]; [lia|].
      specialize (IH Hin). lia. }
    cbv beta in Hcb.
    rewrite <- Hc. destruct (is_source_file t); split; try lia; intros _; lia. }
  split; [apply Hb|]. split; [apply Hb|apply Hchild].
Qed.

End RootsSpec.

(** ** The scores and the outcomes of a query *)

Section QueryFacts.
Import PyStr Ast Sklearn.
Local Open Scope R_scope.

Lemma fold_reaches_nonempty (f : Counter -> node -> Counter) (ns : list node)
  (x : node) (c : Counter) :
  In x ns -> (forall c, f c x <> []) ->
  (forall c n, c <> [] -> f c n <> []) -> fold_left f ns c <> [].
Proof.
  intros Hin Hx Hkeep. revert c.
  induction ns as [|n ns IH]; intros c; [done|].
  cbn [fold_left]. destruct Hin as [->|Hin].
  - by apply fold_keeps_nonempty.
  - by apply IH.
Qed.

(** A tree of depth 2 or more gives a bigram. *)
Lemma deep_counter_nonempty (n : node) :
  forall (c : Counter) (D d : Z),
    (2 <= ast_depth n)%Z -> (d < D)%Z -> ast_2gram_limited n c D d <> [].
Proof.
  induction n as [t b cs IH] using node_ind'. intros c D d Hdepth Hd.
  assert (forall c0 m, c0 <> [] -> forall D' d', ast_2gram_limited m c0 D' d' <> [])
    as Hkeep.
  { intros c0 m Hc0 D' d'.
    apply (ast_2gram_limited_keeps (fun c => c <> [])); [|done].
    intros k c1 _. apply incr_nonempty. }
  rewrite ast_depth_unfold in Hdepth. cbv zeta in Hdepth. cbn [type] in Hdepth.
  destruct (is_source_file t) eqn:E.
  - rewrite wrapper_unfold by done.
    destruct (List.map ast_depth (named_children (Node t b cs))) as [|d0 ds] eqn:Hds;
      [lia|].
    assert (In (py_max (d0 :: ds))
               (List.map ast_depth (named_children (Node t b cs)))) as Hin
      by (rewrite Hds; by apply py_max_in).
    apply in_map_iff in Hin as (x & Hx & Hin).
    apply (fold_reaches_nonempty _ _ x); [done| |].
    + intros c0.
      apply filter_In in Hin as [Hin _]. cbn [children] in Hin.
      apply (proj1 (List.Forall_forall _ _) IH x Hin); [lia|done].
    + intros c0 m Hc0. by apply Hkeep.
  - rewrite inner_unfold by done.
    destruct (named_children (Node t b cs)) as [|x xs] eqn:Hkids;
      [cbn in Hdepth; lia|].
    cbn [fold_left]. apply fold_keeps_nonempty.
    + intros c0 m Hc0. apply Hkeep.
      destruct c0; [done|]. apply incr_nonempty.
    + apply Hkeep, incr_nonempty.
Qed.

Lemma dot_nonneg (v w : list R) :
  Forall (fun x => 0 <= x) v -> Forall (fun x => 0 <= x) w -> 0 <= dot v w.
Proof.
  intros Hv. revert w. induction Hv as [|a v Ha _ IH]; intros w Hw; [cbn; lra|].
  destruct Hw as [|b w Hb Hw]; [cbn; lra|].
  cbn [dot]. specialize (IH w Hw). nra.
Qed.

Lemma normalize_nonneg (v : list R) :
  Forall (fun x => 0 <= x) v -> Forall (fun x => 0 <= x) (normalize v).
Proof.
  intros Hv. unfold normalize.
  destruct (Req_EM_T (l2_norm v) 0) as [|Hne]; [done|].
  assert (0 < l2_norm v) as Hpos.
  { unfold l2_norm in *. pose proof (sqrt_pos (dot v v)). lra. }
  apply List.Forall_forall. intros y Hy.
  apply in_map_iff in Hy as (x & <- & Hx).
  pose proof (proj1 (List.Forall_forall _ _) Hv x Hx) as H0.
  apply Rmult_le_pos; [done|]. left. by apply Rinv_0_lt_compat.
Qed.

Lemma tfidf_row_nonneg (vocab : list string) (docs : list (list string))
  (d : list string) :
  Forall (fun x => 0 <= x) (tfidf_row vocab docs d).
Proof.
  unfold tfidf_row. apply List.Forall_forall. intros y Hy.
  apply in_map_iff in Hy as (t & <- & _).
  pose proof (idf_ge_1 (length docs) (df t docs) (df_le t docs)).
  pose proof (pos_INR (count_occ string_dec d t)).
  unfold tf. nra.
Qed.

Lemma fit_transform_nonneg (docs : list string) (rows : list (list R)) :
  fit_transform docs = Some rows ->
  Forall (Forall (fun x => 0 <= x)) rows.
Proof.
  unfold fit_transform.
  destruct (vocabulary (List.map analyze docs)) as [|v vs]; [done|].
  intros H. injection H as <-.
  apply List.Forall_forall. intros r Hr.
  apply in_map_iff in Hr as (d & <- & _).
  apply normalize_nonneg.
  exact (tfidf_row_nonneg (v :: vs) (List.map analyze docs) d).
Qed.

Lemma scores_in_range (snippet_doc : string) (counters : list Counter)
  (sims : list R) :
  similarities snippet_doc counters = Some sims ->
  Forall (fun s => 0 <= s <= 1) sims.
Proof.
  unfold similarities.
  destruct (fit_transform (snippet_doc :: List.map counter_to_doc counters))
    as [[|x Y]|] eqn:Hft; [done| |done].
  apply fit_transform_nonneg in Hft.
  apply List.Forall_cons_iff in Hft as [Hx HY].
  intros H. injection H as <-. unfold cosine_similarity.
  apply List.Forall_forall. intros s Hs.
  apply in_map_iff in Hs as (y & <- & Hy).
  split; [|apply cosine_le_1].
  apply dot_nonneg; apply normalize_nonneg; [done|].
  by apply (proj1 (List.Forall_forall _ _) HY).
Qed.

(** X16: every similarity score of a query lies between 0 and 1: the
    rows of the TF-IDF matrix have no negative entry, and both sides of
    a cosine are normalized (the arithmetic is that of the real
    numbers). *)
Theorem similarities_range (snippet_doc : string) (counters : list Counter)
  (sims : list R) :
  similarities snippet_doc counters = Some sims ->
  Forall (fun s => 0 <= s <= 1) sims.
Proof. apply scores_in_range. Qed.

Lemma similarities_range_witness :
  Forall (fun s => 0 <= s <= 1) [1 / 2; 1 / 2; 1 / 2; 1 / 2].
Proof.
  apply (similarities_range
           (counter_to_doc (ast_2gram_limited four_items [] 2 1))
           (candidate_counters four_items 2)).
  exact four_items_similarities.
Defined.

Lemma any_ge_mono (t t' : R) (sims : list R) :
  t' <= t -> any_ge t sims = true -> any_ge t' sims = true.
Proof.
  intros Hle H. unfold any_ge in *.
  apply existsb_exists in H as (s & Hs & H). apply existsb_exists.
  exists s. split; [done|].
  destruct (Rge_dec s t); [|done]. destruct (Rge_dec s t'); [done|lra].
Qed.

Lemma any_ge_above (t : R) (sims : list R) :
  Forall (fun s => 0 <= s <= 1) sims -> 1 < t -> any_ge t sims = false.
Proof.
  intros Hs Ht. unfold any_ge.
  destruct (existsb _ sims) eqn:E; [|done].
  apply existsb_exists in E as (s & Hin & H).
  pose proof (proj1 (List.Forall_forall _ _) Hs s Hin).
  destruct (Rge_dec s t); [lra|done].
Qed.

(** The vectorizer finds a term in the document of a snippet of depth 2
    or more, so it does not raise. *)
Lemma similarities_defined (root : node) (counters : list Counter) :
  (1 < ast_depth root)%Z ->
  exists sims,
    similarities (counter_to_doc (ast_2gram_limited root [] (ast_depth root) 1))
                 counters = Some sims.
Proof.
  intros Hdepth.
  set (doc := counter_to_doc (ast_2gram_limited root [] (ast_depth root) 1)).
  assert (analyze doc <> []) as Hterm.
  { apply counter_to_doc_has_term.
    - apply deep_counter_nonempty; lia.
    - apply ast_2gram_limited_positive. }
  unfold similarities.
  set (docs := doc :: List.map counter_to_doc counters).
  destruct (analyze doc) as [|t ts] eqn:Ha; [done|].
  assert (In t (vocabulary (List.map analyze docs))) as Hv.
  { unfold vocabulary. apply nodup_In, in_concat.
    exists (analyze doc). split; [by left|]. rewrite Ha. by left. }
  rewrite (fit_transform_rows docs)
    by (by destruct (vocabulary (List.map analyze docs))).
  unfold docs at 1. cbn [List.map]. by eexists.
Qed.

(** The paths of a call of [match_and_save]: the scores depend on the
    two texts alone, the threshold decides, and the file system is
    touched when a score passes. *)
Lemma match_and_save_paths (parse : string -> node)
  (snippet_code full_code : string) :
  (forall save_path t fs,
      match_and_save parse snippet_code full_code save_path t fs
      = (Returned false, fs)) \/
  exists sims,
    Forall (fun s => 0 <= s <= 1) sims /\
    (forall save_path t fs,
        match_and_save parse snippet_code full_code save_path t fs
        = if any_ge t sims then
            match Fs.makedirs (PyPath.dirname save_path) fs with
            | inl err => (Raised err, fs)
            | inr fs1 =>
                match Fs.write_file save_path full_code fs1 with
                | inl err => (Raised err, fs1)
                | inr fs2 => (Returned true, fs2)
                end
            end
          else (Returned false, fs)).
Proof.
  unfold match_and_save.
  destruct (ast_depth (parse snippet_code) <=? 1)%Z eqn:Hd; [by left|].
  apply Z.leb_gt in Hd.
  destruct (candidate_counters (parse full_code) (ast_depth (parse snippet_code)))
    as [|c0 cs0] eqn:Hc; [by left|].
  destruct (similarities_defined (parse snippet_code) (c0 :: cs0) Hd)
    as (sims & Hsims).
  right. exists sims. split; [by apply (scores_in_range _ _ _ Hsims)|].
  intros save_path t fs. by rewrite Hsims.
Qed.

(** The sample query: the statement [if a > b { g(); }] against the
    function that holds it.  One of its scores is 1. *)
Lemma sample_query_scores :
  exists sims,
    similarities
      (counter_to_doc (ast_2gram_limited if_snippet [] (ast_depth if_snippet) 1))
      (candidate_counters holder (ast_depth if_snippet)) = Some sims /\
    any_ge (6 / 10) sims = true.
Proof.
  destruct (similarities_self
              (counter_to_doc (ast_2gram_limited if_snippet [] (ast_depth if_snippet) 1))
              (candidate_counters holder (ast_depth if_snippet)))
    as (sims & Hsims & Hone & _).
  - apply counter_to_doc_has_term.
    + apply deep_counter_nonempty; [vm_compute; discriminate|reflexivity].
    + apply ast_2gram_limited_positive.
  - apply in_map. vm_compute. tauto.
  - exists sims. split; [done|]. apply (any_ge_intro _ 1); [done|lra].
Qed.

Lemma sample_query_matches :
  exists sims,
    any_ge (6 / 10) sims = true /\
    (forall save_path t fs,
        match_and_save sample_parse "if a > b { g(); }"
          "fn f() { let x = 1; if a > b { g(); } }" save_path t fs
        = if any_ge t sims then
            match Fs.makedirs (PyPath.dirname save_path) fs with
            | inl err => (Raised err, fs)
            | inr fs1 =>
                match Fs.write_file save_path
                        "fn f() { let x = 1; if a > b { g(); } }" fs1 with
                | inl err => (Raised err, fs1)
                | inr fs2 => (Returned true, fs2)
                end
            end
          else (Returned false, fs)).
Proof.
  destruct sample_query_scores as (sims & Hsims & Hany).
  exists sims. split; [done|]. intros save_path t fs.
  unfold match_and_save.
  change (sample_parse "if a > b { g(); }") with if_snippet.
  change (sample_parse "fn f() { let x = 1; if a > b { g(); } }") with holder.
  destruct (ast_depth if_snippet <=? 1)%Z eqn:Hd; [discriminate Hd|].
  rewrite Hsims.
  destruct (candidate_counters holder (ast_depth if_snippet)) as [|c0 cs0] eqn:Hcc;
    [vm_compute in Hcc; discriminate Hcc|].
  done.
Qed.

Lemma sample_query_is_saved :
  fst (match_and_save sample_parse "if a > b { g(); }"
         "fn f() { let x = 1; if a > b { g(); } }" "matched/f.rs" (6 / 10)
         {| Fs.files := ∅; Fs.dirs := ∅ |})
  = Returned true.
Proof.
  destruct sample_query_matches as (sims & Hany & Hpaths).
  rewrite Hpaths, Hany. vm_compute. reflexivity.
Qed.

(** X17: lowering the threshold loses no match.  A query that saves the
    file at one threshold does the same at every lower one. *)
Theorem lower_threshold_keeps_match (parse : string -> node)
  (snippet_code full_code save_path : string) (t t' : R) (fs : Fs.filesystem) :
  t' <= t ->
  fst (match_and_save parse snippet_code full_code save_path t fs) = Returned true ->
  match_and_save parse snippet_code full_code save_path t' fs
  = match_and_save parse snippet_code full_code save_path t fs.
Proof.
  intros Hle Hsaved.
  destruct (match_and_save_paths parse snippet_code full_code)
    as [Hno|(sims & _ & Hpaths)].
  - by rewrite Hno in Hsaved.
  - rewrite Hpaths in Hsaved. rewrite !Hpaths.
    destruct (any_ge t sims) eqn:Hany; [|done].
    by rewrite (any_ge_mono t t' sims Hle Hany).
Qed.

Lemma lower_threshold_keeps_match_witness :
  match_and_save sample_parse "if a > b { g(); }"
    "fn f() { let x = 1; if a > b { g(); } }" "matched/f.rs" (1 / 2)
    {| Fs.files := ∅; Fs.dirs := ∅ |}
  = match_and_save sample_parse "if a > b { g(); }"
      "fn f() { let x = 1; if a > b { g(); } }" "matched/f.rs" (6 / 10)
      {| Fs.files := ∅; Fs.dirs := ∅ |}.
Proof.
  apply lower_threshold_keeps_match; [lra|].
  exact sample_query_is_saved.
Defined.




(** X19: with a threshold above 1 nothing is saved: the call answers
    [False] and leaves the file system as it was. *)
Theorem threshold_above_one_never_matches (parse : string -> node)
  (snippet_code full_code save_path : string) (t : R) (fs : Fs.filesystem) :
  1 < t ->
  match_and_save parse snippet_code full_code save_path t fs = (Returned false, fs).
Proof.
  intros Ht.
  destruct (match_and_save_paths parse snippet_code full_code)
    as [Hno|(sims & Hrange & Hpaths)]; [done|].
  by rewrite Hpaths, (any_ge_above t sims Hrange Ht).
Qed.

Lemma threshold_above_one_never_matches_witness :
  match_and_save sample_parse "if a > b { g(); }"
    "fn f() { let x = 1; if a > b { g(); } }" "matched/f.rs" 2
    {| Fs.files := ∅; Fs.dirs := ∅ |}
  = (Returned false, {| Fs.files := ∅; Fs.dirs := ∅ |}).
Proof.
  apply threshold_above_one_never_matches. lra.
Defined.

(** X20: a save path without a directory part is never written.  The
    directory name of such a path is empty and making it raises, so the
    call answers [False] or raises [FileNotFoundError], the file system
    being as before; and it raises whenever the same query saves the
    file under another path. *)
Theorem bare_save_path_is_never_written (parse : string -> node)
  (snippet_code full_code save_path : string) (t : R) (fs : Fs.filesystem) :
  contains "/" save_path = false ->
  (match_and_save parse snippet_code full_code save_path t fs = (Returned false, fs) \/
   match_and_save parse snippet_code full_code save_path t fs
   = (Raised "FileNotFoundError", fs)) /\
  (forall save_path' fs',
      fst (match_and_save parse snippet_code full_code save_path' t fs')
      = Returned true ->
      match_and_save parse snippet_code full_code save_path t fs
      = (Raised "FileNotFoundError", fs)).
Proof.
  intros Hbare.
  assert (Fs.makedirs (PyPath.dirname save_path) fs = inl "FileNotFoundError") as Hmk.
  { unfold PyPath.dirname.
    destruct (head_part_bare save_path Hbare) as [-> _]. reflexivity. }
  destruct (match_and_save_paths parse snippet_code full_code)
    as [Hno|(sims & _ & Hpaths)].
  - split; [by left|]. intros p' fs' H. by rewrite Hno in H.
  - rewrite !Hpaths, Hmk. split.
    + destruct (any_ge t sims); [by right|by left].
    + intros p' fs' H. rewrite Hpaths in H.
      by destruct (any_ge t sims).
Qed.

Lemma bare_save_path_is_never_written_witness :
  match_and_save sample_parse "if a > b { g(); }"
    "fn f() { let x = 1; if a > b { g(); } }" "f.rs" (6 / 10)
    {| Fs.files := ∅; Fs.dirs := ∅ |}
  = (Raised "FileNotFoundError", {| Fs.files := ∅; Fs.dirs := ∅ |}).
Proof.
  refine (proj2 (bare_save_path_is_never_written sample_parse "if a > b { g(); }"
                   "fn f() { let x = 1; if a > b { g(); } }" "f.rs" (6 / 10)
                   {| Fs.files := ∅; Fs.dirs := ∅ |} _)
                "matched/f.rs" {| Fs.files := ∅; Fs.dirs := ∅ |} _).
  - reflexivity.
  - exact sample_query_is_saved.
Defined.

End QueryFacts.

(** ** The document of a counter, read back by the vectorizer *)

Section DocumentRoundTrip.
Import PyStr Ast Sklearn Grammar.

Lemma is_space_lower_char (c : ascii) : is_space (lower_char c) = is_space c.
Proof. destruct c as [[] [] [] [] [] [] [] []]; reflexivity. Qed.

Lemma spaceless_lower (s : string) : spaceless s -> spaceless (lower s).
Proof.
  unfold spaceless. induction s as [|c s IH]; [done|].
  cbn [lower list_ascii_of_string forallb]. rewrite is_space_lower_char.
  intros H. apply andb_prop in H as [-> H]. by rewrite IH.
Qed.

Lemma spaceless_append (a b : string) :
  spaceless a -> spaceless b -> spaceless (a +:+ b).
Proof.
  unfold spaceless. intros Ha Hb. by rewrite chars_append, forallb_app, Ha, Hb.
Qed.

Lemma words_from_word (w cur rest : string) :
  spaceless w -> words_from cur (w +:+ rest) = words_from (cur +:+ w) rest.
Proof.
  unfold spaceless. revert cur. induction w as [|a w IH]; intros cur H.
  - by rewrite append_nil, append_nil_r.
  - cbn [list_ascii_of_string forallb] in H. apply andb_prop in H as [Ha H].
    apply negb_true_iff in Ha.
    rewrite append_cons. cbn [words_from]. rewrite Ha, (IH _ H).
    by rewrite append_assoc, append_cons, append_nil.
Qed.

Lemma words_from_sep (cur rest : string) :
  cur <> EmptyString ->
  words_from cur (String " " rest) = cur :: words_from EmptyString rest.
Proof. intros H. cbn. by destruct cur. Qed.

(** [SPACE.join(tokens)] is the first token followed by every other one
    behind a space. *)
Lemma join_tokens_cons (t : string) (ts : list string) :
  join_tokens (t :: ts)
  = t +:+ fold_right (fun x acc => String " " (x +:+ acc)) EmptyString ts.
Proof.
  cbn [join_tokens]. revert t.
  induction ts as [|x ts IH]; intros t.
  - cbn. by rewrite append_nil_r.
  - cbn [fold_left fold_right]. rewrite IH, !append_assoc.
    by rewrite append_cons, append_nil.
Qed.

Lemma analyze_joined (t : string) (ts : list string) :
  t <> EmptyString -> spaceless t ->
  Forall (fun x => x <> EmptyString /\ spaceless x) ts ->
  words_from EmptyString
    (lower (t +:+ fold_right (fun x acc => String " " (x +:+ acc)) EmptyString ts))
  = lower t :: List.map lower ts.
Proof.
  intros Hne Hs Hts. revert t Hne Hs.
  induction Hts as [|x ts [Hx Hsx] _ IH]; intros t Hne Hs.
  - cbn [fold_right List.map]. rewrite append_nil_r.
    rewrite <- (append_nil_r (lower t)).
    rewrite words_from_word by (by apply spaceless_lower).
    rewrite append_nil, !append_nil_r.
    destruct t as [|a t]; [done|reflexivity].
  - cbn [fold_right List.map]. rewrite lower_app.
    rewrite words_from_word by (by apply spaceless_lower).
    rewrite append_nil. cbn [lower].
    change (lower_char " ") with " "%char.
    rewrite words_from_sep by (by destruct t).
    by rewrite IH.
Qed.

Lemma analyze_join_tokens (tokens : list string) :
  Forall (fun x => x <> EmptyString /\ spaceless x) tokens ->
  analyze (join_tokens tokens) = List.map lower tokens.
Proof.
  intros H. unfold analyze. destruct H as [|t ts [Hne Hs] Hts]; [done|].
  rewrite join_tokens_cons. by apply analyze_joined.
Qed.

(** X21: the document of a counter carries the counter to the
    vectorizer.  When the node types hold no white space, the terms that
    the vectorizer reads from the document are the bigrams of the
    counter in lower case, in the order of the counter, each as many
    times as it was counted. *)
Theorem counter_to_doc_round_trip (c : Counter) :
  Forall (fun kv => spaceless (fst (fst kv)) /\ spaceless (snd (fst kv))) c ->
  analyze (counter_to_doc c)
  = flat_map (fun kv => repeat (lower (fst (fst kv) +:+ "__" +:+ snd (fst kv)))
                               (Z.to_nat (snd kv))) c.
Proof.
  intros Hc. unfold counter_to_doc. rewrite analyze_join_tokens.
  - induction c as [|[[p ch] cnt] c IH]; [done|].
    apply List.Forall_cons_iff in Hc as [_ Hc].
    cbn [flat_map fst snd]. rewrite List.map_app, IH by done.
    f_equal. induction (Z.to_nat cnt) as [|m IHm]; [done|].
    cbn [repeat List.map]. by rewrite IHm.
  - apply List.Forall_forall. intros tok Htok.
    apply in_flat_map in Htok as ([[p ch] cnt] & Hin & Htok).
    apply repeat_spec in Htok as ->.
    pose proof (proj1 (List.Forall_forall _ _) Hc _ Hin) as [Hp Hch].
    cbn [fst snd] in Hp, Hch. split.
    + intros H. apply (f_equal String.length) in H.
      rewrite !length_append in H. cbn in H. lia.
    + by repeat apply spaceless_append.
Qed.

Lemma counter_to_doc_round_trip_witness :
  analyze (counter_to_doc [(("if_expression", "block"), 2%Z);
                           (("block", "expression_statement"), 1%Z)])
  = ["if_expression__block"; "if_expression__block";
     "block__expression_statement"].
Proof.
  apply (counter_to_doc_round_trip
           [(("if_expression", "block"), 2%Z);
            (("block", "expression_statement"), 1%Z)]).
  repeat constructor.
Defined.

End DocumentRoundTrip.

(** ** The directory check and the sweep *)

Section DirectoryCheck.
Import PyStr PyPath Runner.




End DirectoryCheck.

(** ** The minimisation cycle of the agent *)

Section AgentCycle.
Import PyStr Runner Agent.

Lemma minifier_node_effect (e : env) (call : nat) (st st1 : AgentState) :
  minifier_node e call st = inr st1 ->
  iteration st1 = (iteration st + 1)%Z /\
  best_code st1 = best_code st /\
  original_code st1 = original_code st /\
  consecutive_failure_count st1 = consecutive_failure_count st /\
  failed_attempts st1 = failed_attempts st.
Proof.
  unfold minifier_node. destruct (llm e call) as [err|content]; [done|].
  intros H. injection H as <-. done.
Qed.

Lemma verification_node_effect (e : env) (st1 st2 : AgentState) :
  verification_node e st1 = inr st2 ->
  iteration st2 = iteration st1 /\
  original_code st2 = original_code st1 /\
  ((exists output, run_compiler e (current_code st1) = inr output /\
                   check_is_ice output = true /\
                   best_code st2 = current_code st1 /\
                   consecutive_failure_count st2 = 0%Z /\
                   failed_attempts st2 = failed_attempts st1) \/
   (best_code st2 = best_code st1 /\
    ((consecutive_failure_count st2 = (consecutive_failure_count st1 + 1)%Z /\
      exists diff, failed_attempts st2
                   = failed_attempts st1 ++ [SimplificationFailed diff]) \/
     (consecutive_failure_count st2 = consecutive_failure_count st1 /\
      failed_attempts st2 = failed_attempts st1)))).
Proof.
  unfold verification_node.
  destruct (run_compiler e (current_code st1)) as [err|output] eqn:Hrun; [done|].
  destruct (check_is_ice output) eqn:Hice.
  - intros H. injection H as <-. cbn. repeat split. left. by exists output.
  - destruct (truthy (strip (get_concise_diff e (best_code st1) (current_code st1))));
      intros H; injection H as <-; cbn; repeat split; right; split; try done.
    + left. split; [done|]. by eexists.
    + by right.
Qed.

(** The codes that the cycle may hold as its best: the trigger code, and
    every code whose compiler output carries a keyword of
    [check_is_ice]. *)
Lemma cycle_invariants (e : env) (code : string) (rounds call : nat)
  (st : AgentState) :
  (best_code st = code \/
   exists output, run_compiler e (best_code st) = inr output /\
                  check_is_ice output = true) ->
  original_code st = code ->
  (0 <= consecutive_failure_count st <= Z.of_nat (length (failed_attempts st)))%Z ->
  let st' := state_of (cycle e rounds call st) in
  (best_code st' = code \/
   exists output, run_compiler e (best_code st') = inr output /\
                  check_is_ice output = true) /\
  original_code st' = code /\
  (0 <= consecutive_failure_count st' <= Z.of_nat (length (failed_attempts st')))%Z /\
  (iteration st <= iteration st')%Z.
Proof.
  cbv zeta. revert call st.
  induction rounds as [|rounds IH]; intros call st Hbest Horig Hcount.
  { cbn. repeat split; try done; lia. }
  cbn [cycle].
  destruct (minifier_node e call st) as [err|st1] eqn:Hmin.
  { cbn. repeat split; try done; lia. }
  apply minifier_node_effect in Hmin as (Hi1 & Hb1 & Ho1 & Hc1 & Hf1).
  destruct (verification_node e st1) as [err|st2] eqn:Hver.
  { cbn. rewrite Hb1, Ho1, Hc1, Hf1. repeat split; try done; lia. }
  apply verification_node_effect in Hver as (Hi2 & Ho2 & Hv).
  assert ((best_code st2 = code \/
           exists output, run_compiler e (best_code st2) = inr output /\
                          check_is_ice output = true) /\
          (0 <= consecutive_failure_count st2
           <= Z.of_nat (length (failed_attempts st2)))%Z) as [Hbest2 Hcount2].
  { destruct Hv as [(output & Hrun & Hice & Hb2 & Hc2 & Hf2)
                   |(Hb2 & [(Hc2 & diff & Hf2)|(Hc2 & Hf2)])].
    - rewrite Hb2, Hc2. split; [right; by exists output|lia].
    - rewrite Hb2, Hb1, Hc2, Hf2, Hc1, Hf1, length_app. cbn. split; [done|lia].
    - rewrite Hb2, Hb1, Hc2, Hf2, Hc1, Hf1. by split. }
  destruct (String.eqb (router st2) "reasoner").
  { cbn. repeat split; try done; try congruence; lia. }
  destruct (IH (S call) st2 Hbest2 ltac:(congruence) Hcount2)
    as (H1 & H2 & H3 & H4).
  repeat split; try done; lia.
Qed.

Lemma router_reasoner (st : AgentState) :
  String.eqb (router st) "reasoner" = true <->
  (10 <= consecutive_failure_count st)%Z \/ (20 <= iteration st)%Z.
Proof.
  unfold router.
  destruct (Z.leb_spec 10 (consecutive_failure_count st));
    destruct (Z.leb_spec 20 (iteration st)); cbn; split; try done;
    try (intros _; lia); intros [?|?]; lia.
Qed.

(** With a round for every step up to the cap, the cycle ends. *)
Lemma cycle_ends (e : env) (rounds call : nat) (st : AgentState) :
  (0 <= consecutive_failure_count st < 10)%Z ->
  (1 <= rounds)%nat -> (20 - iteration st <= Z.of_nat rounds)%Z ->
  exists o,
    (forall more, cycle e (rounds + more) call st = o) /\
    ((exists err st', o = Aborted err st') \/
     (exists st', o = Reasoner st' /\
                  (iteration st < iteration st')%Z /\
                  (consecutive_failure_count st' = 10%Z \/
                   (20 <= iteration st')%Z /\
                   (iteration st < 20 -> iteration st' = 20)%Z))).
Proof.
  revert call st. induction rounds as [|rounds IH]; intros call st Hc Hr Hfuel;
    [lia|].
  cbn [cycle Nat.add].
  destruct (minifier_node e call st) as [err|st1] eqn:Hmin.
  { eexists. split; [done|]. left. by eexists _, _. }
  apply minifier_node_effect in Hmin as (Hi1 & _ & _ & Hc1 & _).
  destruct (verification_node e st1) as [err|st2] eqn:Hver.
  { eexists. split; [done|]. left. by eexists _, _. }
  apply verification_node_effect in Hver as (Hi2 & _ & Hv).
  assert (0 <= consecutive_failure_count st2 <= 10)%Z as Hc2.
  { destruct Hv as [(_ & _ & _ & _ & -> & _)|(_ & [(-> & _)|(-> & _)])]; lia. }
  destruct (String.eqb (router st2) "reasoner") eqn:Hrt.
  - eexists. split; [done|]. right. exists st2. split; [done|].
    apply router_reasoner in Hrt. split; [lia|].
    destruct Hrt as [Hrt|Hrt]; [left; lia|right; split; lia].
  - assert (~ ((10 <= consecutive_failure_count st2)%Z \/ (20 <= iteration st2)%Z))
      as Hno.
    { intros H. apply router_reasoner in H. congruence. }
    destruct (IH (S call) st2) as (o & Ho & Hcase); [lia..|].
    exists o. split; [done|].
    destruct Hcase as [Hab|(st' & -> & Hlt & Hwhy)]; [by left|].
    right. exists st'. split; [done|]. split; [lia|].
    destruct Hwhy as [?|[? Heq]]; [by left|right]. split; [done|].
    intros _. apply Heq. lia.
Qed.

(** X23: the minimisation cycle ends within 20 rounds.  From the state
    that parsing leaves, whatever the model answers and whatever the
    compiler prints, twenty rounds of minify and verify are enough (and
    more change nothing): the cycle ends with an exception of a node, or
    it reaches the reasoner, and then either ten failed simplifications
    in a row were counted, each with its diff in [failed_attempts], or
    the iteration counter stands at 20. *)
Theorem minimisation_ends_within_20_rounds (e : env) (code commit : string) :
  exists o,
    (forall more, cycle e (20 + more) 0 (parsed code commit) = o) /\
    ((exists err st, o = Aborted err st) \/
     (exists st, o = Reasoner st /\
                 (1 <= iteration st <= 20)%Z /\
                 ((consecutive_failure_count st = 10%Z /\
                   (10 <= length (failed_attempts st))%nat) \/
                  iteration st = 20%Z))).
Proof.
  destruct (cycle_ends e 20 0 (parsed code commit)) as (o & Ho & Hcase);
    [cbn; lia..|].
  exists o. split; [done|].
  destruct Hcase as [Hab|(st & -> & Hlt & Hwhy)]; [by left|].
  right. exists st. split; [done|].
  pose proof (cycle_invariants e code 20 0 (parsed code commit)
                (or_introl eq_refl) eq_refl ltac:(cbn; lia)) as (_ & _ & Hcount & _).
  pose proof (Ho 0%nat) as Ho0. change (20 + 0)%nat with 20%nat in Ho0.
  cbv zeta in Hcount. rewrite Ho0 in Hcount. cbn [state_of] in Hcount.
  cbn [parsed iteration] in Hlt, Hwhy.
  destruct Hwhy as [Hten|[Hge Heq]].
  - assert (iteration st <= 20)%Z as Hle.
    { destruct (Z.le_gt_cases (iteration st) 20) as [|Hgt]; [done|].
      exfalso. clear -Ho0 Hgt.
      assert (forall rounds call s, (iteration (state_of (cycle e rounds call s))
                <= iteration s + Z.of_nat rounds)%Z) as Hbound.
      { induction rounds as [|rounds IH]; intros call s; [cbn; lia|].
        cbn [cycle].
        destruct (minifier_node e call s) as [err|s1] eqn:Hmin; [cbn; lia|].
        apply minifier_node_effect in Hmin as (Hi1 & _).
        destruct (verification_node e s1) as [err|s2] eqn:Hver; [cbn; lia|].
        apply verification_node_effect in Hver as (Hi2 & _).
        destruct (String.eqb (router s2) "reasoner"); [cbn; lia|].
        specialize (IH (S call) s2). lia. }
      specialize (Hbound 20%nat 0%nat (parsed code commit)).
      rewrite Ho0 in Hbound. cbn in Hbound. lia. }
    split; [lia|]. left. split; [done|lia].
  - split; [lia|]. right. lia.
Qed.

(** X24: the best code of the agent reproduces the crash.  Wherever the
    cycle stands after any number of rounds, [best_code] is the trigger
    code of the input document or a code on which the compiler was run
    and whose output [check_is_ice] accepted; [original_code] is still
    the trigger code. *)
Theorem best_code_reproduces (e : env) (code commit : string) (rounds : nat) :
  let st := state_of (cycle e rounds 0 (parsed code commit)) in
  (best_code st = code \/
   exists output, run_compiler e (best_code st) = inr output /\
                  check_is_ice output = true) /\
  original_code st = code.
Proof.
  cbv zeta.
  destruct (cycle_invariants e code rounds 0 (parsed code commit)
              (or_introl eq_refl) eq_refl ltac:(cbn; lia)) as (H1 & H2 & _).
  by split.
Qed.

End AgentCycle.

(** ** The filter and the detector of the agent *)

Section NodeFacts.
Import PyStr PyPath Runner Ast Nodes.
Local Open Scope R_scope.

(** What a call of [match_and_save] leaves in the file system: the files
    that were there, and the candidate under the save path when the call
    answers [True]. *)
Lemma match_and_save_writes (parse : string -> node)
  (snippet_code full_code save_path : string) (t : R) (fs : Fs.filesystem) :
  let r := match_and_save parse snippet_code full_code save_path t fs in
  (forall q v, Fs.files (snd r) !! q = Some v ->
               Fs.files fs !! q = Some v \/
               (q = save_path /\ v = full_code /\ fst r = Returned true)) /\
  (forall q, is_Some (Fs.files fs !! q) -> is_Some (Fs.files (snd r) !! q)).
Proof.
  cbv zeta.
  destruct (match_and_save_paths parse snippet_code full_code)
    as [Hno|(sims & _ & Hpaths)].
  { rewrite Hno. cbn. split; [intros q v H; by left|done]. }
  rewrite Hpaths. destruct (any_ge t sims).
  2: { cbn. split; [intros q v H; by left|done]. }
  destruct (Fs.makedirs (PyPath.dirname save_path) fs) as [err|fs1] eqn:Hmk.
  { cbn. split; [intros q v H; by left|done]. }
  apply makedirs_files in Hmk.
  destruct (Fs.write_file save_path full_code fs1) as [err|fs2] eqn:Hwr.
  { cbn. rewrite Hmk. split; [intros q v H; by left|done]. }
  apply write_file_files in Hwr. cbn. rewrite Hwr, Hmk. split.
  - intros q v H. apply lookup_insert_Some in H as [[<- <-]|[_ H]];
      [by right|by left].
  - intros q [v Hq]. destruct (decide (save_path = q)) as [<-|Hne].
    + rewrite lookup_insert_eq. by eexists.
    + rewrite lookup_insert_ne by done. by eexists.
Qed.

Lemma filter_loop_reports (e : filter_env) (defect_code output_dir : string)
  (walked : list (string * string)) (fs : Fs.filesystem)
  (out : list filter_event) (ev : filter_event) :
  In ev out ->
  In ev (snd (reached (filter_loop e defect_code output_dir walked fs out))).
Proof.
  revert fs out. induction walked as [|[file rel] walked IH]; intros fs out Hin;
    [done|].
  cbn [filter_loop]. destruct (endswith ".rs" file); [|by apply IH].
  destruct (read e (path_join INPUT_DIR rel)) as [err|code].
  { apply IH. apply in_or_app. by left. }
  destruct (match_and_save _ _ _ _ _ _) as [[[|]|err] fs']; [| |done];
    apply IH; apply in_or_app; by left.
Qed.

Lemma filter_loop_writes (e : filter_env) (defect_code output_dir : string)
  (walked : list (string * string)) (fs : Fs.filesystem)
  (out : list filter_event) :
  let r := reached (filter_loop e defect_code output_dir walked fs out) in
  (forall p v, Fs.files (fst r) !! p = Some v ->
     Fs.files fs !! p = Some v \/
     exists file rel,
       In (file, rel) walked /\ endswith ".rs" file = true /\
       p = path_join output_dir rel /\
       read e (path_join INPUT_DIR rel) = inr v /\
       In (Matched (path_join INPUT_DIR rel) p) (snd r)) /\
  (forall p, is_Some (Fs.files fs !! p) -> is_Some (Fs.files (fst r) !! p)).
Proof.
  cbv zeta. revert fs out.
  induction walked as [|[file rel] walked IH]; intros fs out.
  { cbn. split; [intros p v H; by left|done]. }
  cbn [filter_loop].
  assert (forall fs' out',
    (forall p v, Fs.files fs' !! p = Some v -> Fs.files fs !! p = Some v) ->
    (forall p, is_Some (Fs.files fs !! p) -> is_Some (Fs.files fs' !! p)) ->
    let r := reached (filter_loop e defect_code output_dir walked fs' out') in
    (forall p v, Fs.files (fst r) !! p = Some v ->
       Fs.files fs !! p = Some v \/
       exists file0 rel0,
         In (file0, rel0) ((file, rel) :: walked) /\ endswith ".rs" file0 = true /\
         p = path_join output_dir rel0 /\
         read e (path_join INPUT_DIR rel0) = inr v /\
         In (Matched (path_join INPUT_DIR rel0) p) (snd r)) /\
    (forall p, is_Some (Fs.files fs !! p) -> is_Some (Fs.files (fst r) !! p)))
    as Hsame.
  { intros fs' out' Hback Hfwd. cbv zeta.
    destruct (IH fs' out') as [H1 H2]. split.
    - intros p v H. apply H1 in H as [H|(f0 & r0 & Hin & H)].
      + left. by apply Hback.
      + right. exists f0, r0. split; [by right|done].
    - intros p Hp. by apply H2, Hfwd. }
  destruct (endswith ".rs" file) eqn:Hrs; [|by apply Hsame].
  destruct (read e (path_join INPUT_DIR rel)) as [err|code] eqn:Hread;
    [by apply Hsame|].
  pose proof (match_and_save_writes (parse e) defect_code code
                (path_join output_dir rel) (6 / 10) fs) as [Hw Hkeep].
  cbv zeta in Hw, Hkeep.
  destruct (match_and_save (parse e) defect_code code (path_join output_dir rel)
              (6 / 10) fs) as [[[|]|err] fs'] eqn:Hms; cbn [fst snd] in Hw, Hkeep.
  - destruct (IH fs' (out ++ [Matched (path_join INPUT_DIR rel)
                                      (path_join output_dir rel)])) as [H1 H2].
    split.
    + intros p v H. apply H1 in H as [H|(f0 & r0 & Hin & H)].
      * apply Hw in H as [H|(-> & -> & _)]; [by left|].
        right. exists file, rel. split; [by left|]. repeat split; try done.
        apply filter_loop_reports. apply in_or_app. right. by left.
      * right. exists f0, r0. split; [by right|done].
    + intros p Hp. by apply H2, Hkeep.
  - apply Hsame; [|done].
    intros p v H. by apply Hw in H as [H|(_ & _ & ?)].
  - cbn. split; [|done].
    intros p v H. apply Hw in H as [H|(_ & _ & ?)]; [by left|done].
Qed.

(** X25: [filter_node] writes matches only.  Whether it returns or an
    exception of [match_and_save] stops it, every file it leaves that
    was not there before stands under [output/ISSUE/matched_cases] at
    the relative path of a Rust test file that was read, holds the text
    of that file, and was reported as matched; no file that was there is
    removed. *)
Theorem filter_node_writes_matches_only (e : filter_env)
  (defect_prone : option string) (issue_id : string)
  (walked : list (string * string)) (fs : Fs.filesystem) :
  let r := reached (filter_node e defect_prone issue_id walked fs) in
  (forall p v, Fs.files (fst r) !! p = Some v ->
     Fs.files fs !! p = Some v \/
     exists file rel,
       In (file, rel) walked /\ endswith ".rs" file = true /\
       p = path_join (issue_dir issue_id "matched_cases") rel /\
       read e (path_join INPUT_DIR rel) = inr v /\
       In (Matched (path_join INPUT_DIR rel) p) (snd r)) /\
  (forall p, is_Some (Fs.files fs !! p) -> is_Some (Fs.files (fst r) !! p)).
Proof. apply filter_loop_writes. Qed.

Lemma detector_loop_archive (e : detector_env) (output_dir : string)
  (walked : list (string * string)) (ice : gmap string string)
  (out : list detector_event) (n v : string) :
  fst (reached (detector_loop e output_dir walked ice out)) !! n = Some v ->
  ice !! n = Some v \/
  exists root,
    In (n, root) walked /\ endswith ".rs" n = true /\
    check_is_ice (compile_rust_file e (path_join root n)) = true /\
    v = source e (path_join root n).
Proof.
  revert ice out. induction walked as [|[file root] walked IH]; intros ice out H;
    [by left|].
  cbn [detector_loop] in H.
  assert (forall ice' out',
            fst (reached (detector_loop e output_dir walked ice' out')) !! n = Some v ->
            (ice' !! n = Some v -> ice !! n = Some v \/
               exists root0, In (n, root0) ((file, root) :: walked) /\
                 endswith ".rs" n = true /\
                 check_is_ice (compile_rust_file e (path_join root0 n)) = true /\
                 v = source e (path_join root0 n)) ->
            ice !! n = Some v \/
            exists root0, In (n, root0) ((file, root) :: walked) /\
              endswith ".rs" n = true /\
              check_is_ice (compile_rust_file e (path_join root0 n)) = true /\
              v = source e (path_join root0 n)) as Hstep.
  { intros ice' out' H' Hice.
    apply IH in H' as [H'|(r0 & Hin & H')]; [by apply Hice|].
    right. exists r0. split; [by right|done]. }
  destruct (endswith ".rs" file) eqn:Hrs; [|apply (Hstep _ _ H); by left].
  destruct (check_is_ice (compile_rust_file e (path_join root file))) eqn:Hice;
    [|apply (Hstep _ _ H); by left].
  destruct (copy_error e (path_join root file)) as [err|]; [by left|].
  apply (Hstep _ _ H). intros Hn.
  apply lookup_insert_Some in Hn as [[<- <-]|[_ Hn]]; [|by left].
  right. exists root. split; [by left|done].
Qed.

(** X26: [detector_node] keeps what [check_is_ice] accepts, by file
    name.  Every file that the node leaves in [pending_review/ice] and
    that was not there before carries the name of a mutated Rust case
    whose compiler output (or the text of the exception, when the
    compiler could not be started) [check_is_ice] accepted, and holds
    the text of such a case. *)
Theorem detector_node_archive (e : detector_env)
  (walked : list (string * string)) (ice : gmap string string) (n v : string) :
  fst (reached (detector_node e walked ice)) !! n = Some v ->
  ice !! n = Some v \/
  exists root,
    In (n, root) walked /\ endswith ".rs" n = true /\
    check_is_ice (compile_rust_file e (path_join root n)) = true /\
    v = source e (path_join root n).
Proof. apply detector_loop_archive. Qed.

Lemma detector_node_archive_witness :
  let e := {| rustc := fun p =>
                if String.eqb p "output/7/mutated_cases/a.rs"
                then Agent.Exited EmptyString "thread 'rustc' panicked at compiler"
                else Agent.Exited EmptyString EmptyString;
              copy_error := fun _ => None;
              source := fun p => "// " +:+ p |} in
  (∅ : gmap string string) !! "a.rs" = Some "// output/7/mutated_cases/a.rs" \/
  exists root,
    In ("a.rs", root) [("a.rs", "output/7/mutated_cases");
                       ("b.rs", "output/7/mutated_cases")] /\
    endswith ".rs" "a.rs" = true /\
    check_is_ice (compile_rust_file e (path_join root "a.rs")) = true /\
    "// output/7/mutated_cases/a.rs" = source e (path_join root "a.rs").
Proof.
  cbv zeta.
  apply (detector_node_archive _ [("a.rs", "output/7/mutated_cases");
                                  ("b.rs", "output/7/mutated_cases")] ∅).
  vm_compute. reflexivity.
Defined.

Lemma detector_loop_skips (e : detector_env) (output_dir : string)
  (walked : list (string * string)) (ice : gmap string string)
  (out : list detector_event) (n : string) :
  (forall p, copy_error e p = None) ->
  (forall root, In (n, root) walked -> endswith ".rs" n = true ->
                check_is_ice (compile_rust_file e (path_join root n)) = false) ->
  exists ice' out',
    detector_loop e output_dir walked ice out = Returns (ice', out') /\
    ice' !! n = ice !! n.
Proof.
  intros Hcopy. revert ice out.
  induction walked as [|[file root] walked IH]; intros ice out Hno;
    [by eexists _, _|].
  cbn [detector_loop].
  assert (forall root0, In (n, root0) walked -> endswith ".rs" n = true ->
            check_is_ice (compile_rust_file e (path_join root0 n)) = false) as Hno'
    by (intros r0 Hin; apply Hno; by right).
  destruct (endswith ".rs" file) eqn:Hrs; [|by apply IH].
  destruct (check_is_ice (compile_rust_file e (path_join root file))) eqn:Hice;
    [|by apply IH].
  rewrite Hcopy.
  destruct (IH (<[ file := source e (path_join root file) ]> ice)
               ((out ++ [Compiling (path_join root file)]) ++
                [IceDetected file output_dir]) Hno')
    as (ice' & out' & -> & Hn).
  exists ice', out'. split; [done|]. rewrite Hn.
  apply lookup_insert_ne. intros ->.
  rewrite (Hno root) in Hice; [done|by left|done].
Qed.

(** X27: the archive of [detector_node] is flat, and the last case of a
    name is the one it keeps.  When copying raises nothing, the node
    returns, and a mutated Rust case that [check_is_ice] accepts is in
    the archive under its bare file name with its own text, provided no
    later case of the same name is accepted too; a case of that name
    accepted earlier, in whatever directory, is overwritten. *)
Theorem detector_node_keeps_last_of_a_name (e : detector_env)
  (before after : list (string * string)) (n root : string)
  (ice : gmap string string) :
  (forall p, copy_error e p = None) ->
  endswith ".rs" n = true ->
  check_is_ice (compile_rust_file e (path_join root n)) = true ->
  (forall root', In (n, root') after ->
                 check_is_ice (compile_rust_file e (path_join root' n)) = false) ->
  exists ice' out,
    detector_node e (before ++ (n, root) :: after) ice = Returns (ice', out) /\
    ice' !! n = Some (source e (path_join root n)).
Proof.
  intros Hcopy Hrs Hice Hlast. unfold detector_node.
  generalize (@nil detector_event). revert ice.
  induction before as [|[file0 root0] before IH]; intros ice out.
  - cbn [app detector_loop]. rewrite Hrs, Hice, Hcopy.
    destruct (detector_loop_skips e (path_join "pending_review" "ice") after
                (<[ n := source e (path_join root n) ]> ice)
                ((out ++ [Compiling (path_join root n)]) ++
                 [IceDetected n (path_join "pending_review" "ice")]) n Hcopy)
      as (ice' & out' & -> & Hn).
    { intros r0 Hin _. by apply Hlast. }
    exists ice', out'. split; [done|]. by rewrite Hn, lookup_insert_eq.
  - cbn [app detector_loop].
    destruct (endswith ".rs" file0); [|by apply IH].
    destruct (check_is_ice (compile_rust_file e (path_join root0 file0)));
      [|by apply IH].
    rewrite Hcopy. by apply IH.
Qed.

Lemma detector_node_keeps_last_of_a_name_witness :
  let e := {| rustc := fun _ =>
                Agent.Exited EmptyString "error: internal compiler error: oops";
              copy_error := fun _ => None;
              source := fun p => "// " +:+ p |} in
  exists ice' out,
    detector_node e ([("t.rs", "cases/x")] ++ ("t.rs", "cases/y") :: []) ∅
    = Returns (ice', out) /\
    ice' !! "t.rs" = Some (source e (path_join "cases/y" "t.rs")).
Proof.
  cbv zeta.
  apply (detector_node_keeps_last_of_a_name _ [("t.rs", "cases/x")] []
           "t.rs" "cases/y" ∅).
  - done.
  - reflexivity.
  - reflexivity.
  - intros root' [].
Defined.

End NodeFacts.
